(** * Log viewer client: message normalisation, log store, filter and
      connection lifecycle of [src/App.jsx] (the variant with line
      numbers, levels and the level filter).

    The component is embedded as a state machine over one record [App]
    that holds the React state, the refs, the closure flag
    [isCleanedUp] and the part of the browser the component talks to
    (sockets, timers, clocks).  Handlers that can raise inside the
    [try] block are written in a small state-and-exception monad in
    which the state survives a raise, as a mutated ref does in
    JavaScript.  The machine covers one run of the effect; the runs of
    the effect under StrictMode have a machine of their own on top of
    it. *)

From Stdlib Require Import Ascii String QArith.
From stdpp Require Import base tactics option list strings gmap pretty.

Local Open Scope Z_scope.
Local Open Scope string_scope.

(** ** JavaScript values as [JSON.parse] produces them *)

(** Numbers only matter through their truthiness; a rational stands for
    the parsed number. *)
#[local] Set Warnings "-register-all".
Inductive value : Type :=
| VUndefined
| VNull
| VBool (b : bool)
| VNum (q : Q)
| VStr (s : string)
| VArr (items : list value)
| VObj (fields : list (string * value)).

(** [ToBoolean]. *)
Definition truthy (v : value) : bool :=
  match v with
  | VUndefined | VNull => false
  | VBool b => b
  | VNum q => negb (Qeq_bool q 0)
  | VStr s => negb (String.eqb s "")
  | VArr _ | VObj _ => true
  end.

(** Own property of a parsed object; the keys of a parsed object are
    distinct, so the first match is the only one. *)
Fixpoint field (k : string) (fields : list (string * value)) : value :=
  match fields with
  | [] => VUndefined
  | (k', v) :: rest => if String.eqb k k' then v else field k rest
  end.

(** Outcome of an expression that may raise. *)
Inductive Result (A : Type) : Type :=
| Ok (a : A)
| Throw.
Arguments Ok {A} a.
Arguments Throw {A}.

(** [v.k] for the keys this component reads ([type], [data],
    [timestamp], [level], [message], [isStructured]): none of them is a
    built-in property of a string, a number, a boolean or an array, so
    those give [undefined]; [null] and [undefined] raise a TypeError. *)
Definition prop (v : value) (k : string) : Result value :=
  match v with
  | VUndefined | VNull => Throw
  | VObj fields => Ok (field k fields)
  | VBool _ | VNum _ | VStr _ | VArr _ => Ok VUndefined
  end.

(** [v === 'lit'] against a string literal. *)
Definition strict_eq_str (v : value) (lit : string) : bool :=
  match v with
  | VStr s => String.eqb s lit
  | _ => false
  end.

(** [v !== undefined]. *)
Definition is_defined (v : value) : bool :=
  match v with
  | VUndefined => false
  | _ => true
  end.

(** [a || b] with [b] already a value. *)
Definition js_or (a b : value) : value := if truthy a then a else b.

(** ** Strings

    Strings are byte strings; the three string methods below are the
    ASCII part of their JavaScript namesakes. *)

Definition nl : ascii := "010"%char.

(** [s.split('\n')]: always at least one piece. *)
Fixpoint split (sep : ascii) (s : string) : list string :=
  match s with
  | EmptyString => [EmptyString]
  | String c rest =>
      if Ascii.eqb c sep then EmptyString :: split sep rest
      else match split sep rest with
           | piece :: pieces => String c piece :: pieces
           | [] => [String c EmptyString]
           end
  end.

(** White space and line terminators below 128: tab, LF, VT, FF, CR and
    space. *)
Definition is_space (c : ascii) : bool :=
  let n := nat_of_ascii c in
  ((9 <=? n)%nat && (n <=? 13)%nat) || (n =? 32)%nat.

Fixpoint trimStart (s : string) : string :=
  match s with
  | EmptyString => EmptyString
  | String c rest => if is_space c then trimStart rest else s
  end.

Fixpoint trimEnd (s : string) : string :=
  match s with
  | EmptyString => EmptyString
  | String c rest =>
      match trimEnd rest with
      | EmptyString => if is_space c then EmptyString else String c EmptyString
      | t => String c t
      end
  end.

Definition trim (s : string) : string := trimEnd (trimStart s).

(** The callback of [.filter(line => line.trim())]. *)
Definition nonblank (line : string) : bool := negb (String.eqb (trim line) "").

Definition upper_ascii (c : ascii) : ascii :=
  let n := nat_of_ascii c in
  if ((97 <=? n)%nat && (n <=? 122)%nat)%bool then ascii_of_nat (n - 32) else c.

Fixpoint toUpperCase (s : string) : string :=
  match s with
  | EmptyString => EmptyString
  | String c rest => String (upper_ascii c) (toUpperCase rest)
  end.

(** ** Log records and the component state *)

Record LogRecord : Type := mkLog {
  id : string;
  lineNumber : Z;
  timestamp : value;
  level : value;
  message : value;
  isStructured : value;
  isHistory : bool
}.

(** [WebSocket.readyState]. *)
Inductive ReadyState : Type := CONNECTING | OPEN | CLOSING | CLOSED.

Global Instance ReadyState_eq_dec : EqDecision ReadyState.
Proof. solve_decision. Defined.

(** What the host answers on its [n]-th call, whatever the call is: the
    component cannot tell in advance what the clock or the random
    generator returns. *)
Record Host : Type := mkHost {
  toLocaleTimeString : nat -> string;   (* new Date().toLocaleTimeString() *)
  Date_now : nat -> Z;                  (* Date.now() *)
  Math_random : nat -> string;          (* `${Math.random()}` *)
  JSON_stringify : value -> string      (* JSON.stringify(data) *)
}.

(** React state ([logs] .. [filterLevel]), refs ([wsRef] ..
    [logCounterRef]), the flag captured by the effect's closures, and
    the browser: every socket ever constructed with its ready state,
    the pending timers with the time they are due, the next timer
    handle, the time in milliseconds and the number of host calls made
    so far.  The counter is an exact integer, as a JavaScript number is
    below 2^53. *)
Record App : Type := mkApp {
  logs : list LogRecord;
  isConnected : bool;
  connectionStatus : string;
  filterLevel : string;
  wsRef : option nat;
  reconnectTimeoutRef : option nat;
  logCounterRef : Z;
  isCleanedUp : bool;
  sockets : list ReadyState;
  timers : gmap nat Z;
  nextTimer : nat;
  clock_ms : Z;
  hostCalls : nat
}.

Definition set_logs (f : list LogRecord -> list LogRecord) (a : App) : App :=
  mkApp (f (logs a)) (isConnected a) (connectionStatus a) (filterLevel a)
        (wsRef a) (reconnectTimeoutRef a) (logCounterRef a) (isCleanedUp a)
        (sockets a) (timers a) (nextTimer a) (clock_ms a) (hostCalls a).

Definition set_isConnected (b : bool) (a : App) : App :=
  mkApp (logs a) b (connectionStatus a) (filterLevel a)
        (wsRef a) (reconnectTimeoutRef a) (logCounterRef a) (isCleanedUp a)
        (sockets a) (timers a) (nextTimer a) (clock_ms a) (hostCalls a).

Definition set_connectionStatus (s : string) (a : App) : App :=
  mkApp (logs a) (isConnected a) s (filterLevel a)
        (wsRef a) (reconnectTimeoutRef a) (logCounterRef a) (isCleanedUp a)
        (sockets a) (timers a) (nextTimer a) (clock_ms a) (hostCalls a).

Definition set_filterLevel (s : string) (a : App) : App :=
  mkApp (logs a) (isConnected a) (connectionStatus a) s
        (wsRef a) (reconnectTimeoutRef a) (logCounterRef a) (isCleanedUp a)
        (sockets a) (timers a) (nextTimer a) (clock_ms a) (hostCalls a).

Definition set_wsRef (w : option nat) (a : App) : App :=
  mkApp (logs a) (isConnected a) (connectionStatus a) (filterLevel a)
        w (reconnectTimeoutRef a) (logCounterRef a) (isCleanedUp a)
        (sockets a) (timers a) (nextTimer a) (clock_ms a) (hostCalls a).

Definition set_reconnectTimeoutRef (t : option nat) (a : App) : App :=
  mkApp (logs a) (isConnected a) (connectionStatus a) (filterLevel a)
        (wsRef a) t (logCounterRef a) (isCleanedUp a)
        (sockets a) (timers a) (nextTimer a) (clock_ms a) (hostCalls a).

Definition set_logCounterRef (n : Z) (a : App) : App :=
  mkApp (logs a) (isConnected a) (connectionStatus a) (filterLevel a)
        (wsRef a) (reconnectTimeoutRef a) n (isCleanedUp a)
        (sockets a) (timers a) (nextTimer a) (clock_ms a) (hostCalls a).

Definition set_isCleanedUp (b : bool) (a : App) : App :=
  mkApp (logs a) (isConnected a) (connectionStatus a) (filterLevel a)
        (wsRef a) (reconnectTimeoutRef a) (logCounterRef a) b
        (sockets a) (timers a) (nextTimer a) (clock_ms a) (hostCalls a).

Definition set_sockets (f : list ReadyState -> list ReadyState) (a : App) : App :=
  mkApp (logs a) (isConnected a) (connectionStatus a) (filterLevel a)
        (wsRef a) (reconnectTimeoutRef a) (logCounterRef a) (isCleanedUp a)
        (f (sockets a)) (timers a) (nextTimer a) (clock_ms a) (hostCalls a).

Definition set_timers (f : gmap nat Z -> gmap nat Z) (a : App) : App :=
  mkApp (logs a) (isConnected a) (connectionStatus a) (filterLevel a)
        (wsRef a) (reconnectTimeoutRef a) (logCounterRef a) (isCleanedUp a)
        (sockets a) (f (timers a)) (nextTimer a) (clock_ms a) (hostCalls a).

Definition set_nextTimer (n : nat) (a : App) : App :=
  mkApp (logs a) (isConnected a) (connectionStatus a) (filterLevel a)
        (wsRef a) (reconnectTimeoutRef a) (logCounterRef a) (isCleanedUp a)
        (sockets a) (timers a) n (clock_ms a) (hostCalls a).

Definition set_clock_ms (t : Z) (a : App) : App :=
  mkApp (logs a) (isConnected a) (connectionStatus a) (filterLevel a)
        (wsRef a) (reconnectTimeoutRef a) (logCounterRef a) (isCleanedUp a)
        (sockets a) (timers a) (nextTimer a) t (hostCalls a).

Definition set_hostCalls (n : nat) (a : App) : App :=
  mkApp (logs a) (isConnected a) (connectionStatus a) (filterLevel a)
        (wsRef a) (reconnectTimeoutRef a) (logCounterRef a) (isCleanedUp a)
        (sockets a) (timers a) (nextTimer a) (clock_ms a) n.

(** ** Handlers that may raise: state and exception *)

Definition M (A : Type) : Type := App -> Result A * App.

Global Instance M_ret : MRet M := fun A x a => (Ok x, a).
Global Instance M_bind : MBind M := fun A B f m a =>
  match m a with
  | (Ok x, a') => f x a'
  | (Throw, a') => (Throw, a')
  end.

Definition throw {A : Type} : M A := fun a => (Throw, a).
Definition lift {A : Type} (r : Result A) : M A := fun a => (r, a).
Definition modify (f : App -> App) : M unit := fun a => (Ok tt, f a).
Definition read {A : Type} (f : App -> A) : M A := fun a => (Ok (f a), a).

(** [try { body } catch (error) { console.error(...) }]: the raise is
    absorbed, what the body did to the state before it stays. *)
Definition try_catch (body : M unit) : App -> App := fun a => snd (body a).

(** [array.map((x, index) => f(x, index))], left to right; a raise in
    the callback ends the whole call. *)
Fixpoint map_index {A B : Type} (f : A -> nat -> M B) (l : list A) (index : nat)
  : M (list B) :=
  match l with
  | [] => mret []
  | x :: rest =>
      y ← f x index;
      ys ← map_index f rest (S index);
      mret (y :: ys)
  end.

(** ** The component *)

Section Component.
Context (host : Host).

(** One call into the host; its answer depends on how many calls came
    before. *)
Definition host_call {A : Type} (answer : nat -> A) : M A :=
  fun a => (Ok (answer (hostCalls a)), set_hostCalls (S (hostCalls a)) a).

Definition new_Date_toLocaleTimeString : M string :=
  host_call (toLocaleTimeString host).
Definition Date_now_call : M Z := host_call (Date_now host).
Definition Math_random_call : M string := host_call (Math_random host).

(** [data.k] inside a handler. *)
Definition get (v : value) (k : string) : M value := lift (prop v k).

(** [v || new Date().toLocaleTimeString()]: the clock is read only
    when [v] is falsy. *)
Definition or_time (v : value) : M value :=
  if truthy v then mret v
  else t ← new_Date_toLocaleTimeString; mret (VStr t).

(** [x.isStructured !== undefined ? x.isStructured : true]. *)
Definition structured_flag (x : value) : M value :=
  s ← get x "isStructured";
  if is_defined s then get x "isStructured" else mret (VBool true).

(** [logCounterRef.current++]. *)
Definition incr_counter : M unit :=
  modify (fun a => set_logCounterRef (logCounterRef a + 1) a).

(** [setLogs(prevLogs => [...prevLogs, newLog])]. *)
Definition append_log (newLog : LogRecord) : M unit :=
  modify (set_logs (fun prevLogs => (prevLogs ++ [newLog])%list)).

(** The id of a live record: [`log-${Date.now()}-${Math.random()}`]. *)
Definition live_id : M string :=
  now ← Date_now_call;
  r ← Math_random_call;
  mret ("log-" ++ pretty now ++ "-" ++ r).

(** Callback of the [.map] over the lines of a string payload. *)
Definition history_line (line : string) (index : nat) : M value :=
  t ← new_Date_toLocaleTimeString;
  mret (VObj [("timestamp", VStr t); ("level", VStr "INFO");
              ("message", VStr line); ("isStructured", VBool false)]).

(** Callback of [historyLogs.map((log, index) => ...)]. *)
Definition process_history (log : value) (index : nat) : M LogRecord :=
  incr_counter;;
  now ← Date_now_call;
  n ← read logCounterRef;
  ts ← get log "timestamp";
  ts' ← or_time ts;
  lv ← get log "level";
  ms ← get log "message";
  st ← structured_flag log;
  mret (mkLog ("history-" ++ pretty now ++ "-" ++ pretty index) n ts'
              (js_or lv (VStr "INFO")) (js_or ms log) st true).

(** The branch [data.type === 'HISTORY']. *)
Definition history_branch (data : value) : M unit :=
  payload ← get data "data";
  historyLogs ←
    match payload with
    | VArr items => mret items
    | VStr s => map_index history_line (List.filter nonblank (split nl s)) 0
    | _ => mret []
    end;
  processedHistory ← map_index process_history historyLogs 0;
  modify (set_logs (fun _ => processedHistory)).

(** [data.timestamp && data.level && data.message], left to right. *)
Definition has_all_three (data : value) : M value :=
  ts ← get data "timestamp";
  if truthy ts then
    lv ← get data "level";
    if truthy lv then get data "message" else mret lv
  else mret ts.

Definition structured_branch (data : value) : M unit :=
  incr_counter;;
  i ← live_id;
  n ← read logCounterRef;
  ts ← get data "timestamp";
  lv ← get data "level";
  ms ← get data "message";
  st ← structured_flag data;
  append_log (mkLog i n ts lv ms st false).

Definition log_branch (data : value) : M unit :=
  incr_counter;;
  i ← live_id;
  n ← read logCounterRef;
  ts ← get data "timestamp";
  ts' ← or_time ts;
  lv ← get data "level";
  ms ← get data "message";
  st ← structured_flag data;
  append_log (mkLog i n ts' (js_or lv (VStr "INFO"))
                    (js_or ms (VStr (JSON_stringify host data))) st false).

Definition fallback_branch (data : value) : M unit :=
  incr_counter;;
  i ← live_id;
  n ← read logCounterRef;
  ts ← get data "timestamp";
  ts' ← or_time ts;
  lv ← get data "level";
  ms ← get data "message";
  st ← structured_flag data;
  append_log (mkLog i n ts' (js_or lv (VStr "INFO")) ms st false).

(** The body of the [try] block, after [JSON.parse]. *)
Definition classify (data : value) : M unit :=
  ty ← get data "type";
  if strict_eq_str ty "HISTORY" then history_branch data
  else
    all3 ← has_all_three data;
    if truthy all3 then structured_branch data
    else
      ty' ← get data "type";
      if strict_eq_str ty' "log" then log_branch data
      else
        ms ← get data "message";
        if truthy ms then fallback_branch data else mret tt.

(** [ws.onmessage].  [parsed] is what [JSON.parse(event.data)] gives:
    [None] when it raises. *)
Definition onmessage (parsed : option value) : App -> App :=
  try_catch (data ← match parsed with
                    | Some d => mret d
                    | None => throw
                    end;
             classify data).

(** [clearLogs]. *)
Definition clearLogs (a : App) : App :=
  set_logCounterRef 0 (set_logs (fun _ => []) a).
End Component.

Definition empty_app : App :=
  mkApp [] false "Disconnecting..." "ALL" None None 0 false [] ∅ 1 0 0.

(** ** The derived view: [filteredLogs] and [logLevels] *)

Global Instance Result_ret : MRet Result := fun A x => Ok x.
Global Instance Result_bind : MBind Result := fun A B f r =>
  match r with
  | Ok x => f x
  | Throw => Throw
  end.

(** [log.level?.toUpperCase()]: [None] stands for [undefined]; a level
    that is neither nullish nor a string has no such method, and the
    call raises. *)
Definition level_upper (log : LogRecord) : Result (option string) :=
  match level log with
  | VUndefined | VNull => Ok None
  | VStr s => Ok (Some (toUpperCase s))
  | VBool _ | VNum _ | VArr _ | VObj _ => Throw
  end.

(** [array.filter(cb)] and [array.map(cb)] with a callback that may
    raise. *)
Fixpoint filter_cb {A : Type} (cb : A -> Result bool) (l : list A) : Result (list A) :=
  match l with
  | [] => Ok []
  | x :: rest =>
      keep ← cb x;
      kept ← filter_cb cb rest;
      mret (if keep : bool then x :: kept else kept)
  end.

Fixpoint map_cb {A B : Type} (cb : A -> Result B) (l : list A) : Result (list B) :=
  match l with
  | [] => Ok []
  | x :: rest =>
      y ← cb x;
      ys ← map_cb cb rest;
      mret (y :: ys)
  end.

(** [u === filterLevel] where [u] is [undefined] or a string. *)
Definition same_level (u : option string) (filterLevel : string) : bool :=
  match u with
  | Some s => String.eqb s filterLevel
  | None => false
  end.

Definition filteredLogs (logs : list LogRecord) (filterLevel : string)
  : Result (list LogRecord) :=
  if String.eqb filterLevel "ALL" then Ok logs
  else filter_cb (fun log => u ← level_upper log; mret (same_level u filterLevel)) logs.

(** [.filter(Boolean)] over values that are [undefined] or strings keeps
    the non-empty strings. *)
Definition filter_Boolean (l : list (option string)) : list string :=
  omap (fun u => match u with
                 | Some s => if String.eqb s "" then None else Some s
                 | None => None
                 end) l.

(** A [Set] keeps its members in insertion order; adding a member it
    already has changes nothing. *)
Definition Set_add (members : list string) (x : string) : list string :=
  if existsb (String.eqb x) members then members else (members ++ [x])%list.

Definition new_Set (l : list string) : list string := fold_left Set_add l [].

Definition logLevels (logs : list LogRecord) : Result (list string) :=
  ups ← map_cb level_upper logs;
  mret ("ALL" :: new_Set (filter_Boolean ups)).

(** The distinct members of a list in the order in which a front to
    back scan first meets them (the wording of the specification). *)
Fixpoint first_seen (l : list string) : list string :=
  match l with
  | [] => []
  | x :: rest => x :: filter (fun y => y <> x) (first_seen rest)
  end.

(** ** Connection lifecycle *)

(** [ws.close()] of the WebSocket interface: a socket that is connecting
    or open starts closing; otherwise nothing happens.  The close event
    comes later, on its own. *)
Definition closing (ws : nat) (ss : list ReadyState) : list ReadyState :=
  match ss !! ws with
  | Some CONNECTING | Some OPEN => <[ws := CLOSING]> ss
  | _ => ss
  end.

Definition close_socket (ws : nat) (a : App) : App := set_sockets (closing ws) a.

(** [new WebSocket(url)]: a fresh socket, connecting. *)
Definition new_WebSocket (a : App) : nat * App :=
  (length (sockets a), set_sockets (fun ss => (ss ++ [CONNECTING])%list) a).

(** [setTimeout(cb, delay)]: a fresh non-zero handle, due [delay]
    milliseconds from now. *)
Definition setTimeout (delay : Z) (a : App) : nat * App :=
  (nextTimer a,
   set_nextTimer (S (nextTimer a))
     (set_timers (fun ts => <[nextTimer a := clock_ms a + delay]> ts) a)).

Definition clearTimeout (t : nat) (a : App) : App :=
  set_timers (fun ts => delete t ts) a.

(** Truthiness of a ref that holds [null] or a timer handle. *)
Definition handle_truthy (r : option nat) : bool :=
  match r with
  | Some (S _) => true
  | _ => false
  end.

Definition connectWebSocket (a : App) : App :=
  let a1 := match wsRef a with
            | Some ws => close_socket ws a
            | None => a
            end in
  if isCleanedUp a1 then a1
  else
    let (ws, a2) := new_WebSocket a1 in
    set_wsRef (Some ws) a2.

Definition onopen (a : App) : App :=
  set_connectionStatus "Connected" (set_isConnected true a).

Definition onerror (a : App) : App :=
  set_connectionStatus "Error" a.

Definition onclose (a : App) : App :=
  let a1 := set_connectionStatus "Disconnected" (set_isConnected false a) in
  if negb (isCleanedUp a1) then
    let (t, a2) := setTimeout 3000 a1 in
    set_reconnectTimeoutRef (Some t) a2
  else a1.

(** The function handed to [setTimeout]. *)
Definition reconnect (a : App) : App :=
  connectWebSocket (set_connectionStatus "Reconnecting..." a).

(** The function the effect returns. *)
Definition cleanup (a : App) : App :=
  let a1 := set_isCleanedUp true a in
  let a2 := if handle_truthy (reconnectTimeoutRef a1) then
              match reconnectTimeoutRef a1 with
              | Some t => clearTimeout t a1
              | None => a1
              end
            else a1 in
  match wsRef a2 with
  | Some ws => set_wsRef None (close_socket ws a2)
  | None => a2
  end.

(** What can happen to a mounted component: the four socket events, time
    passing, a due timer firing, the unmount, the two user actions and,
    to cover any caller, a bare connect request. *)
Inductive Event : Type :=
| EvOpen (ws : nat)
| EvMessage (ws : nat) (parsed : option value)
| EvError (ws : nat)
| EvClose (ws : nat)
| EvElapse (ms : Z)
| EvTimer (t : nat)
| EvUnmount
| EvClearLogs
| EvSetFilter (token : string)
| EvConnect.

Section Machine.
Context (host : Host).

(** One event; [None] when the browser cannot deliver it in this
    state (an open event on a socket that is not connecting, a timer
    that is not due, ...).  A socket event first moves the socket's
    ready state, then runs the handler; a timer that fires is no longer
    pending when its callback runs. *)
Definition step (e : Event) (a : App) : option App :=
  match e with
  | EvOpen ws =>
      match sockets a !! ws with
      | Some CONNECTING => Some (onopen (set_sockets (fun ss => <[ws := OPEN]> ss) a))
      | _ => None
      end
  | EvMessage ws parsed =>
      match sockets a !! ws with
      | Some OPEN => Some (onmessage host parsed a)
      | _ => None
      end
  | EvError ws =>
      match sockets a !! ws with
      | Some CONNECTING | Some OPEN | Some CLOSING => Some (onerror a)
      | _ => None
      end
  | EvClose ws =>
      match sockets a !! ws with
      | Some CONNECTING | Some OPEN | Some CLOSING =>
          Some (onclose (set_sockets (fun ss => <[ws := CLOSED]> ss) a))
      | _ => None
      end
  | EvElapse ms =>
      if (0 <=? ms)%Z then Some (set_clock_ms (clock_ms a + ms) a) else None
  | EvTimer t =>
      match timers a !! t with
      | Some due =>
          if (due <=? clock_ms a)%Z then Some (reconnect (clearTimeout t a)) else None
      | None => None
      end
  | EvUnmount => Some (cleanup a)
  | EvClearLogs => Some (clearLogs a)
  | EvSetFilter token => Some (set_filterLevel token a)
  | EvConnect => Some (connectWebSocket a)
  end.

Fixpoint run (es : list Event) (a : App) : option App :=
  match es with
  | [] => Some a
  | e :: rest =>
      match step e a with
      | Some a' => run rest a'
      | None => None
      end
  end.

(** The component right after mounting: the effect has called
    [connectWebSocket()] once.  The state describes one run of the
    effect: [isCleanedUp] is that run's flag, and every socket and timer
    of the state was made by that run.  A second run of the effect after
    the first one's cleanup (the double run of development StrictMode
    that the comment at [connectWebSocket] names) has a flag of its own,
    while handlers of the first run keep theirs; [Effects] below tells
    the runs apart. *)
Definition mounted : App := connectWebSocket empty_app.
End Machine.

(** Connect requests the component itself makes come from the mount and
    from timers only; [EvConnect] is a request from elsewhere. *)
Definition own_event (e : Event) : bool :=
  match e with
  | EvConnect => false
  | _ => true
  end.

(** A transport counts as open while it is connecting or open. *)
Definition open_transport (a : App) (ws : nat) : Prop :=
  sockets a !! ws = Some CONNECTING \/ sockets a !! ws = Some OPEN.

(** ** Sample host and frames *)

Definition demo_host : Host :=
  mkHost (fun _ => "12:00:01") (fun _ => 5) (fun _ => "0.5") (fun _ => "{}").

(** [{"type":"HISTORY","data":"a\nb\n\nc"}] *)
Definition frame_history : option value :=
  Some (VObj [("type", VStr "HISTORY");
              ("data", VStr (String "a" (String nl (String "b" (String nl (String nl "c"))))))]).

(** [{"timestamp":"12:00:00","level":"ERROR","message":"boom"}] *)
Definition frame_boom : option value :=
  Some (VObj [("timestamp", VStr "12:00:00"); ("level", VStr "ERROR");
              ("message", VStr "boom")]).

(** [{"type":"log","message":"hi"}] *)
Definition frame_hi : option value :=
  Some (VObj [("type", VStr "log"); ("message", VStr "hi")]).

(** ** Vocabulary of the statements *)

(** [a'] differs from [a] at most in the store ([logs],
    [logCounterRef]) and in the number of host calls. *)
Definition store_update (a a' : App) : Prop :=
  a' = mkApp (logs a') (isConnected a) (connectionStatus a) (filterLevel a)
             (wsRef a) (reconnectTimeoutRef a) (logCounterRef a') (isCleanedUp a)
             (sockets a) (timers a) (nextTimer a) (clock_ms a) (hostCalls a').

Definition store_only {A : Type} (m : M A) : Prop :=
  forall a, store_update a (snd (m a)).

(** [m] started in [a] returns, and its value and final state satisfy
    [P]. *)
Definition returns {A : Type} (m : M A) (a : App) (P : A -> App -> Prop) : Prop :=
  exists x a', m a = (Ok x, a') /\ P x a'.

(** [v == null]: [null] or [undefined]. *)
Definition is_nullish (v : value) : bool :=
  match v with
  | VUndefined | VNull => true
  | _ => false
  end.

(** Same store: a host call moves neither the records nor the counter. *)
Definition same_store (a a' : App) : Prop :=
  logs a' = logs a /\ logCounterRef a' = logCounterRef a.

(** A payload with [N] usable entries: an array of [N] entries none of
    which is [null], or a string with [N] non-blank lines. *)
Definition well_formed_batch (payload : value) (N : nat) : Prop :=
  match payload with
  | VArr items => Forall (fun e => is_nullish e = false) items /\ N = length items
  | VStr s => N = length (List.filter nonblank (split nl s))
  | _ => False
  end.

(** [data.type === 'HISTORY'] for the outcome of [JSON.parse]. *)
Definition is_history (parsed : option value) : bool :=
  match parsed with
  | Some data =>
      match prop data "type" with
      | Ok ty => strict_eq_str ty "HISTORY"
      | Throw => false
      end
  | None => false
  end.

(** One record was appended, numbered with the incremented counter. *)
Definition appended (a a' : App) : Prop :=
  exists r, logs a' = (logs a ++ [r])%list /\
            lineNumber r = logCounterRef a + 1 /\
            isHistory r = false /\
            logCounterRef a' = logCounterRef a + 1.

(** Frames handed to [ws.onmessage] one after the other. *)
Definition feed (host : Host) (frames : list (option value)) (a : App) : App :=
  fold_left (fun acc parsed => onmessage host parsed acc) frames a.

(** The text of a level that is a string. *)
Definition level_text (r : LogRecord) : string :=
  match level r with
  | VStr s => s
  | _ => ""
  end.

Definition has_string_level (r : LogRecord) : Prop :=
  exists s, level r = VStr s.

(** The display list as the specification words it: the whole store for
    ALL, otherwise the records whose level, upper-cased, equals the
    token, upper-cased. *)
Definition claimed_display (logs : list LogRecord) (token : string) : list LogRecord :=
  if String.eqb token "ALL" then logs
  else filter (fun r => toUpperCase (level_text r) = toUpperCase token) logs.

(** The upper-cased levels [logLevels] collects: the non-empty ones. *)
Definition seen_levels (logs : list LogRecord) : list string :=
  filter (fun s : string => s <> "") ((fun r => toUpperCase (level_text r)) <$> logs).

(** Only the socket the ref points to can be open. *)
Definition one_open (a : App) : Prop :=
  forall ws, open_transport a ws -> wsRef a = Some ws.

(** What holds of the flag, the timer ref, the sockets, the pending
    timers and the next handle while the component only reacts to its
    own events: after teardown nothing is pending; a pending timer is
    the one the ref holds, and then every socket has had its close
    event; at most one socket still awaits its close event. *)
Record conn_inv (cleaned : bool) (ref : option nat) (ss : list ReadyState)
    (tm : gmap nat Z) (nt : nat) : Prop := mkConnInv {
  inv_cleaned : cleaned = true -> tm = ∅;
  inv_timer_ref : forall t due, tm !! t = Some due -> ref = Some t /\ t <> 0%nat;
  inv_timer_closed : forall t due ws st,
    tm !! t = Some due -> ss !! ws = Some st -> st = CLOSED;
  inv_one_live : forall i j si sj,
    ss !! i = Some si -> si <> CLOSED -> ss !! j = Some sj -> sj <> CLOSED -> i = j;
  inv_next : nt <> 0%nat
}.

Definition lifecycle_inv (a : App) : Prop :=
  conn_inv (isCleanedUp a) (reconnectTimeoutRef a) (sockets a) (timers a) (nextTimer a).

(** Every socket that still awaits its close event in [ss'] did so in
    [ss]. *)
Definition no_new_live (ss ss' : list ReadyState) : Prop :=
  forall i st', ss' !! i = Some st' -> st' <> CLOSED ->
  exists st, ss !! i = Some st /\ st <> CLOSED.

(** ** Further sample frames and runs *)

(** [{"type":"log","level":"info","message":"x"}] *)
Definition frame_info : option value :=
  Some (VObj [("type", VStr "log"); ("level", VStr "info"); ("message", VStr "x")]).

(** [{"type":"log","level":"all","message":"x"}] *)
Definition frame_all : option value :=
  Some (VObj [("type", VStr "log"); ("level", VStr "all"); ("message", VStr "x")]).

(** Two connect requests in a row, the second socket opening, the first
    one's close event, and a third connect request. *)
Definition connect_thrice : list Event :=
  [EvConnect; EvConnect; EvOpen 1; EvClose 0; EvConnect].

Definition connect_thrice_end : App :=
  Eval vm_compute in default empty_app (run demo_host connect_thrice empty_app).

(** The first socket's close event, then one second passes: a timer is
    pending, due two seconds later. *)
Definition closed_once : list Event := [EvClose 0; EvElapse 1000].

Definition closed_once_end : App :=
  Eval vm_compute in default empty_app (run demo_host closed_once mounted).

(** After teardown: time passes beyond the delay, then a connect request
    from elsewhere. *)
Definition after_teardown : list Event := [EvElapse 5000; EvConnect; EvElapse 1].

Definition after_teardown_end : App :=
  Eval vm_compute in
    default empty_app (run demo_host after_teardown (cleanup closed_once_end)).

(** ** What the component puts on the screen *)

(** [v?.toUpperCase()]: [None] stands for [undefined]. *)
Definition optional_toUpperCase (v : value) : Result (option string) :=
  match v with
  | VUndefined | VNull => Ok None
  | VStr s => Ok (Some (toUpperCase s))
  | VBool _ | VNum _ | VArr _ | VObj _ => Throw
  end.

(** [getLevelColor]: the [switch] compares with [===]. *)
Definition getLevelColor (level : value) : Result string :=
  u ← optional_toUpperCase level;
  mret (match u with
        | Some s =>
            if String.eqb s "INFO" then "#00d9ff"
            else if String.eqb s "ERROR" then "#ff4444"
            else if String.eqb s "WARN" then "#ffaa00"
            else if String.eqb s "WARNING" then "#ffaa00"
            else if String.eqb s "DEBUG" then "#9d4edd"
            else if String.eqb s "SUCCESS" then "#00ff00"
            else "#888888"
        | None => "#888888"
        end).

(** One entry of the list: what the [div] of a record shows. *)
Record Row : Type := mkRow {
  row_key : string;            (* key={log.id} *)
  row_history : bool;          (* the log-history class and the History badge *)
  row_color : string;          (* getLevelColor(log.level) *)
  row_lineNumber : Z;
  row_timestamp : value;
  row_level : value;
  row_message : value
}.

(** [{v}] as a child of an element.  React shows strings and numbers,
    skips booleans, [null] and [undefined], takes an array child by
    child, and raises on any other object ("Objects are not valid as a
    React child"); a decoded frame holds no React elements. *)
Fixpoint valid_child (v : value) : bool :=
  match v with
  | VObj _ => false
  | VArr items => forallb valid_child items
  | _ => true
  end.

(** The children of one entry: [{log.timestamp}], [{log.level}] and
    [{log.message}]; the line number is a number. *)
Definition row_children (log : LogRecord) : bool :=
  valid_child (timestamp log) && valid_child (level log) && valid_child (message log).

(** One entry of the list raises when the colour cannot be computed or
    when one of its children cannot be shown. *)
Definition render_row (log : LogRecord) : Result Row :=
  color ← getLevelColor (level log);
  if row_children log then
    mret (mkRow (id log) (isHistory log) color (lineNumber log) (timestamp log)
                (level log) (message log))
  else Throw.

(** The [main] element: the two paragraphs of the placeholder, or the
    rows. *)
Inductive Body : Type :=
| NoLogs (text hint : string)
| LogsList (rows : list Row).

(** What a render shows, in the order the function body computes it:
    [filteredLogs], [logLevels], then the elements.  [Throw] stands for
    a render that fails, in the function body or when React takes the
    children of the elements it returned. *)
Record Screen : Type := mkScreen {
  indicator_connected : bool;   (* class of the status indicator *)
  status_text : string;
  filter_options : list string;
  filter_value : string;
  body : Body;
  total_logs : nat;             (* Total Logs: {logs.length} *)
  displayed_logs : nat          (* Displayed: {filteredLogs.length} *)
}.

Definition render (a : App) : Result Screen :=
  shown ← filteredLogs (logs a) (filterLevel a);
  menu ← logLevels (logs a);
  main ← (if (length shown =? 0)%nat then
            mret (NoLogs
                    (if (length (logs a) =? 0)%nat then "Waiting for logs..."
                     else "No " ++ filterLevel a ++ " logs found")
                    (if (length (logs a) =? 0)%nat
                     then "Logs will appear here in real-time"
                     else "Try changing the filter"))
          else rows ← map_cb render_row shown; mret (LogsList rows));
  mret (mkScreen (isConnected a) (connectionStatus a) menu (filterLevel a) main
                 (length (logs a)) (length shown)).

(** ** What the user can pick *)

(** Whether the select offers [token]: the render that draws the select
    has returned, and [token] is one of its options. *)
Definition offered (a : App) (token : string) : bool :=
  match render a with
  | Ok screen => existsb (String.eqb token) (filter_options screen)
  | Throw => false
  end.

(** A user can only pick what the select offers. *)
Definition deliverable (e : Event) (a : App) : bool :=
  match e with
  | EvSetFilter token => offered a token
  | _ => true
  end.

(** Runs in which every filter change picks an option of the select as
    drawn at that moment. *)
Fixpoint ui_run (host : Host) (es : list Event) (a : App) : option App :=
  match es with
  | [] => Some a
  | e :: rest =>
      if deliverable e a then
        match step host e a with
        | Some a' => ui_run host rest a'
        | None => None
        end
      else None
  end.

(** ** Closed forms used in the statements *)

(** [v.k] when [v] is known not to be [null] or [undefined]. *)
Definition peek (v : value) (k : string) : value :=
  match prop v k with
  | Ok w => w
  | Throw => VUndefined
  end.

(** Whether a frame that is not a history batch appends a record. *)
Definition appends_record (data : value) : bool :=
  strict_eq_str (peek data "type") "log" || truthy (peek data "message").

(** The record a frame that is not a history batch appends, when the
    host has answered [calls] calls and the counter stands at
    [counter]. *)
Definition live_record (host : Host) (data : value) (calls : nat) (counter : Z)
  : LogRecord :=
  mkLog ("log-" ++ pretty (Date_now host calls) ++ "-" ++ Math_random host (S calls))
        (counter + 1)
        (if truthy (peek data "timestamp") then peek data "timestamp"
         else VStr (toLocaleTimeString host (S (S calls))))
        (js_or (peek data "level") (VStr "INFO"))
        (js_or (peek data "message") (VStr (JSON_stringify host data)))
        (if is_defined (peek data "isStructured") then peek data "isStructured"
         else VBool true)
        false.

(** Host calls a frame that is not a history batch makes. *)
Definition live_calls (data : value) : nat :=
  if truthy (peek data "timestamp") then 2%nat else 3%nat.

(** The record made of one entry of a history batch. *)
Definition history_record (host : Host) (log : value) (index calls : nat) (counter : Z)
  : LogRecord :=
  mkLog ("history-" ++ pretty (Date_now host calls) ++ "-" ++ pretty index)
        (counter + 1)
        (if truthy (peek log "timestamp") then peek log "timestamp"
         else VStr (toLocaleTimeString host (S calls)))
        (js_or (peek log "level") (VStr "INFO"))
        (js_or (peek log "message") log)
        (if is_defined (peek log "isStructured") then peek log "isStructured"
         else VBool true)
        true.


(** Line numbers in the store: positive, at most the counter, strictly
    increasing from front to back. *)
Definition well_numbered (a : App) : Prop :=
  0 <= logCounterRef a /\
  (forall i r, logs a !! i = Some r -> 0 < lineNumber r <= logCounterRef a) /\
  (forall i j ri rj, (i < j)%nat -> logs a !! i = Some ri -> logs a !! j = Some rj ->
                     lineNumber ri < lineNumber rj).

(** Timers that fired in a trace. *)
Definition fired_timers (es : list Event) : nat :=
  length (List.filter (fun e => match e with EvTimer _ => true | _ => false end) es).

(** Events that can reach the store. *)
Definition store_event (e : Event) : bool :=
  match e with
  | EvMessage _ _ | EvClearLogs => true
  | _ => false
  end.

(** What a history frame can do to the store: leave it (the callback
    raised) or replace it by records numbered from the old counter on,
    each with a truthy level and the history flag; the counter never
    goes down. *)
Definition batch_outcome (a a' : App) : Prop :=
  logCounterRef a <= logCounterRef a' /\
  (logs a' = logs a \/
   (lineNumber <$> logs a' =
      seqZ (logCounterRef a + 1) (logCounterRef a' - logCounterRef a) /\
    Forall (fun r => truthy (level r) = true /\ isHistory r = true) (logs a'))).

(** The record [r] carries entry [x] of a history batch with the
    defaults filled in. *)
Definition made_from (x : value) (r : LogRecord) : Prop :=
  level r = js_or (peek x "level") (VStr "INFO") /\
  message r = js_or (peek x "message") x /\
  isStructured r = (if is_defined (peek x "isStructured")
                    then peek x "isStructured" else VBool true) /\
  (truthy (peek x "timestamp") = true -> timestamp r = peek x "timestamp") /\
  isHistory r = true.

(** Every record of the store has a truthy level. *)
Definition levels_truthy (a : App) : Prop :=
  Forall (fun r => truthy (level r) = true) (logs a).

(** ** A sample session *)

(** [{"type":"HISTORY","data":["x",null,"y"]}] *)
Definition frame_null_entry : option value :=
  Some (VObj [("type", VStr "HISTORY"); ("data", VArr [VStr "x"; VNull; VStr "y"])]).

(** Mount, the socket opens, a history batch, a batch with a [null]
    entry, two live frames, a frame that does not decode. *)
Definition session : list Event :=
  [EvConnect; EvOpen 0; EvMessage 0 frame_history; EvMessage 0 frame_null_entry;
   EvMessage 0 frame_boom; EvMessage 0 frame_info; EvMessage 0 None].

Definition session_end : App :=
  Eval vm_compute in default empty_app (run demo_host session empty_app).

(** The text [" a\n \nb"] and the history frame that carries it. *)
Definition indented_text : string :=
  String " " (String "a" (String nl (String " " (String nl "b")))).

Definition frame_indented : value :=
  VObj [("type", VStr "HISTORY"); ("data", VStr indented_text)].


(** [{"type":"log","level":5,"message":"x"}] *)
Definition frame_numeric : option value :=
  Some (VObj [("type", VStr "log"); ("level", VNum 5); ("message", VStr "x")]).

(** [{"type":"HISTORY","data":[{"level":"WARN"}]}] *)
Definition frame_bare_entry : option value :=
  Some (VObj [("type", VStr "HISTORY"); ("data", VArr [VObj [("level", VStr "WARN")]])]).

(** Mount, the socket opens, an ERROR frame, the user picks ERROR in the
    select, then a frame whose level is a number arrives. *)
Definition pick_then_numeric : list Event :=
  [EvConnect; EvOpen 0; EvMessage 0 frame_boom; EvSetFilter "ERROR";
   EvMessage 0 frame_numeric].

Definition pick_then_numeric_end : App :=
  Eval vm_compute in default empty_app (ui_run demo_host pick_then_numeric empty_app).

(** Mount, the socket opens, a history batch, an ERROR frame, the user
    picks ERROR, a live frame of level "info". *)
Definition pick_error : list Event :=
  [EvConnect; EvOpen 0; EvMessage 0 frame_history; EvMessage 0 frame_boom;
   EvSetFilter "ERROR"; EvMessage 0 frame_info].

Definition pick_error_end : App :=
  Eval vm_compute in default empty_app (ui_run demo_host pick_error empty_app).

(** Values [v?.toUpperCase()] does not raise on: nullish ones and
    strings. *)
Definition upper_casable (v : value) : bool :=
  match v with
  | VUndefined | VNull | VStr _ => true
  | VBool _ | VNum _ | VArr _ | VObj _ => false
  end.

(** The level names [getLevelColor] knows, and its colours. *)
Definition known_levels : list string :=
  ["INFO"; "ERROR"; "WARN"; "WARNING"; "DEBUG"; "SUCCESS"].

Definition palette : list string :=
  ["#00d9ff"; "#ff4444"; "#ffaa00"; "#9d4edd"; "#00ff00"; "#888888"].

(** The sample session's screen once the filter is set to "WARN". *)
Definition warn_screen : Screen :=
  Eval vm_compute in
    match render (set_filterLevel "WARN" session_end) with
    | Ok scr => scr
    | Throw => mkScreen false "" [] "" (LogsList []) 0 0
    end.

(** While a socket is open the indicator is on and the status reads
    "Connected" (or "Error" after an error signal). *)
Definition status_inv (a : App) : Prop :=
  forall ws, sockets a !! ws = Some OPEN ->
  isConnected a = true /\
  (connectionStatus a = "Connected" \/ connectionStatus a = "Error").

(** The server drops the connection twice; each time the timer fires
    when due and the new socket opens. *)
Definition two_reconnects : list Event :=
  [EvOpen 0; EvClose 0; EvElapse 3000; EvTimer 1; EvOpen 1; EvError 1;
   EvClose 1; EvElapse 4000; EvTimer 2; EvOpen 2].

Definition two_reconnects_end : App :=
  Eval vm_compute in default empty_app (run demo_host two_reconnects mounted).

(** ** Runs of the effect

    Outside development the effect runs once, and the machine above is
    the whole story.  Under StrictMode React runs the effect, its
    cleanup, and the effect again.  Every run of the effect has an
    [isCleanedUp] of its own, which the handlers it made keep reading;
    the refs and the React state are shared.  React runs the effect
    again only after the cleanup of the run before, so the flag of
    every earlier run is set. *)

(** The state with the runs told apart: [isCleanedUp (app m)] is the
    flag of the latest run; the sockets below [old_sockets] and the
    timer handles below [old_timers] were made by earlier runs. *)
Record Effects : Type := mkEffects {
  app : App;
  old_sockets : nat;
  old_timers : nat
}.

Inductive EffectEvent : Type :=
| Ev (e : Event)      (* an event of the machine above *)
| EvRerun.            (* React runs the effect again *)

(** Whether the handler an event calls was made by an earlier run. *)
Definition of_earlier_run (e : Event) (m : Effects) : bool :=
  match e with
  | EvOpen ws | EvMessage ws _ | EvError ws | EvClose ws => (ws <? old_sockets m)%nat
  | EvTimer t => (t <? old_timers m)%nat
  | _ => false
  end.

(** A handler of an earlier run sees that run's flag, which is set, and
    the shared state otherwise. *)
Definition stale_step (host : Host) (e : Event) (a : App) : option App :=
  set_isCleanedUp (isCleanedUp a) <$> step host e (set_isCleanedUp true a).

(** The effect body: a fresh flag, then [connectWebSocket()]. *)
Definition rerun (m : Effects) : Effects :=
  mkEffects (connectWebSocket (set_isCleanedUp false (app m)))
            (length (sockets (app m))) (nextTimer (app m)).

Definition effect_step (host : Host) (e : EffectEvent) (m : Effects) : option Effects :=
  match e with
  | Ev e =>
      (fun a => mkEffects a (old_sockets m) (old_timers m)) <$>
      (if of_earlier_run e m then stale_step host e (app m) else step host e (app m))
  | EvRerun => if isCleanedUp (app m) then Some (rerun m) else None
  end.

Fixpoint effect_run (host : Host) (es : list EffectEvent) (m : Effects) : option Effects :=
  match es with
  | [] => Some m
  | e :: rest =>
      match effect_step host e m with
      | Some m' => effect_run host rest m'
      | None => None
      end
  end.

(** The first run of the effect. *)
Definition first_run : Effects := mkEffects mounted 0 0.

(** What holds across runs of the effect: only the socket the ref
    points to can be open, a torn-down run leaves the ref empty, and no
    socket of an earlier run is open. *)
Definition runs_inv (m : Effects) : Prop :=
  one_open (app m) /\
  (isCleanedUp (app m) = true -> wsRef (app m) = None) /\
  (old_sockets m <= length (sockets (app m)))%nat /\
  (forall ws, (ws < old_sockets m)%nat -> ~ open_transport (app m) ws).

(** Events the component itself gives rise to, re-runs of the effect
    included; a bare connect request from elsewhere is not one. *)
Definition own_effect_event (e : EffectEvent) : bool :=
  match e with
  | Ev e => own_event e
  | EvRerun => true
  end.

(** The events at which a socket is constructed: a reconnect timer
    fires, or the effect runs again. *)
Definition constructs (e : EffectEvent) : bool :=
  match e with
  | Ev (EvTimer _) | EvRerun => true
  | _ => false
  end.

(** How often the effect was run again, and how many timers fired. *)
Definition effect_reruns (es : list EffectEvent) : nat :=
  length (List.filter (fun e => match e with EvRerun => true | _ => false end) es).

Definition timers_fired (es : list EffectEvent) : nat :=
  length (List.filter (fun e => match e with Ev (EvTimer _) => true | _ => false end) es).

Definition not_rerun (e : EffectEvent) : bool :=
  match e with
  | EvRerun => false
  | Ev _ => true
  end.

(** The events of a trace without the re-runs. *)
Definition machine_events (es : list EffectEvent) : list Event :=
  omap (fun e => match e with Ev e => Some e | EvRerun => None end) es.

(** The lifecycle invariant of the latest run, on its own sockets: the
    socket ref points to one of them, and every pending timer is one
    of its timers. *)
Definition runs_lifecycle (m : Effects) : Prop :=
  conn_inv (isCleanedUp (app m)) (reconnectTimeoutRef (app m))
           (drop (old_sockets m) (sockets (app m))) (timers (app m))
           (nextTimer (app m)) /\
  (forall w, wsRef (app m) = Some w -> (old_sockets m <= w)%nat) /\
  (old_timers m <= nextTimer (app m))%nat /\
  (forall t due, timers (app m) !! t = Some due -> (old_timers m <= t)%nat).

(** The double run, then the server drops both sockets, the reconnect
    timer of the second run fires and the third socket opens. *)
Definition strict_reconnect : list EffectEvent :=
  [Ev EvUnmount; EvRerun; Ev (EvOpen 1); Ev (EvClose 0); Ev (EvClose 1);
   Ev (EvElapse 3000); Ev (EvTimer 1); Ev (EvOpen 2)].

Definition strict_reconnect_end : Effects :=
  Eval vm_compute in default first_run (effect_run demo_host strict_reconnect first_run).

(** Teardown of the second run while its socket is closed and its
    timer pending; then time passes and a late error signal arrives. *)
Definition strict_torn_down : list EffectEvent :=
  [Ev EvUnmount; EvRerun; Ev (EvClose 1); Ev EvUnmount].

Definition strict_torn_down_end : Effects :=
  Eval vm_compute in default first_run (effect_run demo_host strict_torn_down first_run).

Definition after_strict_teardown : list EffectEvent :=
  [Ev (EvElapse 5000); Ev (EvClose 0); Ev (EvElapse 1)].

Definition after_strict_teardown_end : Effects :=
  Eval vm_compute in
    default first_run (effect_run demo_host after_strict_teardown strict_torn_down_end).

(** The double run of StrictMode: cleanup of the first run, the second
    run, the second socket opens. *)
Definition strict_mode : list EffectEvent := [Ev EvUnmount; EvRerun; Ev (EvOpen 1)].

Definition strict_mode_end : Effects :=
  Eval vm_compute in default first_run (effect_run demo_host strict_mode first_run).

(** Then the close event of the first run's socket arrives. *)
Definition strict_mode_closed : Effects :=
  Eval vm_compute in
    default first_run (effect_step demo_host (Ev (EvClose 0)) strict_mode_end).

(** ** The first variant of the component

    The same file holds an earlier [App]: records have no line number
    and no level, there is no filter, and a frame the [try] block
    cannot handle is shown as it came.  Its connection code is the one
    modelled above, word for word; only the message handler and
    [clearLogs] differ. *)

Module Plain.

(** The [id] of a record: the template string of a history record, or
    the number [Date.now() + Math.random()] of a live one, kept as its
    two summands. *)
Inductive LogId : Type :=
| HistoryId (text : string)
| LiveId (now : Z) (random : string).

Record LogRecord : Type := mkLog {
  id : LogId;
  message : value;
  timestamp : string;
  isHistory : bool
}.

(** The [logs] state and the number of host calls made so far. *)
Record Store : Type := mkStore {
  logs : list LogRecord;
  hostCalls : nat
}.

Definition P (A : Type) : Type := Store -> Result A * Store.

Global Instance P_ret : MRet P := fun A x s => (Ok x, s).
Global Instance P_bind : MBind P := fun A B f m s =>
  match m s with
  | (Ok x, s') => f x s'
  | (Throw, s') => (Throw, s')
  end.

Definition throw {A : Type} : P A := fun s => (Throw, s).

Definition get (v : value) (k : string) : P value := fun s => (prop v k, s).

Definition host_call {A : Type} (answer : nat -> A) : P A :=
  fun s => (Ok (answer (hostCalls s)), mkStore (logs s) (S (hostCalls s))).

Definition setLogs (f : list LogRecord -> list LogRecord) : P unit :=
  fun s => (Ok tt, mkStore (f (logs s)) (hostCalls s)).

(** [v.split('\n')]: only a string has the method; on anything else the
    call raises. *)
Definition call_split (v : value) : P (list string) :=
  fun s => (match v with
            | VStr text => Ok (split nl text)
            | _ => Throw
            end, s).

(** [a && b] where [b] is read only when [a] holds. *)
Definition and_then (a : bool) (b : P value) : P value :=
  if a then b else mret (VBool false).

Fixpoint map_index {A B : Type} (f : A -> nat -> P B) (l : list A) (index : nat)
  : P (list B) :=
  match l with
  | [] => mret []
  | x :: rest =>
      y ← f x index;
      ys ← map_index f rest (S index);
      mret (y :: ys)
  end.

Section Handler.
Context (host : Host).

(** Callback of the [.map] over the lines of a history batch. *)
Definition history_line (line : string) (index : nat) : P LogRecord :=
  now ← host_call (Date_now host);
  t ← host_call (toLocaleTimeString host);
  mret (mkLog (HistoryId ("history-" ++ pretty now ++ "-" ++ pretty index))
              (VStr line) t true).

(** The object literal of a live record, with [m] as message. *)
Definition live_record (m : value) : P LogRecord :=
  now ← host_call (Date_now host);
  r ← host_call (Math_random host);
  t ← host_call (toLocaleTimeString host);
  mret (mkLog (LiveId now r) m t false).

(** [setLogs(prevLogs => [...prevLogs, { ... message: m ... }])]; the
    updater is run once. *)
Definition append_message (m : value) : P unit :=
  r ← live_record m;
  setLogs (fun prevLogs => (prevLogs ++ [r])%list).

(** The body of the [try] block. *)
Definition try_block (parsed : option value) : P unit :=
  data ← match parsed with
         | Some d => mret d
         | None => throw
         end;
  ty ← get data "type";
  history ← and_then (strict_eq_str ty "HISTORY") (get data "data");
  if truthy history then
    payload ← get data "data";
    pieces ← call_split payload;
    historyLines ← map_index history_line (List.filter nonblank pieces) 0;
    setLogs (fun _ => historyLines)
  else
    ty' ← get data "type";
    live ← and_then (strict_eq_str ty' "log") (get data "message");
    if truthy live then
      m ← get data "message";
      append_message m
    else mret tt.

(** [ws.onmessage]: [raw] is [event.data], [parsed] what
    [JSON.parse(event.data)] gives ([None] when it raises).  Whatever
    the [try] block raises, the [catch] block appends the raw text. *)
Definition onmessage (raw : string) (parsed : option value) (s : Store) : Store :=
  match try_block parsed s with
  | (Ok _, s') => s'
  | (Throw, s') => snd (append_message (VStr raw) s')
  end.

Definition clearLogs (s : Store) : Store := mkStore [] (hostCalls s).
End Handler.

(** What the [catch] block appends in store [s]. *)
Definition raw_record (host : Host) (raw : string) (s : Store) : LogRecord :=
  mkLog (LiveId (Date_now host (hostCalls s)) (Math_random host (S (hostCalls s))))
        (VStr raw) (toLocaleTimeString host (S (S (hostCalls s)))) false.

(** Frames the [try] block raises on: text that does not decode, a
    decoded [null], and a history frame whose [data] is truthy but not
    a string. *)
Definition unreadable (parsed : option value) : bool :=
  match parsed with
  | None => true
  | Some data =>
      is_nullish data
      || (strict_eq_str (peek data "type") "HISTORY"
          && truthy (peek data "data")
          && negb (match peek data "data" with VStr _ => true | _ => false end))
  end.

Definition empty_store : Store := mkStore [] 0.
End Plain.

(** * Properties *)

(** ** The model on small inputs *)

Example split_example :
  split nl (String "a" (String nl (String "b" (String nl (String nl "c")))))
  = ["a"; "b"; ""; "c"].
Proof. reflexivity. Qed.

Example split_empty : split nl "" = [""].
Proof. reflexivity. Qed.

Example trim_example : trim "  a b  " = "a b" /\ nonblank "   " = false.
Proof. split; reflexivity. Qed.

Example toUpperCase_example : toUpperCase "Warn-1" = "WARN-1".
Proof. reflexivity. Qed.

Example new_Set_example : new_Set ["INFO"; "ERROR"; "INFO"; "WARN"; "ERROR"]
                          = ["INFO"; "ERROR"; "WARN"].
Proof. reflexivity. Qed.

(** A [null] entry makes the callback raise after the counter has been
    incremented twice: the store stays, the counter does not. *)
Example null_entry_example :
  let a := onmessage demo_host
             (Some (VObj [("type", VStr "HISTORY");
                          ("data", VArr [VStr "x"; VNull; VStr "y"])])) empty_app in
  logs a = [] /\ logCounterRef a = 2.
Proof. split; reflexivity. Qed.

(** A frame that matches no rule and a frame that does not decode change
    nothing. *)
Example unrecognised_example :
  onmessage demo_host (Some (VObj [("kind", VStr "ping")])) empty_app = empty_app /\
  onmessage demo_host (Some VNull) empty_app = empty_app /\
  onmessage demo_host None empty_app = empty_app.
Proof. repeat split. Qed.

(** A run of the machine: the socket closes, the timer fires when due
    and not before, the new socket opens and delivers a frame. *)
Example run_example :
  run demo_host [EvClose 0; EvElapse 2999; EvTimer 1] mounted = None /\
  (sockets <$> run demo_host [EvClose 0; EvElapse 3000; EvTimer 1; EvOpen 1;
                              EvMessage 1 frame_hi] mounted)
  = Some [CLOSED; OPEN].
Proof. split; vm_compute; reflexivity. Qed.

(** ** What a handler of the [try] block can touch *)

Lemma store_update_refl a : store_update a a.
Proof. destruct a; reflexivity. Qed.

Lemma store_update_trans a b c :
  store_update a b -> store_update b c -> store_update a c.
Proof.
  unfold store_update. intros Hab Hbc. rewrite Hbc. rewrite Hab. reflexivity.
Qed.

Lemma store_only_ret {A : Type} (x : A) : store_only (mret x).
Proof. intros a. apply store_update_refl. Qed.

Lemma store_only_throw {A : Type} : store_only (@throw A).
Proof. intros a. apply store_update_refl. Qed.

Lemma store_only_lift {A : Type} (r : Result A) : store_only (lift r).
Proof. intros a. apply store_update_refl. Qed.

Lemma store_only_read {A : Type} (f : App -> A) : store_only (read f).
Proof. intros a. apply store_update_refl. Qed.

Lemma store_only_bind {A B : Type} (m : M A) (f : A -> M B) :
  store_only m -> (forall x, store_only (f x)) -> store_only (m ≫= f).
Proof.
  intros Hm Hf a. unfold mbind, M_bind. specialize (Hm a).
  destruct (m a) as [[x|] a1]; simpl in *; [|exact Hm].
  eapply store_update_trans; [exact Hm|apply Hf].
Qed.

Lemma store_only_host_call {A : Type} (answer : nat -> A) :
  store_only (host_call answer).
Proof. intros a. destruct a; reflexivity. Qed.

Lemma store_only_incr_counter : store_only incr_counter.
Proof. intros a. destruct a; reflexivity. Qed.

Lemma store_only_set_logs f : store_only (modify (set_logs f)).
Proof. intros a. destruct a; reflexivity. Qed.

Lemma store_only_map_index {A B : Type} (f : A -> nat -> M B) l :
  (forall x i, store_only (f x i)) -> forall i, store_only (map_index f l i).
Proof.
  intros Hf. induction l as [|x l IH]; intros i; simpl.
  - apply store_only_ret.
  - apply store_only_bind; [apply Hf|]. intros y.
    apply store_only_bind; [apply IH|]. intros ys. apply store_only_ret.
Qed.

Create HintDb store_only.
#[export] Hint Resolve store_only_ret store_only_throw store_only_lift
  store_only_read store_only_host_call store_only_incr_counter
  store_only_set_logs : store_only.

(** Walks down a handler written with binds, conditionals and matches. *)
Ltac store_only_tac :=
  repeat first
    [ progress auto with store_only
    | apply store_only_bind; [|intros ?]
    | apply store_only_map_index; intros ? ?
    | match goal with
      | |- store_only (if ?c then _ else _) => destruct c
      | |- store_only (match ?v with _ => _ end) => destruct v
      end ].

Section NormalizerFacts.
Context (host : Host).

Lemma store_only_or_time v : store_only (or_time host v).
Proof. unfold or_time, new_Date_toLocaleTimeString. store_only_tac. Qed.

Lemma store_only_structured_flag v : store_only (structured_flag v).
Proof. unfold structured_flag, get. store_only_tac. Qed.

Lemma store_only_live_id : store_only (live_id host).
Proof. unfold live_id, Date_now_call, Math_random_call. store_only_tac. Qed.

Hint Resolve store_only_or_time store_only_structured_flag store_only_live_id
  : store_only.

Lemma store_only_process_history log index :
  store_only (process_history host log index).
Proof. unfold process_history, Date_now_call, get. store_only_tac. Qed.

Lemma store_only_history_line line index :
  store_only (history_line host line index).
Proof. unfold history_line, new_Date_toLocaleTimeString. store_only_tac. Qed.

Hint Resolve store_only_process_history store_only_history_line : store_only.

Lemma store_only_classify data : store_only (classify host data).
Proof.
  unfold classify, history_branch, has_all_three, structured_branch,
    log_branch, fallback_branch, append_log, get.
  store_only_tac.
Qed.

(** A frame changes nothing but the store and the host-call count. *)
Lemma onmessage_store_update parsed a : store_update a (onmessage host parsed a).
Proof.
  unfold onmessage, try_catch.
  apply (store_only_bind _ _); [destruct parsed; auto with store_only|].
  intros data. apply store_only_classify.
Qed.
End NormalizerFacts.

(** ** Runs that return *)

Lemma returns_ret {A : Type} (x : A) a (P : A -> App -> Prop) :
  P x a -> returns (mret x) a P.
Proof. intros H. exists x, a. split; [reflexivity|exact H]. Qed.

Lemma returns_bind {A B : Type} (m : M A) (f : A -> M B) a (P : B -> App -> Prop) :
  returns m a (fun x a1 => returns (f x) a1 P) -> returns (m ≫= f) a P.
Proof.
  intros (x & a1 & Hm & (y & a2 & Hf & HP)).
  exists y, a2. split; [|exact HP].
  unfold mbind, M_bind. rewrite Hm. exact Hf.
Qed.

Lemma returns_weaken {A : Type} (m : M A) a (P Q : A -> App -> Prop) :
  returns m a P -> (forall x a', P x a' -> Q x a') -> returns m a Q.
Proof. intros (x & a' & Hm & HP) HPQ. exists x, a'. auto. Qed.

Lemma prop_defined v k : is_nullish v = false -> exists w, prop v k = Ok w.
Proof. destruct v; simpl; intros H; try discriminate; eauto. Qed.

Lemma prop_ok_not_nullish v k w : prop v k = Ok w -> is_nullish v = false.
Proof. destruct v; simpl; intros H; try discriminate; reflexivity. Qed.

Lemma same_store_refl a : same_store a a.
Proof. split; reflexivity. Qed.

Lemma same_store_trans a b c : same_store a b -> same_store b c -> same_store a c.
Proof. intros [H1 H2] [H3 H4]. split; congruence. Qed.

Section HistoryFacts.
Context (host : Host).

Lemma returns_get v k a (P : value -> App -> Prop) :
  is_nullish v = false ->
  (forall w, prop v k = Ok w -> P w a) -> returns (get v k) a P.
Proof.
  intros Hv HP. destruct (prop_defined v k Hv) as [w Hw].
  exists w, a. split; [unfold get, lift; rewrite Hw; reflexivity|auto].
Qed.

Lemma returns_host_call {A : Type} (answer : nat -> A) a (P : A -> App -> Prop) :
  (forall x a', same_store a a' -> P x a') -> returns (host_call answer) a P.
Proof.
  intros HP. eexists _, _. split; [reflexivity|].
  apply HP. destruct a; split; reflexivity.
Qed.

Lemma returns_or_time v a (P : value -> App -> Prop) :
  (forall w a', same_store a a' -> truthy v = true -> w = v -> P w a') ->
  (forall t a', same_store a a' -> truthy v = false -> P (VStr t) a') ->
  returns (or_time host v) a P.
Proof.
  intros HP1 HP2. unfold or_time. destruct (truthy v) eqn:Hv.
  - apply returns_ret. apply HP1; auto using same_store_refl.
  - apply returns_bind. apply returns_host_call. intros t a' Ha'.
    apply returns_ret. auto.
Qed.

Lemma returns_structured_flag v a (P : value -> App -> Prop) :
  is_nullish v = false -> (forall w, P w a) -> returns (structured_flag v) a P.
Proof.
  intros Hv HP. unfold structured_flag.
  apply returns_bind, returns_get; [exact Hv|]. intros w _.
  destruct (is_defined w).
  - apply returns_get; [exact Hv|]. auto.
  - apply returns_ret. auto.
Qed.

Lemma returns_incr_counter a (P : unit -> App -> Prop) :
  P tt (set_logCounterRef (logCounterRef a + 1) a) -> returns incr_counter a P.
Proof. intros HP. eexists _, _. split; [reflexivity|exact HP]. Qed.

Lemma returns_read {A : Type} (f : App -> A) a (P : A -> App -> Prop) :
  P (f a) a -> returns (read f) a P.
Proof. intros HP. exists (f a), a. split; [reflexivity|exact HP]. Qed.

(** One entry of a history batch that is not [null]: the counter goes
    up by one and the record carries the new value. *)
Lemma process_history_ok log index a :
  is_nullish log = false ->
  returns (process_history host log index) a (fun r a' =>
    lineNumber r = logCounterRef a + 1 /\ isHistory r = true /\
    logs a' = logs a /\ logCounterRef a' = logCounterRef a + 1).
Proof.
  intros Hlog. unfold process_history.
  apply returns_bind, returns_incr_counter.
  apply returns_bind, returns_host_call. intros now a1 [Hl1 Hc1].
  apply returns_bind, returns_read.
  apply returns_bind, returns_get; [exact Hlog|]. intros ts _.
  assert (Hfin : forall ts' a2, same_store a1 a2 ->
    returns (lv ← get log "level"; ms ← get log "message";
             st ← structured_flag log;
             mret (mkLog ("history-" ++ pretty now ++ "-" ++ pretty index)
                         (logCounterRef a1) ts' (js_or lv (VStr "INFO"))
                         (js_or ms log) st true)) a2
      (fun r a' => lineNumber r = logCounterRef a + 1 /\ isHistory r = true /\
                   logs a' = logs a /\ logCounterRef a' = logCounterRef a + 1)).
  { intros ts' a2 [Hl2 Hc2].
    apply returns_bind, returns_get; [exact Hlog|]. intros lv _.
    apply returns_bind, returns_get; [exact Hlog|]. intros ms _.
    apply returns_bind, returns_structured_flag; [exact Hlog|]. intros st.
    apply returns_ret. simpl. rewrite Hl2, Hc2, Hl1, Hc1.
    destruct a; simpl. auto. }
  apply returns_bind, returns_or_time.
  - intros w a2 Ha2 _ _. apply Hfin, Ha2.
  - intros t a2 Ha2 _. apply Hfin, Ha2.
Qed.

(** A batch without [null] entries: as many records as entries,
    numbered from the counter on. *)
Lemma process_history_batch items :
  forall index a,
  Forall (fun e => is_nullish e = false) items ->
  returns (map_index (process_history host) items index) a (fun rs a' =>
    lineNumber <$> rs = seqZ (logCounterRef a + 1) (Z.of_nat (length items)) /\
    Forall (fun r => isHistory r = true) rs /\
    logs a' = logs a /\
    logCounterRef a' = logCounterRef a + Z.of_nat (length items)).
Proof.
  induction items as [|e items IH]; intros index a Hall; simpl map_index.
  - apply returns_ret. simpl. repeat split; auto. lia.
  - inversion Hall as [|? ? He Hrest]; subst.
    apply returns_bind.
    eapply returns_weaken; [apply process_history_ok, He|].
    intros r a1 (Hn & Hh & Hl1 & Hc1).
    apply returns_bind.
    eapply returns_weaken; [apply (IH (S index) a1 Hrest)|].
    intros rs a2 (Hns & Hhs & Hl2 & Hc2).
    apply returns_ret. repeat split.
    + rewrite fmap_cons, Hn, Hns, Hc1.
      rewrite (seqZ_cons (logCounterRef a + 1)) by (simpl length; lia).
      f_equal. f_equal; simpl length; lia.
    + constructor; assumption.
    + congruence.
    + rewrite Hc2, Hc1. simpl length. lia.
Qed.

(** The lines of a string payload become as many entries, none of
    them [null]. *)
Lemma history_line_batch lines :
  forall index a,
  returns (map_index (history_line host) lines index) a (fun es a' =>
    length es = length lines /\
    Forall (fun e => is_nullish e = false) es /\
    same_store a a').
Proof.
  induction lines as [|line lines IH]; intros index a; simpl map_index.
  - apply returns_ret. repeat split; auto.
  - apply returns_bind. unfold history_line at 1.
    apply returns_bind, returns_host_call. intros t a1 Ha1.
    apply returns_ret.
    apply returns_bind.
    eapply returns_weaken; [apply (IH (S index) a1)|].
    intros es a2 (Hlen & Hnn & Ha2).
    apply returns_ret. repeat split.
    + simpl. congruence.
    + constructor; [reflexivity|assumption].
    + apply (same_store_trans _ _ _ Ha1 Ha2).
    + apply (same_store_trans _ _ _ Ha1 Ha2).
Qed.
End HistoryFacts.

Section StoreFacts.
Context (host : Host).

Lemma get_eq v k a : get v k a = (prop v k, a).
Proof. reflexivity. Qed.

Lemma bind_get_ok {B : Type} v k w (f : value -> M B) a :
  prop v k = Ok w -> (x ← get v k; f x) a = f w a.
Proof. intros H. unfold mbind, M_bind. rewrite get_eq, H. reflexivity. Qed.

Lemma bind_ok {A B : Type} (m : M A) (f : A -> M B) a x a1 :
  m a = (Ok x, a1) -> (m ≫= f) a = f x a1.
Proof. intros H. unfold mbind, M_bind. rewrite H. reflexivity. Qed.

Lemma classify_history data a :
  prop data "type" = Ok (VStr "HISTORY") ->
  classify host data a = history_branch host data a.
Proof. intros H. unfold classify. rewrite (bind_get_ok _ _ _ _ _ H). reflexivity. Qed.

Lemma onmessage_some data a :
  onmessage host (Some data) a = snd (classify host data a).
Proof.
  unfold onmessage, try_catch, mbind, M_bind, mret, M_ret. reflexivity.
Qed.

Lemma returns_snd {A : Type} (m : M A) a (P : A -> App -> Prop) (Q : App -> Prop) :
  returns m a P -> (forall x a', P x a' -> Q a') -> Q (snd (m a)).
Proof. intros (x & a' & Hm & HP) HQ. rewrite Hm. simpl. eauto. Qed.

Lemma history_branch_batch data payload N a :
  prop data "data" = Ok payload ->
  well_formed_batch payload N ->
  returns (history_branch host data) a (fun _ a' =>
    lineNumber <$> logs a' = seqZ (logCounterRef a + 1) (Z.of_nat N) /\
    Forall (fun r => isHistory r = true) (logs a') /\
    logCounterRef a' = logCounterRef a + Z.of_nat N).
Proof.
  intros Hdata Hwf. unfold history_branch.
  exists tt. rewrite (bind_get_ok _ _ _ _ _ Hdata).
  assert (Hrun : forall items a1, same_store a a1 ->
    Forall (fun e => is_nullish e = false) items -> length items = N ->
    exists a', (processedHistory ← map_index (process_history host) items 0;
                modify (set_logs (fun _ => processedHistory))) a1 = (Ok tt, a') /\
      lineNumber <$> logs a' = seqZ (logCounterRef a + 1) (Z.of_nat N) /\
      Forall (fun r => isHistory r = true) (logs a') /\
      logCounterRef a' = logCounterRef a + Z.of_nat N).
  { intros items a1 [Hl1 Hc1] Hnn Hlen.
    destruct (process_history_batch host items 0%nat a1 Hnn)
      as (rs & a2 & Hrs & Hnum & Hhist & Hl2 & Hc2).
    eexists. split.
    - unfold mbind, M_bind. rewrite Hrs. reflexivity.
    - rewrite Hlen, Hc1 in *. destruct a2; simpl in *. auto. }
  destruct payload as [| | | |s|items|]; simpl in Hwf; try contradiction.
  - destruct (history_line_batch host (List.filter nonblank (split nl s)) 0%nat a)
      as (es & a1 & Hes & Hlen & Hnn & Hsame).
    destruct (Hrun es a1 Hsame Hnn) as (a' & Hrun' & Hfacts); [congruence|].
    exists a'. split; [|exact Hfacts].
    unfold mbind, M_bind in *. rewrite Hes. exact Hrun'.
  - destruct Hwf as [Hnn ->].
    destruct (Hrun items a (same_store_refl a) Hnn eq_refl) as (a' & Hrun' & Hfacts).
    exists a'. split; [|exact Hfacts].
    unfold mbind, M_bind, mret, M_ret in *. exact Hrun'.
Qed.
End StoreFacts.

(** C2.  A HISTORY frame whose payload has [N] usable entries (an array
    of [N] entries, none [null], or a string with [N] non-blank lines)
    replaces the store by exactly [N] history records numbered [k+1] to
    [k+N], where [k] is the counter before the frame; the counter ends
    at [k+N] and is not reset. *)
Theorem history_batch_numbering (host : Host) (data payload : value) (N : nat) (a : App) :
  prop data "type" = Ok (VStr "HISTORY") ->
  prop data "data" = Ok payload ->
  well_formed_batch payload N ->
  let a' := onmessage host (Some data) a in
  length (logs a') = N /\
  lineNumber <$> logs a' = seqZ (logCounterRef a + 1) (Z.of_nat N) /\
  Forall (fun r => isHistory r = true) (logs a') /\
  logCounterRef a' = logCounterRef a + Z.of_nat N.
Proof.
  intros Hty Hdata Hwf a'. subst a'.
  rewrite onmessage_some, classify_history by exact Hty.
  eapply returns_snd; [apply (history_branch_batch host data payload N a Hdata Hwf)|].
  intros _ a' (Hnum & Hhist & Hc). repeat split; auto.
  apply (f_equal length) in Hnum.
  rewrite length_fmap, length_seqZ in Hnum. lia.
Qed.

Lemma history_batch_numbering_witness :
  let a := set_logCounterRef 7 empty_app in
  let a' := onmessage demo_host frame_history a in
  length (logs a') = 3%nat /\
  lineNumber <$> logs a' = [8; 9; 10] /\
  Forall (fun r => isHistory r = true) (logs a') /\
  logCounterRef a' = 10.
Proof.
  apply (history_batch_numbering demo_host
           (VObj [("type", VStr "HISTORY");
                  ("data", VStr (String "a" (String nl (String "b"
                                   (String nl (String nl "c"))))))])
           (VStr (String "a" (String nl (String "b" (String nl (String nl "c"))))))
           3 (set_logCounterRef 7 empty_app)).
  - reflexivity.
  - reflexivity.
  - reflexivity.
Defined.

(** C10.  A HISTORY frame whose [data] is neither an array nor a string
    (absent included) empties the store and leaves the counter, and
    everything else, as it was. *)
Theorem history_without_entries (host : Host) (data payload : value) (a : App) :
  prop data "type" = Ok (VStr "HISTORY") ->
  prop data "data" = Ok payload ->
  (forall items, payload <> VArr items) ->
  (forall s, payload <> VStr s) ->
  onmessage host (Some data) a = set_logs (fun _ => []) a /\
  logs (onmessage host (Some data) a) = [] /\
  logCounterRef (onmessage host (Some data) a) = logCounterRef a.
Proof.
  intros Hty Hdata Harr Hstr.
  assert (Heq : onmessage host (Some data) a = set_logs (fun _ => []) a).
  { rewrite onmessage_some, classify_history by exact Hty.
    unfold history_branch. rewrite (bind_get_ok _ _ _ _ _ Hdata).
    destruct payload; try reflexivity.
    - exfalso. eapply Hstr. reflexivity.
    - exfalso. eapply Harr. reflexivity. }
  rewrite Heq. destruct a; simpl. auto.
Qed.

Lemma history_without_entries_witness :
  logs (onmessage demo_host (Some (VObj [("type", VStr "HISTORY")]))
          (onmessage demo_host frame_boom empty_app)) = [] /\
  logCounterRef (onmessage demo_host (Some (VObj [("type", VStr "HISTORY")]))
                   (onmessage demo_host frame_boom empty_app)) = 1.
Proof.
  destruct (history_without_entries demo_host (VObj [("type", VStr "HISTORY")])
              VUndefined (onmessage demo_host frame_boom empty_app))
    as (_ & Hlogs & Hcount).
  - reflexivity.
  - reflexivity.
  - intros items H. discriminate H.
  - intros s H. discriminate H.
  - split; [exact Hlogs|]. rewrite Hcount. reflexivity.
Defined.

Section LiveFacts.
Context (host : Host).

Lemma returns_live_id a (P : string -> App -> Prop) :
  (forall i a', same_store a a' -> P i a') -> returns (live_id host) a P.
Proof.
  intros HP. unfold live_id.
  apply returns_bind, returns_host_call. intros now a1 Ha1.
  apply returns_bind, returns_host_call. intros r a2 Ha2.
  apply returns_ret, HP. apply (same_store_trans _ _ _ Ha1 Ha2).
Qed.

Lemma returns_append_log r a (P : unit -> App -> Prop) :
  P tt (set_logs (fun prevLogs => (prevLogs ++ [r])%list) a) ->
  returns (append_log r) a P.
Proof. intros HP. eexists _, _. split; [reflexivity|exact HP]. Qed.

Lemma appended_intro a a2 r :
  same_store (set_logCounterRef (logCounterRef a + 1) a) a2 ->
  lineNumber r = logCounterRef a + 1 -> isHistory r = false ->
  appended a (set_logs (fun prevLogs => (prevLogs ++ [r])%list) a2).
Proof.
  intros [Hl Hc] Hn Hh. exists r.
  destruct a, a2; simpl in *. subst. auto.
Qed.

Lemma structured_branch_appends data a :
  is_nullish data = false ->
  returns (structured_branch host data) a (fun _ a' => appended a a').
Proof.
  intros Hd. unfold structured_branch.
  apply returns_bind, returns_incr_counter.
  apply returns_bind, returns_live_id. intros i a1 Ha1.
  apply returns_bind, returns_read.
  apply returns_bind, returns_get; [exact Hd|]. intros ts _.
  apply returns_bind, returns_get; [exact Hd|]. intros lv _.
  apply returns_bind, returns_get; [exact Hd|]. intros ms _.
  apply returns_bind, returns_structured_flag; [exact Hd|]. intros st.
  apply returns_append_log, appended_intro; [exact Ha1| |reflexivity].
  simpl. destruct Ha1 as [_ ->]. destruct a; reflexivity.
Qed.

Lemma log_branch_appends data a :
  is_nullish data = false ->
  returns (log_branch host data) a (fun _ a' => appended a a').
Proof.
  intros Hd. unfold log_branch.
  apply returns_bind, returns_incr_counter.
  apply returns_bind, returns_live_id. intros i a1 Ha1.
  apply returns_bind, returns_read.
  apply returns_bind, returns_get; [exact Hd|]. intros ts _.
  assert (Hfin : forall ts' a2, same_store a1 a2 ->
    returns (lv ← get data "level"; ms ← get data "message";
             st ← structured_flag data;
             append_log (mkLog i (logCounterRef a1) ts' (js_or lv (VStr "INFO"))
               (js_or ms (VStr (JSON_stringify host data))) st false)) a2
      (fun _ a' => appended a a')).
  { intros ts' a2 Ha2.
    apply returns_bind, returns_get; [exact Hd|]. intros lv _.
    apply returns_bind, returns_get; [exact Hd|]. intros ms _.
    apply returns_bind, returns_structured_flag; [exact Hd|]. intros st.
    apply returns_append_log, appended_intro;
      [apply (same_store_trans _ _ _ Ha1 Ha2)| |reflexivity].
    simpl. destruct Ha1 as [_ ->]. destruct a; reflexivity. }
  apply returns_bind, returns_or_time.
  - intros w a2 Ha2 _ _. apply Hfin, Ha2.
  - intros t a2 Ha2 _. apply Hfin, Ha2.
Qed.

Lemma fallback_branch_appends data a :
  is_nullish data = false ->
  returns (fallback_branch host data) a (fun _ a' => appended a a').
Proof.
  intros Hd. unfold fallback_branch.
  apply returns_bind, returns_incr_counter.
  apply returns_bind, returns_live_id. intros i a1 Ha1.
  apply returns_bind, returns_read.
  apply returns_bind, returns_get; [exact Hd|]. intros ts _.
  assert (Hfin : forall ts' a2, same_store a1 a2 ->
    returns (lv ← get data "level"; ms ← get data "message";
             st ← structured_flag data;
             append_log (mkLog i (logCounterRef a1) ts' (js_or lv (VStr "INFO"))
               ms st false)) a2
      (fun _ a' => appended a a')).
  { intros ts' a2 Ha2.
    apply returns_bind, returns_get; [exact Hd|]. intros lv _.
    apply returns_bind, returns_get; [exact Hd|]. intros ms _.
    apply returns_bind, returns_structured_flag; [exact Hd|]. intros st.
    apply returns_append_log, appended_intro;
      [apply (same_store_trans _ _ _ Ha1 Ha2)| |reflexivity].
    simpl. destruct Ha1 as [_ ->]. destruct a; reflexivity. }
  apply returns_bind, returns_or_time.
  - intros w a2 Ha2 _ _. apply Hfin, Ha2.
  - intros t a2 Ha2 _. apply Hfin, Ha2.
Qed.

Lemma has_all_three_pure data a :
  is_nullish data = false -> exists v, has_all_three data a = (Ok v, a).
Proof.
  intros Hd. unfold has_all_three.
  destruct (prop_defined data "timestamp" Hd) as [ts Hts].
  destruct (prop_defined data "level" Hd) as [lv Hlv].
  destruct (prop_defined data "message" Hd) as [ms Hms].
  rewrite (bind_get_ok _ _ _ _ _ Hts).
  destruct (truthy ts); [|eexists; reflexivity].
  rewrite (bind_get_ok _ _ _ _ _ Hlv).
  destruct (truthy lv); [|eexists; reflexivity].
  rewrite get_eq, Hms. eexists; reflexivity.
Qed.

(** A frame that is not a history batch leaves the store alone or
    appends one record numbered with the incremented counter. *)
Lemma live_frame_effect parsed a :
  is_history parsed = false ->
  same_store a (onmessage host parsed a) \/ appended a (onmessage host parsed a).
Proof.
  intros Hnh. destruct parsed as [data|]; [|left; apply same_store_refl].
  rewrite onmessage_some. simpl in Hnh. unfold classify.
  destruct (prop data "type") as [ty|] eqn:Hty.
  2:{ left. unfold mbind, M_bind. rewrite get_eq, Hty. apply same_store_refl. }
  pose proof (prop_ok_not_nullish _ _ _ Hty) as Hd.
  rewrite (bind_get_ok _ _ _ _ _ Hty), Hnh.
  destruct (has_all_three_pure data a Hd) as [all3 Hall3].
  rewrite (bind_ok _ _ _ _ _ Hall3).
  destruct (truthy all3).
  { right. eapply returns_snd; [apply structured_branch_appends, Hd|]. auto. }
  rewrite (bind_get_ok _ _ _ _ _ Hty).
  destruct (strict_eq_str ty "log").
  { right. eapply returns_snd; [apply log_branch_appends, Hd|]. auto. }
  destruct (prop_defined data "message" Hd) as [ms Hms].
  rewrite (bind_get_ok _ _ _ _ _ Hms).
  destruct (truthy ms).
  { right. eapply returns_snd; [apply fallback_branch_appends, Hd|]. auto. }
  left. apply same_store_refl.
Qed.

End LiveFacts.

(** A history batch between the clear and the first appended record
    advances the counter, so that record is numbered after the batch. *)
Example history_then_append_numbering :
  lineNumber <$> logs (feed demo_host [frame_history; frame_hi] (clearLogs empty_app))
  = [1; 2; 3; 4] /\
  isHistory <$> logs (feed demo_host [frame_history; frame_hi] (clearLogs empty_app))
  = [true; true; true; false].
Proof. split; reflexivity. Qed.

(** C1.  From an empty store with counter 0, the history frame with
    payload "a\nb\n\nc", then the ERROR frame "boom", then [clearLogs],
    then the frame { type: "log", message: "hi" } leave exactly one
    record: line number 1, level "INFO", message "hi", not history. *)
Theorem example_session (host : Host) (a : App) :
  logs a = [] ->
  logCounterRef a = 0 ->
  exists r,
    logs (onmessage host frame_hi
            (clearLogs (onmessage host frame_boom (onmessage host frame_history a))))
      = [r] /\
    lineNumber r = 1 /\ level r = VStr "INFO" /\ message r = VStr "hi" /\
    isHistory r = false.
Proof.
  intros _ _.
  generalize (onmessage host frame_boom (onmessage host frame_history a)).
  intros a2. destruct a2. eexists. split; [reflexivity|].
  repeat split.
Qed.

Lemma example_session_witness :
  exists r,
    logs (onmessage demo_host frame_hi
            (clearLogs (onmessage demo_host frame_boom
                          (onmessage demo_host frame_history empty_app))))
      = [r] /\
    lineNumber r = 1 /\ level r = VStr "INFO" /\ message r = VStr "hi" /\
    isHistory r = false.
Proof. apply (example_session demo_host empty_app); reflexivity. Defined.

(** ** The derived view *)

Lemma level_upper_string r :
  has_string_level r -> level_upper r = Ok (Some (toUpperCase (level_text r))).
Proof. intros [s Hs]. unfold level_upper, level_text. rewrite Hs. reflexivity. Qed.

Lemma filter_cb_strings (logs : list LogRecord) (X : string) :
  Forall has_string_level logs ->
  filter_cb (fun log => u ← level_upper log; mret (same_level u X)) logs
  = Ok (filter (fun r => toUpperCase (level_text r) = X) logs).
Proof.
  induction 1 as [|r logs Hr Hall IH]; [reflexivity|].
  simpl filter_cb. rewrite (level_upper_string r Hr), IH. simpl.
  rewrite filter_cons. unfold mret, Result_ret.
  destruct (String.eqb_spec (toUpperCase (level_text r)) X) as [Heq|Hne].
  - rewrite decide_True by exact Heq. reflexivity.
  - rewrite decide_False by exact Hne. reflexivity.
Qed.

Lemma upper_ascii_idem c : upper_ascii (upper_ascii c) = upper_ascii c.
Proof. destruct c as [[] [] [] [] [] [] [] []]; reflexivity. Qed.

Lemma toUpperCase_idem s : toUpperCase (toUpperCase s) = toUpperCase s.
Proof. induction s as [|c s IH]; simpl; [reflexivity|]. rewrite upper_ascii_idem, IH. reflexivity. Qed.

Lemma map_cb_strings (logs : list LogRecord) :
  Forall has_string_level logs ->
  map_cb level_upper logs = Ok ((fun r => Some (toUpperCase (level_text r))) <$> logs).
Proof.
  induction 1 as [|r logs Hr Hall IH]; [reflexivity|].
  simpl map_cb. rewrite (level_upper_string r Hr), IH. reflexivity.
Qed.

Lemma filter_Boolean_strings (l : list string) :
  filter_Boolean (Some <$> l) = filter (fun s : string => s <> "") l.
Proof.
  induction l as [|s l IH]; [reflexivity|].
  rewrite filter_cons, <- IH. unfold filter_Boolean.
  rewrite fmap_cons. cbn [omap list_omap].
  destruct (String.eqb_spec s "") as [Heq|Hne].
  - rewrite decide_False by (intros H; apply H, Heq). reflexivity.
  - rewrite decide_True by exact Hne. reflexivity.
Qed.

Lemma existsb_eqb_elem_of (x : string) (l : list string) :
  existsb (String.eqb x) l = bool_decide (x ∈ l).
Proof.
  induction l as [|y l IH]; cbn [existsb].
  - symmetry. apply bool_decide_eq_false_2, not_elem_of_nil.
  - rewrite IH. destruct (String.eqb_spec x y) as [->|Hne]; cbn [orb].
    + symmetry. apply bool_decide_eq_true_2. left.
    + apply bool_decide_ext. rewrite elem_of_cons. tauto.
Qed.

(** Building the [Set] from a list on top of the members [acc] adds, in
    order, the members first seen that [acc] lacks. *)
Lemma fold_Set_add (l : list string) :
  forall acc,
  fold_left Set_add l acc = (acc ++ filter (fun y => y ∉ acc) (first_seen l))%list.
Proof.
  induction l as [|x l IH]; intros acc; simpl.
  - rewrite app_nil_r. reflexivity.
  - rewrite IH. unfold Set_add. rewrite existsb_eqb_elem_of.
    rewrite filter_cons. destruct (decide (x ∈ acc)) as [Hin|Hnin].
    + rewrite bool_decide_eq_true_2 by exact Hin.
      rewrite decide_False by (intros H; apply H, Hin).
      f_equal. rewrite list_filter_filter. apply list_filter_iff.
      intros y. split; [intros Hy; split; [exact Hy|]|tauto].
      intros ->. apply Hy, Hin.
    + rewrite bool_decide_eq_false_2 by exact Hnin.
      rewrite decide_True by exact Hnin.
      rewrite <- app_assoc. simpl. f_equal. f_equal.
      rewrite list_filter_filter. apply list_filter_iff.
      intros y. rewrite elem_of_app, list_elem_of_singleton.
      tauto.
Qed.

Lemma filter_all_pass (P : string -> Prop) `{forall x, Decision (P x)} (l : list string) :
  (forall x, x ∈ l -> P x) -> filter P l = l.
Proof.
  induction l as [|x l IH]; intros Hall; [reflexivity|].
  rewrite filter_cons, decide_True by (apply Hall; left).
  f_equal. apply IH. intros y Hy. apply Hall. right. exact Hy.
Qed.

(** The [Set] built from a list holds its distinct members in the order
    of their first occurrence. *)
Lemma new_Set_first_seen (l : list string) : new_Set l = first_seen l.
Proof.
  unfold new_Set. rewrite fold_Set_add. simpl.
  apply filter_all_pass. intros x _. apply not_elem_of_nil.
Qed.

Lemma elem_of_first_seen (l : list string) x : x ∈ first_seen l <-> x ∈ l.
Proof.
  induction l as [|y l IH]; simpl; [reflexivity|].
  rewrite !elem_of_cons, list_elem_of_filter, IH.
  destruct (decide (x = y)); tauto.
Qed.

Lemma NoDup_first_seen (l : list string) : NoDup (first_seen l).
Proof.
  induction l as [|y l IH]; simpl; [constructor|].
  apply NoDup_cons. split.
  - rewrite list_elem_of_filter. tauto.
  - apply NoDup_filter, IH.
Qed.

(** Scanning a longer list only adds at the end: the members met in a
    prefix come first, in the order the prefix gave them. *)
Lemma first_seen_app (l1 l2 : list string) :
  first_seen (l1 ++ l2) =
  (first_seen l1 ++ filter (fun y => y ∉ first_seen l1) (first_seen l2))%list.
Proof.
  rewrite <- (new_Set_first_seen (l1 ++ l2)), <- (new_Set_first_seen l1).
  unfold new_Set. rewrite fold_left_app, fold_Set_add. reflexivity.
Qed.

(** For a store whose levels are strings and a token that is its own
    upper-casing, the display list is the one the specification
    describes. *)
Lemma filteredLogs_upper_token (logs : list LogRecord) (X : string) :
  Forall has_string_level logs -> toUpperCase X = X ->
  filteredLogs logs X = Ok (claimed_display logs X).
Proof.
  intros Hall Hup. unfold claimed_display, filteredLogs.
  destruct (String.eqb_spec X "ALL") as [->|HX]; [reflexivity|].
  rewrite Hup. apply filter_cb_strings, Hall.
Qed.

Lemma level_upper_values (logs : list LogRecord) :
  forall ups s, map_cb level_upper logs = Ok ups -> Some s ∈ ups -> toUpperCase s = s.
Proof.
  induction logs as [|r logs IH]; intros ups s Hups Hs; simpl in Hups.
  - injection Hups as <-. inversion Hs.
  - destruct (level_upper r) as [u|] eqn:Hu; [|discriminate].
    destruct (map_cb level_upper logs) as [ys|]; [|discriminate].
    simpl in Hups. injection Hups as <-.
    apply elem_of_cons in Hs as [Hs|Hs]; [|apply (IH ys s eq_refl Hs)].
    subst u. unfold level_upper in Hu.
    destruct (level r); try discriminate.
    injection Hu as <-. apply toUpperCase_idem.
Qed.

(** Every token the menu offers is already upper-case, so for those the
    display list is the one the specification describes. *)
Lemma menu_tokens_upper_case (logs : list LogRecord) (menu : list string) (X : string) :
  logLevels logs = Ok menu -> X ∈ menu -> toUpperCase X = X.
Proof.
  unfold logLevels. destruct (map_cb level_upper logs) as [ups|] eqn:Hups; [|discriminate].
  intros Hmenu HX. injection Hmenu as <-.
  apply elem_of_cons in HX as [->|HX]; [reflexivity|].
  rewrite new_Set_first_seen, elem_of_first_seen in HX.
  unfold filter_Boolean in HX. apply list_elem_of_omap in HX as (u & Hu & HXu).
  destruct u as [s|]; [|discriminate].
  destruct (String.eqb s ""); [discriminate|]. injection HXu as <-.
  apply (level_upper_values logs ups s Hups Hu).
Qed.

(** C8 (amended).  For a store whose levels are strings, the menu is
    "ALL" followed by the distinct non-empty upper-cased levels in the
    order a front to back scan first meets them: its first element is
    "ALL", and the part after it has no duplicates and exactly the
    levels of the store as members. *)
Theorem available_levels (logs : list LogRecord) :
  Forall has_string_level logs ->
  logLevels logs = Ok ("ALL" :: first_seen (seen_levels logs)) /\
  NoDup (first_seen (seen_levels logs)) /\
  (forall x, x ∈ first_seen (seen_levels logs) <-> x ∈ seen_levels logs).
Proof.
  intros Hall. split; [|split].
  - unfold logLevels. rewrite (map_cb_strings logs Hall). simpl.
    unfold mret, Result_ret. do 2 f_equal.
    rewrite new_Set_first_seen. f_equal. unfold seen_levels.
    rewrite <- filter_Boolean_strings, <- list_fmap_compose. reflexivity.
  - apply NoDup_first_seen.
  - intros x. apply elem_of_first_seen.
Qed.

Lemma available_levels_witness :
  let store := logs (onmessage demo_host frame_boom
                       (onmessage demo_host frame_history empty_app)) in
  logLevels store = Ok ["ALL"; "INFO"; "ERROR"] /\
  NoDup (first_seen (seen_levels store)) /\
  (forall x, x ∈ first_seen (seen_levels store) <-> x ∈ seen_levels store).
Proof.
  apply (available_levels
           (logs (onmessage demo_host frame_boom
                    (onmessage demo_host frame_history empty_app)))).
  vm_compute. repeat constructor; eexists; reflexivity.
Defined.

(** The whole menu is free of duplicates exactly when no level
    upper-cases to "ALL". *)
Lemma menu_NoDup_iff (logs : list LogRecord) :
  NoDup ("ALL" :: first_seen (seen_levels logs)) <-> "ALL" ∉ seen_levels logs.
Proof.
  rewrite NoDup_cons, elem_of_first_seen.
  pose proof (NoDup_first_seen (seen_levels logs)). tauto.
Qed.

(** A level that is neither absent nor a string has no [toUpperCase]:
    both derivations raise. *)
Example numeric_level_raises :
  let store := logs (onmessage demo_host
                       (Some (VObj [("type", VStr "log"); ("level", VNum 5);
                                    ("message", VStr "x")])) empty_app) in
  level <$> store = [VNum 5] /\
  filteredLogs store "INFO" = Throw /\
  logLevels store = Throw.
Proof. repeat split. Qed.

(** C8 as stated fails: a record whose level is "all" puts "ALL" into
    the menu a second time. *)
Lemma menu_repeats_ALL :
  let store := logs (onmessage demo_host frame_all empty_app) in
  Forall has_string_level store /\
  logLevels store = Ok ["ALL"; "ALL"] /\
  ~ NoDup ["ALL"; "ALL"].
Proof.
  repeat split.
  - repeat constructor. eexists. reflexivity.
  - intros H. apply NoDup_cons in H as [H _]. apply H. left.
Qed.

(** ** Connection lifecycle *)

Lemma store_update_fields a a' :
  store_update a a' ->
  isConnected a' = isConnected a /\ connectionStatus a' = connectionStatus a /\
  filterLevel a' = filterLevel a /\ wsRef a' = wsRef a /\
  reconnectTimeoutRef a' = reconnectTimeoutRef a /\ isCleanedUp a' = isCleanedUp a /\
  sockets a' = sockets a /\ timers a' = timers a /\ nextTimer a' = nextTimer a /\
  clock_ms a' = clock_ms a.
Proof. unfold store_update. intros ->. simpl. repeat split. Qed.

Lemma closing_length ws ss : length (closing ws ss) = length ss.
Proof.
  unfold closing. destruct (ss !! ws) as [[]|]; try reflexivity; apply length_insert.
Qed.

(** After [close()] a socket is where it was, except that the closed
    one, if it was connecting or open, is now closing. *)
Lemma closing_lookup ws ss i st :
  closing ws ss !! i = Some st ->
  ss !! i = Some st \/
  (i = ws /\ st = CLOSING /\ (ss !! i = Some CONNECTING \/ ss !! i = Some OPEN)).
Proof.
  unfold closing. destruct (ss !! ws) as [[]|] eqn:Hws; auto;
    intros H; apply list_lookup_insert_Some in H as [(-> & <- & _)|[_ H]]; auto.
Qed.

Lemma closing_not_open ws ss :
  closing ws ss !! ws <> Some CONNECTING /\ closing ws ss !! ws <> Some OPEN.
Proof.
  unfold closing. destruct (ss !! ws) as [[]|] eqn:Hws;
    try (rewrite Hws; split; discriminate).
  - rewrite list_lookup_insert_eq by (eapply lookup_lt_Some, Hws). split; discriminate.
  - rewrite list_lookup_insert_eq by (eapply lookup_lt_Some, Hws). split; discriminate.
Qed.

Lemma closing_closed_all ss ws :
  (forall i st, ss !! i = Some st -> st = CLOSED) -> closing ws ss = ss.
Proof.
  intros Hall. unfold closing. destruct (ss !! ws) as [st|] eqn:Hws; [|reflexivity].
  rewrite (Hall ws st Hws). reflexivity.
Qed.

Section LifecycleFacts.
Context (host : Host).

(** C9.  The error signal sets the status to "Error" and changes
    nothing else: no socket is closed, no timer armed, the store is
    as before.  A status that becomes "Disconnected" and a timer that
    becomes pending are always the work of a close signal, which sets
    the status and, unless the component was torn down, arms a timer
    due 3000 ms later. *)
Theorem error_signal_sets_status_only :
  (forall ws a a', step host (EvError ws) a = Some a' ->
     a' = set_connectionStatus "Error" a) /\
  (forall e a a', step host e a = Some a' ->
     connectionStatus a <> "Disconnected" -> connectionStatus a' = "Disconnected" ->
     exists ws, e = EvClose ws) /\
  (forall e a a' t, step host e a = Some a' ->
     timers a !! t = None -> is_Some (timers a' !! t) ->
     exists ws, e = EvClose ws) /\
  (forall ws a a', step host (EvClose ws) a = Some a' ->
     connectionStatus a' = "Disconnected" /\
     (isCleanedUp a = false ->
      timers a' !! nextTimer a = Some (clock_ms a + 3000) /\
      reconnectTimeoutRef a' = Some (nextTimer a))).
Proof.
  split; [|split; [|split]].
  - intros ws a a' H. simpl in H.
    destruct (sockets a !! ws) as [[]|]; try discriminate;
      injection H as <-; reflexivity.
  - intros e a a' H Hbefore Hafter.
    destruct e; simpl in H; eauto; exfalso.
    + destruct (sockets a !! ws) as [[]|]; try discriminate.
      injection H as <-. discriminate Hafter.
    + destruct (sockets a !! ws) as [[]|]; try discriminate.
      injection H as <-.
      destruct (store_update_fields _ _ (onmessage_store_update host parsed a))
        as (_ & Hs & _). congruence.
    + destruct (sockets a !! ws) as [[]|]; try discriminate;
        injection H as <-; discriminate Hafter.
    + destruct (0 <=? ms)%Z; [|discriminate]. injection H as <-.
      destruct a; simpl in *. congruence.
    + destruct (timers a !! t) as [due|]; [|discriminate].
      destruct (due <=? clock_ms a)%Z; [|discriminate]. injection H as <-.
      unfold reconnect, connectWebSocket, clearTimeout, close_socket in Hafter.
      destruct a as [? ? ? ? [w|] ? ? [] ? ? ? ? ?]; simpl in Hafter; discriminate.
    + injection H as <-. unfold cleanup, clearTimeout, close_socket in Hafter.
      destruct a as [? ? ? ? [w|] [[|n]|] ? ? ? ? ? ? ?]; simpl in *; congruence.
    + injection H as <-. destruct a; simpl in *; congruence.
    + injection H as <-. destruct a; simpl in *; congruence.
    + injection H as <-. unfold connectWebSocket, close_socket in Hafter.
      destruct a as [? ? ? ? [w|] ? ? [] ? ? ? ? ?]; simpl in *; congruence.
  - intros e a a' t H Hbefore [due Hafter].
    destruct e; simpl in H; eauto; exfalso.
    + destruct (sockets a !! ws) as [[]|]; try discriminate.
      injection H as <-. destruct a; simpl in *. congruence.
    + destruct (sockets a !! ws) as [[]|]; try discriminate.
      injection H as <-.
      destruct (store_update_fields _ _ (onmessage_store_update host parsed a))
        as (_ & _ & _ & _ & _ & _ & _ & Ht & _). congruence.
    + destruct (sockets a !! ws) as [[]|]; try discriminate;
        injection H as <-; destruct a; simpl in *; congruence.
    + destruct (0 <=? ms)%Z; [|discriminate]. injection H as <-.
      destruct a; simpl in *. congruence.
    + destruct (timers a !! t0) as [due0|]; [|discriminate].
      destruct (due0 <=? clock_ms a)%Z; [|discriminate]. injection H as <-.
      unfold reconnect, connectWebSocket, clearTimeout, close_socket in Hafter.
      destruct a as [? ? ? ? [w|] ? ? [] ? ? ? ? ?]; simpl in *;
        apply lookup_delete_Some in Hafter as [_ Hafter]; congruence.
    + injection H as <-. unfold cleanup, clearTimeout, close_socket in Hafter.
      destruct a as [? ? ? ? [w|] [[|n]|] ? ? ? ? ? ? ?]; simpl in *;
        try congruence;
        apply lookup_delete_Some in Hafter as [_ Hafter]; congruence.
    + injection H as <-. destruct a; simpl in *; congruence.
    + injection H as <-. destruct a; simpl in *; congruence.
    + injection H as <-. unfold connectWebSocket, close_socket in Hafter.
      destruct a as [? ? ? ? [w|] ? ? [] ? ? ? ? ?]; simpl in *; congruence.
  - intros ws a a' H. simpl in H.
    assert (Ha' : a' = onclose (set_sockets (fun ss => <[ws:=CLOSED]> ss) a))
      by (destruct (sockets a !! ws) as [[]|]; congruence).
    subst a'. unfold onclose, setTimeout.
    destruct a as [? ? ? ? ? ? ? [] ? ? ? ? ?]; simpl; split; auto; try discriminate.
    intros _. split; [apply lookup_insert_eq|reflexivity].
Qed.

End LifecycleFacts.

Lemma error_signal_sets_status_only_witness :
  exists a', step demo_host (EvError 0) mounted = Some a' /\
             a' = set_connectionStatus "Error" mounted.
Proof.
  eexists. split; [reflexivity|].
  apply (proj1 (error_signal_sets_status_only demo_host) 0%nat mounted).
  reflexivity.
Defined.

Lemma one_open_unique a i j :
  one_open a -> open_transport a i -> open_transport a j -> i = j.
Proof. intros H Hi Hj. apply H in Hi, Hj. congruence. Qed.

Lemma closing_open ws ss i :
  closing ws ss !! i = Some CONNECTING \/ closing ws ss !! i = Some OPEN ->
  i <> ws /\ (ss !! i = Some CONNECTING \/ ss !! i = Some OPEN).
Proof.
  intros H. split.
  - intros ->. destruct (closing_not_open ws ss). tauto.
  - destruct H as [H|H]; apply closing_lookup in H as [H|(_ & ? & _)];
      auto; discriminate.
Qed.

(** A connect request closes what the ref points to before it opens
    anything: no socket that existed before it is open after it. *)
Lemma connectWebSocket_one_open a :
  one_open a ->
  one_open (connectWebSocket a) /\
  forall ws, (ws < length (sockets a))%nat -> ~ open_transport (connectWebSocket a) ws.
Proof.
  intros Hinv.
  assert (Hclosed : forall ws,
    ~ open_transport (match wsRef a with
                      | Some w => close_socket w a
                      | None => a
                      end) ws).
  { intros ws Hopen. destruct (wsRef a) as [w|] eqn:Hw.
    - unfold open_transport, close_socket in Hopen. destruct a; simpl in *.
      apply closing_open in Hopen as [Hne Hopen].
      specialize (Hinv ws Hopen). simpl in Hinv. congruence.
    - specialize (Hinv ws Hopen). congruence. }
  unfold connectWebSocket.
  set (a1 := match wsRef a with Some w => close_socket w a | None => a end) in *.
  assert (Hlen : length (sockets a1) = length (sockets a)).
  { subst a1. destruct (wsRef a); [|reflexivity].
    destruct a; simpl. apply closing_length. }
  destruct (isCleanedUp a1).
  - split; [intros ws Hopen; destruct (Hclosed ws Hopen)|intros ws _; apply Hclosed].
  - assert (Hnew : forall ws,
      open_transport (set_wsRef (Some (length (sockets a1)))
                        (set_sockets (fun ss => (ss ++ [CONNECTING])%list) a1)) ws ->
      ws = length (sockets a1)).
    { intros ws Hopen. unfold open_transport in Hopen.
      destruct (decide (ws < length (sockets a1))%nat) as [Hlt|Hge].
      - exfalso. apply (Hclosed ws). unfold open_transport.
        destruct a1; simpl in *. rewrite lookup_app_l in Hopen by exact Hlt. exact Hopen.
      - destruct a1; simpl in *.
        destruct Hopen as [Hopen|Hopen]; apply lookup_lt_Some in Hopen;
          rewrite length_app in Hopen; simpl in Hopen; lia. }
    simpl. split.
    + intros ws Hopen. rewrite (Hnew ws Hopen). destruct a1; reflexivity.
    + intros ws Hlt Hopen. apply Hnew in Hopen. lia.
Qed.

Lemma insert_open (ss : list ReadyState) ws st i :
  (ss !! ws = Some CONNECTING \/ ss !! ws = Some OPEN \/ st = CLOSED) ->
  <[ws := st]> ss !! i = Some CONNECTING \/ <[ws := st]> ss !! i = Some OPEN ->
  ss !! i = Some CONNECTING \/ ss !! i = Some OPEN.
Proof.
  intros Hws [H|H]; apply list_lookup_insert_Some in H as [(-> & -> & _)|[_ H]];
    auto; destruct Hws as [?|[?|?]]; auto; discriminate.
Qed.

Section OneOpen.
Context (host : Host).

Lemma step_one_open e a a' : one_open a -> step host e a = Some a' -> one_open a'.
Proof.
  intros Hinv H. destruct e; simpl in H.
  - destruct (sockets a !! ws) as [[]|] eqn:Hws; try discriminate.
    injection H as <-. intros i Hopen. unfold open_transport in Hopen.
    destruct a; simpl in *. apply (Hinv i).
    unfold open_transport; simpl. eapply insert_open; [|exact Hopen]. auto.
  - destruct (sockets a !! ws) as [[]|]; try discriminate. injection H as <-.
    destruct (store_update_fields _ _ (onmessage_store_update host parsed a))
      as (_ & _ & _ & Hw & _ & _ & Hs & _).
    intros i Hopen. unfold open_transport in Hopen. rewrite Hs in Hopen.
    rewrite Hw. apply Hinv, Hopen.
  - destruct (sockets a !! ws) as [[]|]; try discriminate; injection H as <-;
      intros i Hopen; destruct a; apply (Hinv i Hopen).
  - assert (Ha' : a' = onclose (set_sockets (fun ss => <[ws:=CLOSED]> ss) a))
      by (destruct (sockets a !! ws) as [[]|]; congruence).
    subst a'. intros i Hopen. unfold open_transport, onclose, setTimeout in Hopen.
    unfold onclose, setTimeout.
    destruct a as [? ? ? ? ? ? ? [] ? ? ? ? ?]; simpl in *; apply (Hinv i);
      unfold open_transport; simpl; (eapply insert_open; [|exact Hopen]); auto.
  - destruct (0 <=? ms)%Z; [|discriminate]. injection H as <-.
    intros i Hopen. destruct a; apply (Hinv i Hopen).
  - destruct (timers a !! t) as [due|]; [|discriminate].
    destruct (due <=? clock_ms a)%Z; [|discriminate]. injection H as <-.
    unfold reconnect. apply connectWebSocket_one_open.
    intros i Hopen. destruct a; apply (Hinv i Hopen).
  - injection H as <-. intros i Hopen. exfalso.
    unfold open_transport, cleanup, clearTimeout, close_socket in Hopen.
    destruct a as [? ? ? ? [w|] [[|n]|] ? ? ? ? ? ? ?]; simpl in *;
      try (apply closing_open in Hopen as [Hne Hopen]);
      specialize (Hinv i Hopen); simpl in Hinv; congruence.
  - injection H as <-. intros i Hopen. destruct a; apply (Hinv i Hopen).
  - injection H as <-. intros i Hopen. destruct a; apply (Hinv i Hopen).
  - injection H as <-. apply connectWebSocket_one_open, Hinv.
Qed.

Lemma run_one_open es : forall a a', one_open a -> run host es a = Some a' -> one_open a'.
Proof.
  induction es as [|e es IH]; intros a a' Hinv H; simpl in H.
  - injection H as <-. exact Hinv.
  - destruct (step host e a) as [a1|] eqn:Hstep; [|discriminate].
    apply (IH a1 a'); [|exact H]. apply (step_one_open e a a1 Hinv Hstep).
Qed.

Lemma empty_app_one_open : one_open empty_app.
Proof. intros ws [H|H]; discriminate H. Qed.
End OneOpen.

(** C4.  Whatever happens to the component (connect requests from
    anywhere included), at most one transport is open, namely the one
    the ref points to; and a connect request leaves no socket open that
    existed before it, so two connect requests in a row never leave two
    open transports. *)
Theorem at_most_one_open_transport (host : Host) (es : list Event) (a : App) :
  run host es empty_app = Some a ->
  (forall i j, open_transport a i -> open_transport a j -> i = j) /\
  (forall ws, (ws < length (sockets a))%nat -> ~ open_transport (connectWebSocket a) ws) /\
  (forall i j, open_transport (connectWebSocket (connectWebSocket a)) i ->
               open_transport (connectWebSocket (connectWebSocket a)) j -> i = j).
Proof.
  intros Hrun.
  pose proof (run_one_open host es empty_app a (empty_app_one_open) Hrun) as Hinv.
  split; [|split].
  - intros i j. apply one_open_unique, Hinv.
  - apply connectWebSocket_one_open, Hinv.
  - intros i j. apply one_open_unique.
    apply connectWebSocket_one_open, connectWebSocket_one_open, Hinv.
Qed.

Lemma at_most_one_open_transport_witness :
  run demo_host connect_thrice empty_app = Some connect_thrice_end /\
  sockets connect_thrice_end = [CLOSED; CLOSING; CONNECTING] /\
  (forall i j, open_transport connect_thrice_end i ->
               open_transport connect_thrice_end j -> i = j).
Proof.
  assert (Hrun : run demo_host connect_thrice empty_app = Some connect_thrice_end)
    by (vm_compute; reflexivity).
  split; [exact Hrun|]. split; [reflexivity|].
  apply (at_most_one_open_transport demo_host connect_thrice connect_thrice_end Hrun).
Defined.

(** ** Reconnection and teardown *)

Lemma conn_inv_sockets c r ss ss' tm nt :
  conn_inv c r ss tm nt -> no_new_live ss ss' -> conn_inv c r ss' tm nt.
Proof.
  intros [Hc Hr Hcl Hone Hn] Hmono. constructor; auto.
  - intros t due ws st Ht Hws. destruct (decide (st = CLOSED)) as [|Hne]; [assumption|].
    destruct (Hmono ws st Hws Hne) as (st0 & Hst0 & Hne0).
    destruct Hne0. eapply Hcl; eauto.
  - intros i j si sj Hi Hsi Hj Hsj.
    destruct (Hmono i si Hi Hsi) as (si0 & Hi0 & Hsi0).
    destruct (Hmono j sj Hj Hsj) as (sj0 & Hj0 & Hsj0).
    eapply Hone; eauto.
Qed.

Lemma no_new_live_refl ss : no_new_live ss ss.
Proof. intros i st H Hne. eauto. Qed.

Lemma no_new_live_insert ss ws st0 st :
  ss !! ws = Some st0 -> st0 <> CLOSED -> no_new_live ss (<[ws := st]> ss).
Proof.
  intros Hws Hne i st' Hi Hst'.
  apply list_lookup_insert_Some in Hi as [(-> & _ & _)|[_ Hi]]; eauto.
Qed.

Lemma no_new_live_closing ss ws : no_new_live ss (closing ws ss).
Proof.
  intros i st' Hi Hst'.
  apply closing_lookup in Hi as [Hi|(_ & _ & [Hi|Hi])]; eauto;
    eexists; (split; [exact Hi|discriminate]).
Qed.

Lemma conn_inv_no_timers c r ss tm nt :
  conn_inv c r ss tm nt -> forall ws st, ss !! ws = Some st -> st <> CLOSED -> tm = ∅.
Proof.
  intros Hinv ws st Hws Hne. apply map_empty. intros t.
  destruct (tm !! t) as [due|] eqn:Ht; [|reflexivity].
  destruct Hne. eapply (inv_timer_closed _ _ _ _ _ Hinv); eauto.
Qed.

(** A close event before teardown: the status handler arms the one
    pending timer. *)
Lemma conn_inv_close r ss tm nt ws st due :
  conn_inv false r ss tm nt -> ss !! ws = Some st -> st <> CLOSED ->
  conn_inv false (Some nt) (<[ws := CLOSED]> ss) (<[nt := due]> tm) (S nt).
Proof.
  intros Hinv Hws Hne.
  pose proof (conn_inv_no_timers _ _ _ _ _ Hinv ws st Hws Hne) as ->.
  assert (Hall : forall j sj, <[ws := CLOSED]> ss !! j = Some sj -> sj = CLOSED).
  { intros j sj Hj. apply list_lookup_insert_Some in Hj as [(_ & <- & _)|[Hne' Hj]];
      [reflexivity|].
    destruct (decide (sj = CLOSED)) as [|Hsj]; [assumption|].
    destruct Hne'. eapply (inv_one_live _ _ _ _ _ Hinv); eauto. }
  constructor.
  - discriminate.
  - intros t d Ht. apply lookup_insert_Some in Ht as [[<- _]|[_ Ht]].
    + split; [reflexivity|apply (inv_next _ _ _ _ _ Hinv)].
    + rewrite lookup_empty in Ht. discriminate.
  - intros t d j sj _ Hj. eapply Hall, Hj.
  - intros i j si sj Hi Hsi. destruct Hsi. eapply Hall, Hi.
  - discriminate.
Qed.

(** A due timer fires: it was the only one, every socket has had its
    close event, and the new socket is the only live one. *)
Lemma conn_inv_timer c r ss tm nt t due :
  conn_inv c r ss tm nt -> tm !! t = Some due ->
  c = false /\ (forall w, closing w ss = ss) /\
  conn_inv false r (ss ++ [CONNECTING]) (delete t tm) nt.
Proof.
  intros Hinv Ht.
  assert (Hc : c = false).
  { destruct c; [|reflexivity]. rewrite (inv_cleaned _ _ _ _ _ Hinv eq_refl) in Ht.
    rewrite lookup_empty in Ht. discriminate. }
  assert (Hall : forall i st, ss !! i = Some st -> st = CLOSED)
    by (intros i st; apply (inv_timer_closed _ _ _ _ _ Hinv t due i st Ht)).
  assert (Hnone : forall t' d, delete t tm !! t' = Some d -> False).
  { intros t' d Ht'. apply lookup_delete_Some in Ht' as [Hne Ht'].
    destruct (inv_timer_ref _ _ _ _ _ Hinv t due Ht) as [Hr _].
    destruct (inv_timer_ref _ _ _ _ _ Hinv t' d Ht') as [Hr' _]. congruence. }
  split; [exact Hc|]. split; [intros w; apply closing_closed_all, Hall|].
  constructor.
  - discriminate.
  - intros t' d Ht'. destruct (Hnone t' d Ht').
  - intros t' d j sj Ht'. destruct (Hnone t' d Ht').
  - intros i j si sj Hi Hsi Hj Hsj.
    apply lookup_app_Some in Hi as [Hi|[Hi1 Hi2]]; [destruct Hsi; eapply Hall, Hi|].
    apply lookup_app_Some in Hj as [Hj|[Hj1 Hj2]]; [destruct Hsj; eapply Hall, Hj|].
    apply lookup_lt_Some in Hi2, Hj2. simpl in Hi2, Hj2. lia.
  - apply (inv_next _ _ _ _ _ Hinv).
Qed.

Lemma handle_truthy_spec r : handle_truthy r = true <-> exists n, r = Some (S n).
Proof.
  destruct r as [[|n]|]; simpl; split; intros H; try discriminate; eauto;
    destruct H as [m H]; discriminate.
Qed.

(** Teardown: cancelling the timer the ref holds leaves none pending. *)
Lemma conn_inv_cancel c r ss tm nt :
  conn_inv c r ss tm nt ->
  (if handle_truthy r then match r with Some t => delete t tm | None => tm end else tm) = ∅.
Proof.
  intros Hinv. apply map_empty. intros t'.
  destruct (tm !! t') as [d|] eqn:Ht'.
  - destruct (inv_timer_ref _ _ _ _ _ Hinv t' d Ht') as [-> Hne].
    destruct t' as [|n]; [congruence|]. simpl. apply lookup_delete_eq.
  - destruct (handle_truthy r); [|exact Ht'].
    destruct r as [t|]; [|exact Ht'].
    apply lookup_delete_None. auto.
Qed.

Lemma conn_inv_torn_down c r ss tm nt :
  conn_inv c r ss tm nt -> conn_inv true r ss ∅ nt.
Proof.
  intros Hinv. constructor.
  - reflexivity.
  - intros t due Ht. rewrite lookup_empty in Ht. discriminate.
  - intros t due ws st Ht. rewrite lookup_empty in Ht. discriminate.
  - apply (inv_one_live _ _ _ _ _ Hinv).
  - apply (inv_next _ _ _ _ _ Hinv).
Qed.

(** What teardown leaves behind, field by field. *)
Lemma cleanup_fields a :
  cleanup a =
  mkApp (logs a) (isConnected a) (connectionStatus a) (filterLevel a)
        None (reconnectTimeoutRef a) (logCounterRef a) true
        (match wsRef a with
         | Some ws => closing ws (sockets a)
         | None => sockets a
         end)
        (if handle_truthy (reconnectTimeoutRef a) then
           match reconnectTimeoutRef a with
           | Some t => delete t (timers a)
           | None => timers a
           end
         else timers a)
        (nextTimer a) (clock_ms a) (hostCalls a).
Proof.
  unfold cleanup, clearTimeout, close_socket.
  destruct a as [? ? ? ? [w|] [[|n]|] ? ? ? ? ? ? ?]; reflexivity.
Qed.

Lemma cleanup_inv a :
  lifecycle_inv a ->
  timers (cleanup a) = ∅ /\ isCleanedUp (cleanup a) = true /\ lifecycle_inv (cleanup a).
Proof.
  intros Hinv. unfold lifecycle_inv in *. rewrite cleanup_fields. simpl.
  rewrite (conn_inv_cancel _ _ _ _ _ Hinv).
  split; [reflexivity|]. split; [reflexivity|].
  apply conn_inv_torn_down in Hinv.
  eapply conn_inv_sockets; [exact Hinv|].
  destruct (wsRef a); [apply no_new_live_closing|apply no_new_live_refl].
Qed.

Lemma mounted_inv : lifecycle_inv mounted.
Proof.
  constructor; simpl.
  - discriminate.
  - intros t due Ht. rewrite lookup_empty in Ht. discriminate.
  - intros t due ws st Ht. rewrite lookup_empty in Ht. discriminate.
  - intros [|i] [|j] si sj Hi _ Hj _; try reflexivity; discriminate.
  - discriminate.
Qed.

Section Teardown.
Context (host : Host).

Lemma own_step_inv e a a' :
  own_event e = true -> lifecycle_inv a -> step host e a = Some a' -> lifecycle_inv a'.
Proof.
  intros Hown Hinv H. unfold lifecycle_inv in *. destruct e; simpl in H.
  - destruct (sockets a !! ws) as [[]|] eqn:Hws; try discriminate.
    injection H as <-. destruct a; simpl in *.
    eapply conn_inv_sockets; [exact Hinv|].
    eapply no_new_live_insert; [exact Hws|discriminate].
  - destruct (sockets a !! ws) as [[]|]; try discriminate. injection H as <-.
    destruct (store_update_fields _ _ (onmessage_store_update host parsed a))
      as (_ & _ & _ & _ & -> & -> & -> & -> & -> & _).
    exact Hinv.
  - destruct (sockets a !! ws) as [[]|]; try discriminate; injection H as <-;
      destruct a; exact Hinv.
  - assert (Hlive : exists st, sockets a !! ws = Some st /\ st <> CLOSED /\
              a' = onclose (set_sockets (fun ss => <[ws:=CLOSED]> ss) a)).
    { destruct (sockets a !! ws) as [[]|]; try discriminate;
        injection H as <-; eexists; (split; [reflexivity|]);
        (split; [discriminate|reflexivity]). }
    destruct Hlive as (st & Hws & Hne & ->). unfold onclose, setTimeout.
    destruct a as [? ? ? ? ? ? ? [] ? ? ? ? ?]; simpl in *.
    + eapply conn_inv_sockets; [exact Hinv|].
      eapply no_new_live_insert; [exact Hws|exact Hne].
    + eapply conn_inv_close; [exact Hinv|exact Hws|exact Hne].
  - destruct (0 <=? ms)%Z; [|discriminate]. injection H as <-.
    destruct a; exact Hinv.
  - destruct (timers a !! t) as [due|] eqn:Ht; [|discriminate].
    destruct (due <=? clock_ms a)%Z; [|discriminate]. injection H as <-.
    destruct (conn_inv_timer _ _ _ _ _ _ _ Hinv Ht) as (Hc & Hclosed & Hinv').
    unfold reconnect, connectWebSocket, clearTimeout, close_socket.
    destruct a as [? ? ? ? [w|] ? ? ? ? ? ? ? ?]; simpl in *; subst; simpl;
      rewrite ?Hclosed; exact Hinv'.
  - injection H as <-. apply cleanup_inv, Hinv.
  - injection H as <-. destruct a; exact Hinv.
  - injection H as <-. destruct a; exact Hinv.
  - discriminate Hown.
Qed.

Lemma own_run_inv es :
  forall a a', forallb own_event es = true -> lifecycle_inv a ->
  run host es a = Some a' -> lifecycle_inv a'.
Proof.
  induction es as [|e es IH]; intros a a' Hown Hinv H; simpl in H.
  - injection H as <-. exact Hinv.
  - simpl in Hown. apply andb_true_iff in Hown as [He Hes].
    destruct (step host e a) as [a1|] eqn:Hstep; [|discriminate].
    apply (IH a1 a' Hes); [|exact H]. apply (own_step_inv e a a1 He Hinv Hstep).
Qed.

(** After teardown the flag stops every handler: whatever comes, no
    socket is constructed and no timer is armed. *)
Lemma torn_down_step e a a' :
  isCleanedUp a = true -> timers a = ∅ -> step host e a = Some a' ->
  isCleanedUp a' = true /\ timers a' = ∅ /\ length (sockets a') = length (sockets a).
Proof.
  intros Hc Ht H. destruct e; simpl in H.
  - destruct (sockets a !! ws) as [[]|]; try discriminate. injection H as <-.
    destruct a; simpl in *. rewrite length_insert. auto.
  - destruct (sockets a !! ws) as [[]|]; try discriminate. injection H as <-.
    destruct (store_update_fields _ _ (onmessage_store_update host parsed a))
      as (_ & _ & _ & _ & _ & -> & -> & -> & _). auto.
  - destruct (sockets a !! ws) as [[]|]; try discriminate; injection H as <-;
      destruct a; simpl in *; auto.
  - assert (Ha' : a' = onclose (set_sockets (fun ss => <[ws:=CLOSED]> ss) a))
      by (destruct (sockets a !! ws) as [[]|]; congruence).
    subst a'. unfold onclose. destruct a; simpl in *. subst. simpl.
    rewrite length_insert. auto.
  - destruct (0 <=? ms)%Z; [|discriminate]. injection H as <-.
    destruct a; simpl in *; auto.
  - rewrite Ht, lookup_empty in H. discriminate.
  - injection H as <-. rewrite cleanup_fields. simpl. rewrite Ht.
    split; [reflexivity|]. split.
    + destruct (handle_truthy (reconnectTimeoutRef a)); [|reflexivity].
      destruct (reconnectTimeoutRef a); [apply delete_empty|reflexivity].
    + destruct (wsRef a); [apply closing_length|reflexivity].
  - injection H as <-. destruct a; simpl in *; auto.
  - injection H as <-. destruct a; simpl in *; auto.
  - injection H as <-. unfold connectWebSocket, close_socket.
    destruct a as [? ? ? ? [w|] ? ? ? ? ? ? ? ?]; simpl in *; subst; simpl;
      rewrite ?closing_length; auto.
Qed.

Lemma torn_down_run es :
  forall a a', isCleanedUp a = true -> timers a = ∅ -> run host es a = Some a' ->
  isCleanedUp a' = true /\ timers a' = ∅ /\ length (sockets a') = length (sockets a).
Proof.
  induction es as [|e es IH]; intros a a' Hc Ht H; simpl in H.
  - injection H as <-. auto.
  - destruct (step host e a) as [a1|] eqn:Hstep; [|discriminate].
    destruct (torn_down_step e a a1 Hc Ht Hstep) as (Hc1 & Ht1 & Hl1).
    destruct (IH a1 a' Hc1 Ht1 H) as (Hc' & Ht' & Hl'). rewrite <- Hl1. auto.
Qed.
End Teardown.

(** C5.  In any run of the component from its mount, a teardown that
    comes while a reconnect timer is pending and its delay has not yet
    elapsed cancels that timer, and from then on, whatever happens, no
    socket is ever constructed and no timer is ever pending again: with
    the flag set, the timer callback's connect request constructs
    nothing and a close signal arms nothing. *)
Theorem teardown_stops_reconnecting (host : Host) (pre post : list Event)
    (a a' : App) (t : nat) (due : Z) :
  forallb own_event pre = true ->
  run host pre mounted = Some a ->
  timers a !! t = Some due ->
  clock_ms a < due ->
  run host post (cleanup a) = Some a' ->
  timers (cleanup a) = ∅ /\
  isCleanedUp a' = true /\
  timers a' = ∅ /\
  length (sockets a') = length (sockets (cleanup a)) /\
  length (sockets (reconnect a')) = length (sockets a') /\
  timers (onclose a') = ∅.
Proof.
  intros Hown Hpre _ _ Hpost.
  pose proof (own_run_inv host pre mounted a Hown mounted_inv Hpre) as Hinv.
  destruct (cleanup_inv a Hinv) as (Ht0 & Hc0 & _).
  destruct (torn_down_run host post (cleanup a) a' Hc0 Ht0 Hpost) as (Hc & Ht & Hl).
  repeat split; auto.
  - unfold reconnect, connectWebSocket, close_socket.
    destruct a' as [? ? ? ? [w|] ? ? ? ? ? ? ? ?]; simpl in *; subst; simpl;
      rewrite ?closing_length; reflexivity.
  - unfold onclose. destruct a'; simpl in *; subst; reflexivity.
Qed.

Lemma teardown_stops_reconnecting_witness :
  timers closed_once_end !! 1%nat = Some 3000 /\
  clock_ms closed_once_end = 1000 /\
  timers (cleanup closed_once_end) = ∅ /\
  isCleanedUp after_teardown_end = true /\
  timers after_teardown_end = ∅ /\
  length (sockets after_teardown_end) = length (sockets (cleanup closed_once_end)).
Proof.
  destruct (teardown_stops_reconnecting demo_host closed_once after_teardown
              closed_once_end after_teardown_end 1%nat 3000)
    as (H1 & H2 & H3 & H4 & _).
  - reflexivity.
  - vm_compute. reflexivity.
  - vm_compute. reflexivity.
  - reflexivity.
  - vm_compute. reflexivity.
  - split; [vm_compute; reflexivity|]. split; [reflexivity|]. auto.
Defined.

(** C6 (amended).  In any run of the component from its mount, teardown
    sets the flag, cancels the timer the timer ref holds, which leaves
    none pending, closes the socket the socket ref points to and sets
    the socket ref to null; the timer ref keeps its handle, and the
    store, the status, the filter, the clock and the handle counter are
    as before. *)
Theorem teardown_effect (host : Host) (pre : list Event) (a : App) :
  forallb own_event pre = true ->
  run host pre mounted = Some a ->
  cleanup a =
    mkApp (logs a) (isConnected a) (connectionStatus a) (filterLevel a)
          None (reconnectTimeoutRef a) (logCounterRef a) true
          (match wsRef a with
           | Some ws => closing ws (sockets a)
           | None => sockets a
           end)
          ∅ (nextTimer a) (clock_ms a) (hostCalls a) /\
  (forall ws, wsRef a = Some ws -> ~ open_transport (cleanup a) ws) /\
  (forall ws, open_transport (cleanup a) ws -> False).
Proof.
  intros Hown Hpre.
  pose proof (own_run_inv host pre mounted a Hown mounted_inv Hpre) as Hinv.
  assert (Heq : cleanup a =
    mkApp (logs a) (isConnected a) (connectionStatus a) (filterLevel a)
          None (reconnectTimeoutRef a) (logCounterRef a) true
          (match wsRef a with
           | Some ws => closing ws (sockets a)
           | None => sockets a
           end)
          ∅ (nextTimer a) (clock_ms a) (hostCalls a)).
  { rewrite cleanup_fields. f_equal. apply (conn_inv_cancel _ _ _ _ _ Hinv). }
  split; [exact Heq|]. split.
  - intros ws Hws. rewrite Heq. unfold open_transport. simpl. rewrite Hws.
    destruct (closing_not_open ws (sockets a)). tauto.
  - intros ws Hopen. rewrite Heq in Hopen. unfold open_transport in Hopen.
    simpl in Hopen.
    assert (Hone : one_open a).
    { apply (run_one_open host (EvConnect :: pre) empty_app a empty_app_one_open).
      exact Hpre. }
    destruct (wsRef a) as [w|] eqn:Hw.
    + apply closing_open in Hopen as [Hne Hopen].
      specialize (Hone ws Hopen). congruence.
    + specialize (Hone ws Hopen). congruence.
Qed.

Lemma teardown_effect_witness :
  cleanup closed_once_end =
    mkApp [] false "Disconnected" "ALL" None (Some 1%nat) 0 true [CLOSED] ∅ 2 1000 0.
Proof.
  destruct (teardown_effect demo_host closed_once closed_once_end) as (H & _).
  - reflexivity.
  - vm_compute. reflexivity.
  - rewrite H. reflexivity.
Defined.

(** C6 as stated fails: after the first close event the timer ref holds
    handle 1, and teardown leaves it there instead of setting it to
    null. *)
Lemma teardown_keeps_timer_ref :
  run demo_host closed_once mounted = Some closed_once_end /\
  reconnectTimeoutRef closed_once_end = Some 1%nat /\
  reconnectTimeoutRef (cleanup closed_once_end) = Some 1%nat /\
  reconnectTimeoutRef (cleanup closed_once_end) <> None.
Proof.
  split; [vm_compute; reflexivity|]. split; [reflexivity|].
  split; [reflexivity|discriminate].
Qed.

(** * Further properties of the code *)

(** ** Frames that are not history batches *)

Lemma peek_obj k fields : peek (VObj fields) k = field k fields.
Proof. reflexivity. Qed.

Lemma onmessage_null (host : Host) data a :
  is_nullish data = true -> onmessage host (Some data) a = a.
Proof. intros Hnull. destruct data; try discriminate; reflexivity. Qed.

Lemma onmessage_live (host : Host) data a :
  is_nullish data = false -> is_history (Some data) = false ->
  onmessage host (Some data) a =
  if appends_record data then
    set_hostCalls (live_calls data + hostCalls a)
      (set_logs (fun prevLogs =>
                   (prevLogs ++ [live_record host data (hostCalls a)
                                   (logCounterRef a)])%list)
         (set_logCounterRef (logCounterRef a + 1) a))
  else a.
Proof.
  intros Hnn Hnh. destruct a.
    destruct data as [| |b|q|s|items|fields]; try discriminate; try reflexivity.
    unfold is_history in Hnh. simpl in Hnh.
    unfold onmessage, try_catch, classify, has_all_three, structured_branch,
      log_branch, fallback_branch, appends_record, live_record, live_calls,
      live_id, or_time, structured_flag, append_log, incr_counter, get, lift,
      modify, read, Date_now_call, Math_random_call, new_Date_toLocaleTimeString,
      host_call, js_or, mbind, M_bind, mret, M_ret.
    rewrite !peek_obj. cbn [prop fst snd]. rewrite Hnh.
    destruct (truthy (field "timestamp" fields)) eqn:Hts;
      destruct (truthy (field "level" fields)) eqn:Hlv;
      destruct (truthy (field "message" fields)) eqn:Hms;
      destruct (strict_eq_str (field "type" fields) "log") eqn:Hty;
      destruct (is_defined (field "isStructured" fields)) eqn:Hst;
      cbn; rewrite ?Hts, ?Hlv, ?Hms, ?Hty, ?Hst; cbn;
      rewrite ?Hts, ?Hlv, ?Hms, ?Hty, ?Hst; reflexivity.
Qed.

(** X1.  The three rules for live frames agree: a decoded frame that is
    not a history batch appends a record exactly when its [type] is
    "log" or its [message] is truthy, and the record is the one the
    "log" rule builds (missing timestamp: the clock; missing level:
    "INFO"; missing message: the frame as JSON).  A frame that does not
    decode, that decodes to [null], or that matches no rule changes
    nothing at all. *)
Theorem live_frame_closed_form (host : Host) :
  (forall a, onmessage host None a = a) /\
  (forall data a, is_nullish data = true -> onmessage host (Some data) a = a) /\
  (forall data a,
     is_nullish data = false -> is_history (Some data) = false ->
     onmessage host (Some data) a =
     if appends_record data then
       set_hostCalls (live_calls data + hostCalls a)
         (set_logs (fun prevLogs =>
                      (prevLogs ++ [live_record host data (hostCalls a)
                                      (logCounterRef a)])%list)
            (set_logCounterRef (logCounterRef a + 1) a))
     else a).
Proof.
  split; [reflexivity|]. split.
  - intros data a. apply onmessage_null.
  - intros data a. apply onmessage_live.
Qed.

Lemma live_frame_closed_form_witness :
  logs (onmessage demo_host frame_info empty_app)
  = [mkLog "log-5-0.5" 1 (VStr "12:00:01") (VStr "info") (VStr "x") (VBool true) false].
Proof.
  destruct (live_frame_closed_form demo_host) as (_ & _ & H).
  unfold frame_info. rewrite H; reflexivity.
Defined.

(** ** History batches, entry by entry *)

Lemma process_history_closed (host : Host) log index a :
  is_nullish log = false ->
  process_history host log index a =
  (Ok (history_record host log index (hostCalls a) (logCounterRef a)),
   set_hostCalls ((if truthy (peek log "timestamp") then 1 else 2) + hostCalls a)%nat
     (set_logCounterRef (logCounterRef a + 1) a)).
Proof.
  intros Hnn. destruct a.
  unfold process_history, history_record, or_time, structured_flag, incr_counter,
    get, lift, modify, read, Date_now_call, new_Date_toLocaleTimeString, host_call,
    js_or, peek, mbind, M_bind, mret, M_ret.
  destruct log as [| |b|q|s|items|fields]; try discriminate; try reflexivity.
  cbn [prop fst snd].
  destruct (truthy (field "timestamp" fields)) eqn:Hts;
    destruct (is_defined (field "isStructured" fields)) eqn:Hst;
    cbn; rewrite ?Hts, ?Hst; reflexivity.
Qed.

Lemma process_history_null (host : Host) log index a :
  is_nullish log = true ->
  process_history host log index a =
  (Throw, set_hostCalls (S (hostCalls a)) (set_logCounterRef (logCounterRef a + 1) a)).
Proof. intros Hn. destruct a. destruct log; try discriminate; reflexivity. Qed.

Lemma js_or_truthy a b : truthy b = true -> truthy (js_or a b) = true.
Proof. intros Hb. unfold js_or. destruct (truthy a) eqn:Ha; assumption. Qed.

Lemma bind_throw {A B : Type} (m : M A) (f : A -> M B) a a1 :
  m a = (Throw, a1) -> (m ≫= f) a = (Throw, a1).
Proof. intros H. unfold mbind, M_bind. rewrite H. reflexivity. Qed.

(** The second [.map] of the history branch on any array: the store is
    not touched and the counter only grows; when it returns, the
    records are numbered from the counter on, carry a truthy level and
    the history flag. *)
Lemma process_history_any (host : Host) items :
  forall index a out a',
  map_index (process_history host) items index a = (out, a') ->
  logs a' = logs a /\
  logCounterRef a <= logCounterRef a' /\
  forall rs, out = Ok rs ->
    lineNumber <$> rs = seqZ (logCounterRef a + 1) (Z.of_nat (length items)) /\
    logCounterRef a' = logCounterRef a + Z.of_nat (length items) /\
    Forall (fun r => truthy (level r) = true /\ isHistory r = true) rs.
Proof.
  induction items as [|e items IH]; intros index a out a' Hrun; simpl map_index in Hrun.
  - injection Hrun as <- <-. split; [reflexivity|]. split; [lia|].
    intros rs' [= <-]. simpl. split; [reflexivity|]. split; [lia|constructor].
  - destruct (is_nullish e) eqn:He.
    + rewrite (bind_throw _ _ _ _ (process_history_null host e index a He)) in Hrun.
      injection Hrun as <- <-. destruct a; simpl.
      split; [reflexivity|]. split; [lia|]. intros rs' H. discriminate H.
    + rewrite (bind_ok _ _ _ _ _ (process_history_closed host e index a He)) in Hrun.
      set (a1 := set_hostCalls _ _) in Hrun.
      assert (Ha1 : logs a1 = logs a /\ logCounterRef a1 = logCounterRef a + 1)
        by (subst a1; destruct a; split; reflexivity).
      destruct Ha1 as [Hl1 Hc1].
      destruct (map_index (process_history host) items (S index) a1) as [out1 a2] eqn:Hrest.
      destruct (IH (S index) a1 out1 a2 Hrest) as (Hl & Hc & Hok).
      destruct out1 as [rs|].
      * rewrite (bind_ok _ _ _ _ _ Hrest) in Hrun. injection Hrun as <- <-.
        split; [congruence|]. split; [lia|].
        intros rs' [= <-]. destruct (Hok rs eq_refl) as (Hn & Hc2 & Hall).
        split; [|split].
        -- rewrite fmap_cons, Hn, Hc1.
           rewrite (seqZ_cons (logCounterRef a + 1)) by (simpl length; lia).
           f_equal. f_equal; simpl length; lia.
        -- simpl length. lia.
        -- constructor; [|exact Hall]. split; [|reflexivity].
           apply js_or_truthy. reflexivity.
      * rewrite (bind_throw _ _ _ _ Hrest) in Hrun. injection Hrun as <- <-.
        split; [congruence|]. split; [lia|]. intros rs' H. discriminate H.
Qed.

(** An array whose first [null] sits after [length pre] good entries:
    the callback raises there, after the counter has been incremented
    for each entry up to and including the [null]. *)
Lemma process_history_until_null (host : Host) pre e post :
  forall index a,
  Forall (fun x => is_nullish x = false) pre -> is_nullish e = true ->
  exists a', map_index (process_history host) (pre ++ e :: post) index a = (Throw, a') /\
             logs a' = logs a /\
             logCounterRef a' = logCounterRef a + Z.of_nat (length pre) + 1.
Proof.
  induction pre as [|x pre IH]; intros index a Hpre He; simpl.
  - unfold mbind, M_bind. rewrite (process_history_null host e index a He).
    eexists. split; [reflexivity|]. destruct a; simpl. split; [reflexivity|lia].
  - inversion Hpre as [|? ? Hx Hrest]; subst.
    unfold mbind at 1, M_bind at 1.
    rewrite (process_history_closed host x index a Hx).
    set (a1 := set_hostCalls _ _).
    destruct (IH (S index) a1 Hrest He) as (a' & Hrun & Hl & Hc).
    unfold mbind, M_bind. rewrite Hrun.
    exists a'. split; [reflexivity|].
    subst a1. destruct a; simpl in *. split; [exact Hl|lia].
Qed.

Lemma first_null (items : list value) :
  Forall (fun x => is_nullish x = false) items \/
  exists pre e post, items = (pre ++ e :: post)%list /\
                     Forall (fun x => is_nullish x = false) pre /\
                     is_nullish e = true.
Proof.
  induction items as [|x items IH]; [left; constructor|].
  destruct (is_nullish x) eqn:Hx.
  - right. exists [], x, items. auto.
  - destruct IH as [Hall|(pre & e & post & -> & Hpre & He)].
    + left. constructor; assumption.
    + right. exists (x :: pre), e, post. repeat split; auto.
Qed.

Lemma process_history_records (host : Host) items :
  forall index a,
  Forall (fun x => is_nullish x = false) items ->
  exists rs a', map_index (process_history host) items index a = (Ok rs, a') /\
                Forall2 made_from items rs.
Proof.
  induction items as [|x items IH]; intros index a Hall; simpl map_index.
  - exists [], a. split; [reflexivity|constructor].
  - inversion Hall as [|? ? Hx Hrest]; subst.
    rewrite (bind_ok _ _ _ _ _ (process_history_closed host x index a Hx)).
    set (a1 := set_hostCalls _ _).
    destruct (IH (S index) a1 Hrest) as (rs & a' & Hrun & Hmade).
    rewrite (bind_ok _ _ _ _ _ Hrun).
    eexists _, a'. split; [reflexivity|].
    constructor; [|exact Hmade].
    unfold made_from, history_record. simpl. repeat split.
    intros Hts. rewrite Hts. reflexivity.
Qed.

Lemma history_line_objects (host : Host) lines :
  forall index a,
  exists es a', map_index (history_line host) lines index a = (Ok es, a') /\
    same_store a a' /\
    Forall2 (fun line e => exists t,
               e = VObj [("timestamp", VStr t); ("level", VStr "INFO");
                         ("message", VStr line); ("isStructured", VBool false)])
            lines es.
Proof.
  induction lines as [|line lines IH]; intros index a; simpl map_index.
  - exists [], a. split; [reflexivity|]. split; [apply same_store_refl|constructor].
  - assert (Hline : history_line host line index a =
      (Ok (VObj [("timestamp", VStr (toLocaleTimeString host (hostCalls a)));
                 ("level", VStr "INFO"); ("message", VStr line);
                 ("isStructured", VBool false)]),
       set_hostCalls (S (hostCalls a)) a)) by reflexivity.
    rewrite (bind_ok _ _ _ _ _ Hline).
    set (a1 := set_hostCalls (S (hostCalls a)) a).
    destruct (IH (S index) a1) as (es & a' & Hrun & Hsame & Hobjs).
    rewrite (bind_ok _ _ _ _ _ Hrun).
    eexists _, a'. split; [reflexivity|]. split.
    + eapply same_store_trans; [|exact Hsame]. subst a1. destruct a; split; reflexivity.
    + constructor; [eexists; reflexivity|exact Hobjs].
Qed.

Lemma strict_eq_str_true v lit : strict_eq_str v lit = true -> v = VStr lit.
Proof.
  destruct v; simpl; try discriminate. intros H. apply String.eqb_eq in H. congruence.
Qed.

Lemma is_history_type data :
  is_history (Some data) = true ->
  prop data "type" = Ok (VStr "HISTORY") /\ is_nullish data = false.
Proof.
  unfold is_history. destruct (prop data "type") as [ty|] eqn:Hty; [|discriminate].
  intros H. apply strict_eq_str_true in H. subst ty.
  split; [reflexivity|]. eapply prop_ok_not_nullish, Hty.
Qed.

Lemma process_and_set (host : Host) items a a0 :
  same_store a a0 ->
  batch_outcome a
    (snd ((processedHistory ← map_index (process_history host) items 0;
           modify (set_logs (fun _ => processedHistory))) a0)).
Proof.
  intros [Hl0 Hc0].
  destruct (map_index (process_history host) items 0 a0) as [out a1] eqn:Hrun.
  destruct (process_history_any host items 0%nat a0 out a1 Hrun) as (Hl & Hc & Hok).
  destruct out as [rs|].
  - rewrite (bind_ok _ _ _ _ _ Hrun).
    destruct (Hok rs eq_refl) as (Hn & Hc1 & Hall).
    unfold batch_outcome. destruct a1; simpl in *. split; [lia|]. right.
    split; [|exact Hall]. rewrite Hn, Hc1, Hc0. f_equal. lia.
  - rewrite (bind_throw _ _ _ _ Hrun). simpl.
    split; [lia|]. left. congruence.
Qed.

(** Any history frame. *)
Lemma history_frame_outcome (host : Host) data a :
  is_history (Some data) = true -> batch_outcome a (onmessage host (Some data) a).
Proof.
  intros Hh. destruct (is_history_type data Hh) as [Hty Hnn].
  rewrite onmessage_some, classify_history by exact Hty.
  destruct (prop_defined data "data" Hnn) as [payload Hdata].
  unfold history_branch. rewrite (bind_get_ok _ _ _ _ _ Hdata).
  destruct payload as [| |b|q|s|items|fields];
    try (split; [simpl; lia|right; destruct a; simpl;
                 split; [rewrite Z.sub_diag; reflexivity|constructor]]).
  - destruct (history_line_objects host (List.filter nonblank (split nl s)) 0%nat a)
      as (es & a0 & Hes & Hsame & _).
    rewrite (bind_ok _ _ _ _ _ Hes). apply process_and_set, Hsame.
  - rewrite (bind_ok (mret items : M (list value)) _ a items a eq_refl).
    apply process_and_set, same_store_refl.
Qed.

(** ** What stays true of the store *)

Lemma well_numbered_grow a a' :
  well_numbered a -> logs a' = logs a -> logCounterRef a <= logCounterRef a' ->
  well_numbered a'.
Proof.
  intros (H0 & Hb & Hs) Hl Hc. unfold well_numbered. rewrite Hl.
  split; [lia|]. split; [|exact Hs].
  intros i r Hi. specialize (Hb i r Hi). lia.
Qed.

Lemma well_numbered_append a a' r :
  well_numbered a -> logs a' = (logs a ++ [r])%list ->
  lineNumber r = logCounterRef a + 1 -> logCounterRef a' = logCounterRef a + 1 ->
  well_numbered a'.
Proof.
  intros (H0 & Hb & Hs) Hl Hn Hc. unfold well_numbered. rewrite Hl, Hc.
  split; [lia|]. split.
  - intros i x Hi. apply lookup_app_Some in Hi as [Hi|[_ Hi]].
    + specialize (Hb i x Hi). lia.
    + apply list_lookup_singleton_Some in Hi as [_ <-]. lia.
  - intros i j ri rj Hij Hi Hj.
    apply lookup_app_Some in Hj as [Hj|[Hlen Hj]].
    + apply lookup_app_Some in Hi as [Hi|[Hlen' _]].
      * eapply Hs; eauto.
      * apply lookup_lt_Some in Hj. lia.
    + apply list_lookup_singleton_Some in Hj as [Hj' <-].
      apply lookup_app_Some in Hi as [Hi|[Hlen' Hi]].
      * specialize (Hb i ri Hi). lia.
      * apply list_lookup_singleton_Some in Hi as [Hi' _]. lia.
Qed.

Lemma well_numbered_replace a a' :
  0 <= logCounterRef a -> logCounterRef a <= logCounterRef a' ->
  lineNumber <$> logs a' = seqZ (logCounterRef a + 1) (logCounterRef a' - logCounterRef a) ->
  well_numbered a'.
Proof.
  intros H0 Hc Hn.
  assert (Hnum : forall i r, logs a' !! i = Some r ->
                 lineNumber r = logCounterRef a + 1 + Z.of_nat i /\
                 Z.of_nat i < logCounterRef a' - logCounterRef a).
  { intros i r Hi.
    assert (Hi' : (lineNumber <$> logs a') !! i = Some (lineNumber r))
      by (rewrite list_lookup_fmap, Hi; reflexivity).
    rewrite Hn in Hi'. apply lookup_seqZ in Hi'. lia. }
  split; [lia|]. split.
  - intros i r Hi. specialize (Hnum i r Hi). lia.
  - intros i j ri rj Hij Hi Hj.
    pose proof (Hnum i ri Hi). pose proof (Hnum j rj Hj). lia.
Qed.

Lemma appends_effect (host : Host) data a :
  let a' := set_hostCalls (live_calls data + hostCalls a)
              (set_logs (fun prevLogs =>
                           (prevLogs ++ [live_record host data (hostCalls a)
                                           (logCounterRef a)])%list)
                 (set_logCounterRef (logCounterRef a + 1) a)) in
  logs a' = (logs a ++ [live_record host data (hostCalls a) (logCounterRef a)])%list /\
  logCounterRef a' = logCounterRef a + 1.
Proof. destruct a; split; reflexivity. Qed.

Lemma is_history_false_cases parsed :
  is_history parsed = false ->
  parsed = None \/
  (exists data, parsed = Some data /\ is_nullish data = true) \/
  (exists data, parsed = Some data /\ is_nullish data = false /\
                is_history (Some data) = false).
Proof.
  intros H. destruct parsed as [data|]; [|auto].
  right. destruct (is_nullish data) eqn:Hn; eauto.
Qed.

Section StoreInvariants.
Context (host : Host).

Lemma onmessage_well_numbered parsed a :
  well_numbered a -> well_numbered (onmessage host parsed a).
Proof.
  intros Hwn. destruct (is_history parsed) eqn:Hh.
  - destruct parsed as [data|]; [|discriminate].
    destruct (history_frame_outcome host data a Hh) as [Hc [Hl|[Hn _]]].
    + eapply well_numbered_grow; eauto.
    + eapply well_numbered_replace; eauto. apply Hwn.
  - destruct (is_history_false_cases parsed Hh)
      as [->|[(data & -> & Hn)|(data & -> & Hn & Hnh)]].
    + exact Hwn.
    + rewrite onmessage_null by exact Hn. exact Hwn.
    + rewrite (onmessage_live host data a Hn Hnh).
      destruct (appends_record data); [|exact Hwn].
      destruct (appends_effect host data a) as [Hl Hc].
      eapply well_numbered_append; eauto.
Qed.

Lemma onmessage_levels_truthy parsed a :
  levels_truthy a -> levels_truthy (onmessage host parsed a).
Proof.
  unfold levels_truthy. intros Hlv. destruct (is_history parsed) eqn:Hh.
  - destruct parsed as [data|]; [|discriminate].
    destruct (history_frame_outcome host data a Hh) as [_ [Hl|[_ Hall]]].
    + rewrite Hl. exact Hlv.
    + eapply Forall_impl; [exact Hall|]. intros r [Hr _]. exact Hr.
  - destruct (is_history_false_cases parsed Hh)
      as [->|[(data & -> & Hn)|(data & -> & Hn & Hnh)]].
    + exact Hlv.
    + rewrite onmessage_null by exact Hn. exact Hlv.
    + rewrite (onmessage_live host data a Hn Hnh).
      destruct (appends_record data); [|exact Hlv].
      destruct (appends_effect host data a) as [-> _].
      apply Forall_app. split; [exact Hlv|].
      constructor; [|constructor]. apply js_or_truthy. reflexivity.
Qed.

(** Everything but a frame and the clear button leaves the records and
    the counter alone. *)
Lemma step_keeps_store e a a' :
  store_event e = false -> step host e a = Some a' ->
  logs a' = logs a /\ logCounterRef a' = logCounterRef a.
Proof.
  intros He H. destruct e; try discriminate He; simpl in H.
  - destruct (sockets a !! ws) as [[]|]; try discriminate. injection H as <-.
    destruct a; split; reflexivity.
  - destruct (sockets a !! ws) as [[]|]; try discriminate; injection H as <-;
      destruct a; split; reflexivity.
  - assert (Ha' : a' = onclose (set_sockets (fun ss => <[ws:=CLOSED]> ss) a))
      by (destruct (sockets a !! ws) as [[]|]; congruence).
    subst a'. unfold onclose, setTimeout.
    destruct a as [? ? ? ? ? ? ? [] ? ? ? ? ?]; split; reflexivity.
  - destruct (0 <=? ms)%Z; [|discriminate]. injection H as <-.
    destruct a; split; reflexivity.
  - destruct (timers a !! t) as [due|]; [|discriminate].
    destruct (due <=? clock_ms a)%Z; [|discriminate]. injection H as <-.
    unfold reconnect, connectWebSocket, clearTimeout, close_socket.
    destruct a as [? ? ? ? [w|] ? ? [] ? ? ? ? ?]; split; reflexivity.
  - injection H as <-. rewrite cleanup_fields. split; reflexivity.
  - injection H as <-. destruct a; split; reflexivity.
  - injection H as <-. unfold connectWebSocket, close_socket.
    destruct a as [? ? ? ? [w|] ? ? [] ? ? ? ? ?]; split; reflexivity.
Qed.

Lemma run_invariant (P : App -> Prop) :
  (forall e a a', P a -> step host e a = Some a' -> P a') ->
  forall es a a', P a -> run host es a = Some a' -> P a'.
Proof.
  intros Hstep. induction es as [|e es IH]; intros a a' HP H; simpl in H.
  - injection H as <-. exact HP.
  - destruct (step host e a) as [a1|] eqn:He; [|discriminate].
    eapply IH; [|exact H]. eapply Hstep; eauto.
Qed.

Lemma step_well_numbered e a a' :
  well_numbered a -> step host e a = Some a' -> well_numbered a'.
Proof.
  intros Hwn H. destruct (store_event e) eqn:He.
  - destruct e; try discriminate He; simpl in H.
    + destruct (sockets a !! ws) as [[]|]; try discriminate. injection H as <-.
      apply onmessage_well_numbered, Hwn.
    + injection H as <-. destruct a. split; [simpl; lia|].
      split; simpl; intros i; intros; discriminate.
  - destruct (step_keeps_store e a a' He H) as [Hl Hc].
    eapply well_numbered_grow; eauto. lia.
Qed.

Lemma step_levels_truthy e a a' :
  levels_truthy a -> step host e a = Some a' -> levels_truthy a'.
Proof.
  intros Hlv H. destruct (store_event e) eqn:He.
  - destruct e; try discriminate He; simpl in H.
    + destruct (sockets a !! ws) as [[]|]; try discriminate. injection H as <-.
      apply onmessage_levels_truthy, Hlv.
    + injection H as <-. destruct a. constructor.
  - destruct (step_keeps_store e a a' He H) as [Hl _].
    unfold levels_truthy. rewrite Hl. exact Hlv.
Qed.
End StoreInvariants.

(** ** Numbering after a clear *)

Section ClearFacts.
Context (host : Host).




End ClearFacts.




(** ** The token the filter holds *)

(** The options of the select are the available levels. *)
Lemma render_filter_options (a : App) (screen : Screen) :
  render a = Ok screen -> logLevels (logs a) = Ok (filter_options screen).
Proof.
  unfold render. intros H.
  destruct (filteredLogs (logs a) (filterLevel a)) as [shown|]; [|discriminate].
  destruct (logLevels (logs a)) as [menu|]; [|discriminate]. simpl in H.
  destruct (length shown =? 0)%nat.
  - injection H as <-. reflexivity.
  - destruct (map_cb render_row shown) as [rows|]; [|discriminate].
    injection H as <-. reflexivity.
Qed.

Lemma offered_upper_case (a : App) (token : string) :
  offered a token = true -> toUpperCase token = token.
Proof.
  unfold offered. destruct (render a) as [screen|] eqn:Hscreen; [|discriminate].
  rewrite existsb_eqb_elem_of. intros Hin. apply bool_decide_eq_true in Hin.
  exact (menu_tokens_upper_case (logs a) (filter_options screen) token
           (render_filter_options a screen Hscreen) Hin).
Qed.

(** Only the select changes the token. *)
Lemma step_filterLevel (host : Host) e a a' :
  step host e a = Some a' ->
  filterLevel a' = match e with
                   | EvSetFilter token => token
                   | _ => filterLevel a
                   end.
Proof.
  intros H. destruct e; simpl in H.
  - destruct (sockets a !! ws) as [[]|]; try discriminate. injection H as <-.
    destruct a; reflexivity.
  - destruct (sockets a !! ws) as [[]|]; try discriminate. injection H as <-.
    apply (store_update_fields a (onmessage host parsed a)), onmessage_store_update.
  - destruct (sockets a !! ws) as [[]|]; try discriminate; injection H as <-;
      destruct a; reflexivity.
  - assert (Ha' : a' = onclose (set_sockets (fun ss => <[ws:=CLOSED]> ss) a))
      by (destruct (sockets a !! ws) as [[]|]; congruence).
    subst a'. unfold onclose, setTimeout.
    destruct a as [? ? ? ? ? ? ? [] ? ? ? ? ?]; reflexivity.
  - destruct (0 <=? ms)%Z; [|discriminate]. injection H as <-.
    destruct a; reflexivity.
  - destruct (timers a !! t) as [due|]; [|discriminate].
    destruct (due <=? clock_ms a)%Z; [|discriminate]. injection H as <-.
    unfold reconnect, connectWebSocket, clearTimeout, close_socket.
    destruct a as [? ? ? ? [w|] ? ? [] ? ? ? ? ?]; reflexivity.
  - injection H as <-. rewrite cleanup_fields. reflexivity.
  - injection H as <-. destruct a; reflexivity.
  - injection H as <-. destruct a; reflexivity.
  - injection H as <-. unfold connectWebSocket, close_socket.
    destruct a as [? ? ? ? [w|] ? ? [] ? ? ? ? ?]; reflexivity.
Qed.

(** The token stays its own upper-casing: it starts as "ALL" and every
    option of the select is an upper-cased level. *)
Lemma ui_run_token (host : Host) (es : list Event) :
  forall a a',
  toUpperCase (filterLevel a) = filterLevel a ->
  ui_run host es a = Some a' ->
  toUpperCase (filterLevel a') = filterLevel a'.
Proof.
  induction es as [|e es IH]; intros a a' Ha H; simpl in H.
  - injection H as <-. exact Ha.
  - destruct (deliverable e a) eqn:Hd; [|discriminate].
    destruct (step host e a) as [a1|] eqn:Hstep; [|discriminate].
    apply (IH a1 a'); [|exact H].
    rewrite (step_filterLevel host e a a1 Hstep).
    destruct e; try exact Ha. apply (offered_upper_case a token Hd).
Qed.

(** The runs in which the user picks from the select are runs. *)
Lemma ui_run_run (host : Host) (es : list Event) :
  forall a a', ui_run host es a = Some a' -> run host es a = Some a'.
Proof.
  induction es as [|e es IH]; intros a a' H; simpl in H |- *; [exact H|].
  destruct (deliverable e a); [|discriminate].
  destruct (step host e a) as [a1|]; [|discriminate]. apply IH, H.
Qed.

(** C7 (amended).  Whatever has happened to the component, with the
    user picking tokens from the select, the token [X] the filter holds
    is its own upper-casing, and for every store whose levels are
    strings the display list is the one the specification describes:
    the whole store when [X] is ALL, otherwise, in store order, exactly
    the records whose level, upper-cased, equals [X] upper-cased. *)
Theorem display_list_of_selected_token (host : Host) (es : list Event) (a : App) :
  ui_run host es empty_app = Some a ->
  toUpperCase (filterLevel a) = filterLevel a /\
  forall store,
    Forall has_string_level store ->
    filteredLogs store (filterLevel a) = Ok (claimed_display store (filterLevel a)) /\
    (filterLevel a = "ALL" -> claimed_display store (filterLevel a) = store) /\
    (filterLevel a <> "ALL" ->
     claimed_display store (filterLevel a)
     = filter (fun r => toUpperCase (level_text r) = toUpperCase (filterLevel a)) store).
Proof.
  intros Hrun.
  assert (Hup : toUpperCase (filterLevel a) = filterLevel a)
    by (apply (ui_run_token host es empty_app a); [reflexivity|exact Hrun]).
  split; [exact Hup|]. intros store Hall.
  split; [apply filteredLogs_upper_token; assumption|].
  unfold claimed_display. split.
  - intros ->. reflexivity.
  - intros Hne. destruct (String.eqb_spec (filterLevel a) "ALL"); [contradiction|reflexivity].
Qed.

Lemma display_list_of_selected_token_witness :
  ui_run demo_host pick_error empty_app = Some pick_error_end /\
  filterLevel pick_error_end = "ERROR" /\
  level <$> logs pick_error_end
    = [VStr "INFO"; VStr "INFO"; VStr "INFO"; VStr "ERROR"; VStr "info"] /\
  filteredLogs (logs pick_error_end) (filterLevel pick_error_end)
    = Ok (claimed_display (logs pick_error_end) (filterLevel pick_error_end)) /\
  message <$> claimed_display (logs pick_error_end) (filterLevel pick_error_end)
    = [VStr "boom"].
Proof.
  assert (Hrun : ui_run demo_host pick_error empty_app = Some pick_error_end)
    by (vm_compute; reflexivity).
  split; [exact Hrun|]. split; [reflexivity|]. split; [reflexivity|].
  split; [|reflexivity].
  apply (display_list_of_selected_token demo_host pick_error pick_error_end Hrun).
  vm_compute. repeat constructor; eexists; reflexivity.
Defined.

(** C7 as stated fails for a store that holds a level that is not a
    string: with the token ERROR picked from the select, a frame whose
    level is the number 5 is stored, and the display list can no longer
    be computed. *)
Lemma numeric_level_breaks_display :
  ui_run demo_host pick_then_numeric empty_app = Some pick_then_numeric_end /\
  filterLevel pick_then_numeric_end = "ERROR" /\
  level <$> logs pick_then_numeric_end = [VStr "ERROR"; VNum 5] /\
  filteredLogs (logs pick_then_numeric_end) (filterLevel pick_then_numeric_end) = Throw /\
  filteredLogs (logs pick_then_numeric_end) (filterLevel pick_then_numeric_end)
  <> Ok (claimed_display (logs pick_then_numeric_end) (filterLevel pick_then_numeric_end)).
Proof.
  split; [vm_compute; reflexivity|]. split; [reflexivity|]. split; [reflexivity|].
  split; [reflexivity|]. vm_compute. discriminate.
Qed.

Lemma empty_app_well_numbered : well_numbered empty_app.
Proof. split; [simpl; lia|]. split; simpl; intros i; intros; discriminate. Qed.

(** X2.  In every run, whatever frames arrive (malformed history batches
    included) and whenever the store is cleared, the line numbers in
    the store are positive, at most the counter, and strictly
    increasing from the first record to the last. *)
Theorem line_numbers_stay_ordered (host : Host) (es : list Event) (a : App) :
  run host es empty_app = Some a -> well_numbered a.
Proof.
  apply (run_invariant host well_numbered (step_well_numbered host)).
  apply empty_app_well_numbered.
Qed.

Lemma line_numbers_stay_ordered_witness :
  run demo_host session empty_app = Some session_end /\
  lineNumber <$> logs session_end = [1; 2; 3; 6; 7] /\
  logCounterRef session_end = 7 /\
  well_numbered session_end.
Proof.
  assert (Hrun : run demo_host session empty_app = Some session_end)
    by (vm_compute; reflexivity).
  split; [exact Hrun|]. split; [reflexivity|]. split; [reflexivity|].
  apply (line_numbers_stay_ordered demo_host session session_end Hrun).
Defined.

(** X3.  In every run each record of the store has a truthy level: the
    level is never absent and never the empty string, so upper-casing
    it either raises (it is not a string) or gives a non-empty string
    that [filter(Boolean)] keeps. *)
Theorem stored_levels_never_missing (host : Host) (es : list Event) (a : App) :
  run host es empty_app = Some a ->
  forall r, r ∈ logs a ->
  truthy (level r) = true /\
  (level_upper r = Throw \/ exists u, level_upper r = Ok (Some u) /\ u <> "").
Proof.
  intros Hrun r Hr.
  assert (Hlv : levels_truthy a).
  { apply (run_invariant host levels_truthy (step_levels_truthy host) es empty_app a);
      [constructor|exact Hrun]. }
  unfold levels_truthy in Hlv. rewrite Forall_forall in Hlv.
  specialize (Hlv r Hr). split; [exact Hlv|].
  unfold level_upper. destruct (level r) as [| |b|q|s|items|fields]; try discriminate; auto.
  right. exists (toUpperCase s). split; [reflexivity|].
  destruct s; [discriminate|]. discriminate.
Qed.

Lemma stored_levels_never_missing_witness :
  run demo_host session empty_app = Some session_end /\
  level <$> logs session_end
  = [VStr "INFO"; VStr "INFO"; VStr "INFO"; VStr "ERROR"; VStr "info"] /\
  forall r, r ∈ logs session_end -> truthy (level r) = true.
Proof.
  assert (Hrun : run demo_host session empty_app = Some session_end)
    by (vm_compute; reflexivity).
  split; [exact Hrun|]. split; [reflexivity|].
  intros r Hr.
  apply (stored_levels_never_missing demo_host session session_end Hrun r Hr).
Defined.

(** X4.  A history batch whose array holds a [null] entry shows nothing
    of the batch: the store stays as it was, while the counter has been
    incremented once for every entry up to and including the first
    [null], so those line numbers are never shown. *)
Theorem null_entry_consumes_numbers (host : Host) (data : value)
    (pre post : list value) (e : value) (a : App) :
  prop data "type" = Ok (VStr "HISTORY") ->
  prop data "data" = Ok (VArr (pre ++ e :: post)) ->
  Forall (fun x => is_nullish x = false) pre ->
  is_nullish e = true ->
  logs (onmessage host (Some data) a) = logs a /\
  logCounterRef (onmessage host (Some data) a)
  = logCounterRef a + Z.of_nat (length pre) + 1.
Proof.
  intros Hty Hdata Hpre He.
  rewrite onmessage_some, classify_history by exact Hty.
  unfold history_branch. rewrite (bind_get_ok _ _ _ _ _ Hdata).
  rewrite (bind_ok (mret (pre ++ e :: post)%list : M (list value)) _ a _ a eq_refl).
  destruct (process_history_until_null host pre e post 0%nat a Hpre He)
    as (a' & Hrun & Hl & Hc).
  rewrite (bind_throw _ _ _ _ Hrun). simpl. auto.
Qed.

Lemma null_entry_consumes_numbers_witness :
  logs (onmessage demo_host frame_null_entry (onmessage demo_host frame_boom empty_app))
  = logs (onmessage demo_host frame_boom empty_app) /\
  logCounterRef (onmessage demo_host frame_null_entry
                   (onmessage demo_host frame_boom empty_app)) = 3.
Proof.
  destruct (null_entry_consumes_numbers demo_host
              (VObj [("type", VStr "HISTORY");
                     ("data", VArr [VStr "x"; VNull; VStr "y"])])
              [VStr "x"] [VStr "y"] VNull (onmessage demo_host frame_boom empty_app))
    as [Hl Hc].
  - reflexivity.
  - reflexivity.
  - repeat constructor.
  - reflexivity.
  - split; [exact Hl|]. unfold frame_null_entry. rewrite Hc. reflexivity.
Defined.

(** X5.  A history batch given as an array without [null] entries
    becomes the store entry by entry, in order, with the defaults
    filled in: level "INFO" when the entry's level is falsy, the entry
    itself as message when its message is falsy (so an array of plain
    strings works), [isStructured] true when the entry has none, the
    entry's timestamp when truthy. *)
Theorem history_entries_defaults (host : Host) (data : value)
    (items : list value) (a : App) :
  prop data "type" = Ok (VStr "HISTORY") ->
  prop data "data" = Ok (VArr items) ->
  Forall (fun x => is_nullish x = false) items ->
  Forall2 made_from items (logs (onmessage host (Some data) a)).
Proof.
  intros Hty Hdata Hall.
  rewrite onmessage_some, classify_history by exact Hty.
  unfold history_branch. rewrite (bind_get_ok _ _ _ _ _ Hdata).
  rewrite (bind_ok (mret items : M (list value)) _ a _ a eq_refl).
  destruct (process_history_records host items 0%nat a Hall) as (rs & a' & Hrun & Hmade).
  rewrite (bind_ok _ _ _ _ _ Hrun). simpl. destruct a'; exact Hmade.
Qed.

Lemma history_entries_defaults_witness :
  let a := onmessage demo_host
             (Some (VObj [("type", VStr "HISTORY");
                          ("data", VArr [VStr "plain"; VObj [("level", VStr "warn")]])]))
             empty_app in
  Forall2 made_from [VStr "plain"; VObj [("level", VStr "warn")]] (logs a) /\
  message <$> logs a = [VStr "plain"; VObj [("level", VStr "warn")]] /\
  level <$> logs a = [VStr "INFO"; VStr "warn"].
Proof.
  split; [|split; reflexivity].
  apply (history_entries_defaults demo_host
           (VObj [("type", VStr "HISTORY");
                  ("data", VArr [VStr "plain"; VObj [("level", VStr "warn")]])])
           [VStr "plain"; VObj [("level", VStr "warn")]] empty_app).
  - reflexivity.
  - reflexivity.
  - repeat constructor.
Defined.

Lemma nonblank_not_empty line : nonblank line = true -> truthy (VStr line) = true.
Proof. destruct line; [discriminate|reflexivity]. Qed.

Lemma line_objects_records (lines : list string) :
  forall (es : list value) (rs : list LogRecord),
  Forall (fun line => nonblank line = true) lines ->
  Forall2 (fun line e => exists t,
             e = VObj [("timestamp", VStr t); ("level", VStr "INFO");
                       ("message", VStr line); ("isStructured", VBool false)])
          lines es ->
  Forall2 made_from es rs ->
  message <$> rs = VStr <$> lines /\
  Forall (fun r => level r = VStr "INFO" /\ isStructured r = VBool false /\
                   isHistory r = true) rs.
Proof.
  induction lines as [|line lines IH]; intros es rs Hnb Hobjs Hmade.
  - inversion Hobjs; subst. inversion Hmade; subst. split; [reflexivity|constructor].
  - inversion Hobjs as [|? e ? es' [t ->] Hobjs']; subst.
    inversion Hmade as [|? r ? rs' (Hlv & Hms & Hst & _ & Hh) Hmade']; subst.
    inversion Hnb as [|? ? Hline Hnb']; subst.
    destruct (IH es' rs' Hnb' Hobjs' Hmade') as [Hmsgs Hall].
    split.
    + rewrite !fmap_cons, Hmsgs. f_equal.
      rewrite Hms. unfold js_or. rewrite peek_obj. simpl field.
      rewrite (nonblank_not_empty line Hline). reflexivity.
    + constructor; [|exact Hall]. rewrite Hlv, Hst. auto.
Qed.

Lemma line_objects_not_null (lines : list string) (es : list value) :
  Forall2 (fun line e => exists t,
             e = VObj [("timestamp", VStr t); ("level", VStr "INFO");
                       ("message", VStr line); ("isStructured", VBool false)])
          lines es ->
  Forall (fun x => is_nullish x = false) es.
Proof.
  induction 1 as [|line e lines es [t ->] _ IH]; constructor; [reflexivity|exact IH].
Qed.

(** X6.  A history batch given as a string becomes one record per
    non-blank line, in the order of the lines, each with the line
    itself as message (leading and trailing blanks kept), level "INFO",
    [isStructured] false and the history flag. *)
Theorem history_lines_content (host : Host) (data : value) (s : string) (a : App) :
  prop data "type" = Ok (VStr "HISTORY") ->
  prop data "data" = Ok (VStr s) ->
  message <$> logs (onmessage host (Some data) a)
  = VStr <$> List.filter nonblank (split nl s) /\
  Forall (fun r => level r = VStr "INFO" /\ isStructured r = VBool false /\
                   isHistory r = true)
         (logs (onmessage host (Some data) a)).
Proof.
  intros Hty Hdata.
  rewrite onmessage_some, classify_history by exact Hty.
  unfold history_branch. rewrite (bind_get_ok _ _ _ _ _ Hdata).
  destruct (history_line_objects host (List.filter nonblank (split nl s)) 0%nat a)
    as (es & a0 & Hes & _ & Hobjs).
  rewrite (bind_ok _ _ _ _ _ Hes).
  destruct (process_history_records host es 0%nat a0 (line_objects_not_null _ _ Hobjs))
    as (rs & a' & Hrun & Hmade).
  rewrite (bind_ok _ _ _ _ _ Hrun).
  assert (Hlogs : logs (snd (modify (set_logs (fun _ => rs)) a')) = rs)
    by (destruct a'; reflexivity).
  rewrite Hlogs.
  apply (line_objects_records _ es rs); [|exact Hobjs|exact Hmade].
  apply Forall_forall. intros line Hin. apply list_elem_of_In, filter_In in Hin. tauto.
Qed.

Lemma history_lines_content_witness :
  message <$> logs (onmessage demo_host (Some frame_indented) empty_app)
  = [VStr " a"; VStr "b"].
Proof.
  destruct (history_lines_content demo_host frame_indented indented_text empty_app)
    as [H _].
  - reflexivity.
  - reflexivity.
  - rewrite H. reflexivity.
Defined.

(** X7.  Nothing but a frame and the clear button reaches the store:
    socket events, timers, the passing of time, a change of filter, a
    connect request and the teardown leave the records and the counter
    as they are (a reconnect keeps what is shown). *)
Theorem connection_events_keep_store (host : Host) (e : Event) (a a' : App) :
  store_event e = false ->
  step host e a = Some a' ->
  logs a' = logs a /\ logCounterRef a' = logCounterRef a.
Proof. apply step_keeps_store. Qed.

Lemma connection_events_keep_store_witness :
  logs (cleanup session_end) = logs session_end /\
  logCounterRef (cleanup session_end) = logCounterRef session_end.
Proof.
  apply (connection_events_keep_store demo_host EvUnmount session_end (cleanup session_end));
    reflexivity.
Defined.

(** X8.  A frame, whatever it holds, touches nothing but the store and
    the host: the status, the connected flag, the filter, both refs,
    the teardown flag, the sockets, the timers and the clock are as
    before. *)
Theorem frames_keep_connection (host : Host) (parsed : option value) (a : App) :
  let a' := onmessage host parsed a in
  isConnected a' = isConnected a /\ connectionStatus a' = connectionStatus a /\
  filterLevel a' = filterLevel a /\ wsRef a' = wsRef a /\
  reconnectTimeoutRef a' = reconnectTimeoutRef a /\ isCleanedUp a' = isCleanedUp a /\
  sockets a' = sockets a /\ timers a' = timers a /\ nextTimer a' = nextTimer a /\
  clock_ms a' = clock_ms a.
Proof. apply store_update_fields, onmessage_store_update. Qed.

(** ** The screen *)

Lemma level_upper_optional r : level_upper r = optional_toUpperCase (level r).
Proof. reflexivity. Qed.

Lemma optional_toUpperCase_throw v :
  optional_toUpperCase v = Throw <-> upper_casable v = false.
Proof. destruct v; simpl; split; intros H; try discriminate; reflexivity. Qed.

Lemma getLevelColor_throw v : getLevelColor v = Throw <-> upper_casable v = false.
Proof.
  rewrite <- optional_toUpperCase_throw. unfold getLevelColor.
  destruct (optional_toUpperCase v); simpl; split; intros H; try discriminate; reflexivity.
Qed.

(** X9.  [getLevelColor] ignores the case of a level: the six known
    names, in any mix of cases, get their colour, every other string
    and an absent level get the grey default, and a level that is
    neither absent nor a string makes the call raise. *)
Theorem level_colour_by_name (v : value) :
  (getLevelColor v = Throw <-> upper_casable v = false) /\
  (forall c, getLevelColor v = Ok c -> c ∈ palette) /\
  (is_nullish v = true -> getLevelColor v = Ok "#888888") /\
  (forall s t, v = VStr s -> toUpperCase s = toUpperCase t ->
               getLevelColor v = getLevelColor (VStr t)) /\
  (forall s, v = VStr s ->
             (getLevelColor v = Ok "#888888" <-> toUpperCase s ∉ known_levels)).
Proof.
  split; [apply getLevelColor_throw|]. split; [|split; [|split]].
  - intros c. unfold getLevelColor. destruct (optional_toUpperCase v) as [[u|]|];
      simpl; try discriminate; unfold mret, Result_ret; intros [= <-];
      repeat (match goal with
              | |- context [String.eqb ?x ?y] => destruct (String.eqb x y)
              end); unfold palette; set_solver.
  - destruct v; try discriminate; reflexivity.
  - intros s t -> Heq. unfold getLevelColor. simpl. rewrite Heq. reflexivity.
  - intros s ->. unfold getLevelColor, known_levels. simpl.
    unfold mret, Result_ret.
    rewrite !not_elem_of_cons.
    repeat (match goal with
            | |- context [String.eqb ?x ?y] =>
                destruct (String.eqb_spec x y)
            end); split; try discriminate; try tauto; intros _;
      repeat split; try assumption; apply not_elem_of_nil.
Qed.

Lemma level_colour_by_name_witness :
  getLevelColor (VStr "Warning") = Ok "#ffaa00" /\
  getLevelColor (VStr "Warning") = getLevelColor (VStr "WARNING") /\
  getLevelColor (VStr "trace") = Ok "#888888".
Proof.
  destruct (level_colour_by_name (VStr "Warning")) as (_ & _ & _ & Hcase & _).
  destruct (level_colour_by_name (VStr "trace")) as (_ & _ & _ & _ & Hdef).
  split; [reflexivity|]. split.
  - apply (Hcase "Warning" "WARNING"); reflexivity.
  - apply (Hdef "trace"); [reflexivity|].
    change (toUpperCase "trace") with "TRACE". unfold known_levels.
    rewrite !not_elem_of_cons. repeat split; try discriminate. apply not_elem_of_nil.
Defined.

Lemma map_cb_throw {A B : Type} (f : A -> Result B) (l : list A) :
  map_cb f l = Throw <-> Exists (fun x => f x = Throw) l.
Proof.
  induction l as [|x l IH]; simpl.
  - split; [discriminate|]. intros H. inversion H.
  - rewrite Exists_cons, <- IH. destruct (f x) as [y|]; simpl.
    + destruct (map_cb f l); simpl; split; try discriminate; try tauto.
      intros [H|H]; discriminate.
    + tauto.
Qed.

Lemma map_cb_ok {A B : Type} (f : A -> Result B) (l : list A) :
  forall ys, map_cb f l = Ok ys -> Forall2 (fun x y => f x = Ok y) l ys.
Proof.
  induction l as [|x l IH]; simpl; intros ys H.
  - injection H as <-. constructor.
  - destruct (f x) as [y|] eqn:Hx; [|discriminate].
    destruct (map_cb f l) as [ys'|]; [|discriminate].
    injection H as <-. constructor; [exact Hx|]. apply IH. reflexivity.
Qed.

Lemma filter_cb_throw {A : Type} (cb : A -> Result bool) (l : list A) :
  filter_cb cb l = Throw <-> Exists (fun x => cb x = Throw) l.
Proof.
  induction l as [|x l IH]; simpl.
  - split; [discriminate|]. intros H. inversion H.
  - rewrite Exists_cons, <- IH. destruct (cb x) as [keep|]; simpl.
    + destruct (filter_cb cb l); simpl; split; try discriminate; try tauto.
      intros [H|H]; discriminate.
    + tauto.
Qed.

(** When no callback raises, [filter] keeps, in order, the elements the
    callback accepts. *)
Lemma filter_cb_ok {A : Type} (cb : A -> Result bool) (l : list A) :
  forall ys, filter_cb cb l = Ok ys ->
  sublist ys l /\ (forall x, x ∈ ys <-> x ∈ l /\ cb x = Ok true) /\
  Forall (fun x => exists keep, cb x = Ok keep) l.
Proof.
  induction l as [|x l IH]; simpl; intros ys H.
  - injection H as <-. split; [constructor|]. split; [|constructor].
    intros x. split; [intros Hx; inversion Hx|intros [Hx _]; inversion Hx].
  - destruct (cb x) as [keep|] eqn:Hx; [|discriminate].
    destruct (filter_cb cb l) as [kept|]; [|discriminate].
    injection H as <-. destruct (IH kept eq_refl) as (Hsub & Hmem & Hall).
    split; [|split].
    + destruct keep; [apply sublist_skip|apply sublist_cons]; exact Hsub.
    + intros z. destruct keep.
      * rewrite !elem_of_cons, Hmem. split.
        -- intros [->|[Hz Hcb]]; auto.
        -- intros [[->|Hz] Hcb]; auto.
      * rewrite elem_of_cons, Hmem. split.
        -- intros [Hz Hcb]; auto.
        -- intros [[->|Hz] Hcb]; [congruence|auto].
    + constructor; [eauto|exact Hall].
Qed.

Lemma level_callback_throw (X : string) (log : LogRecord) :
  (u ← level_upper log; mret (same_level u X)) = Throw <-> level_upper log = Throw.
Proof. destruct (level_upper log); simpl; split; intros H; try discriminate; reflexivity. Qed.

Lemma level_callback_true (X : string) (log : LogRecord) :
  (u ← level_upper log; mret (same_level u X)) = Ok true <-> level_upper log = Ok (Some X).
Proof.
  destruct (level_upper log) as [[u|]|]; simpl; unfold mret, Result_ret.
  - destruct (String.eqb_spec u X) as [->|Hne]; split; intros H; try discriminate;
      try reflexivity. congruence.
  - split; discriminate.
  - split; discriminate.
Qed.

Lemma filteredLogs_ok (logs : list LogRecord) (X : string) shown :
  filteredLogs logs X = Ok shown ->
  sublist shown logs /\
  (X = "ALL" -> shown = logs) /\
  (X <> "ALL" -> forall r, r ∈ shown <-> r ∈ logs /\ level_upper r = Ok (Some X)).
Proof.
  unfold filteredLogs. destruct (String.eqb_spec X "ALL") as [->|HX]; intros H.
  - injection H as <-. split; [reflexivity|]. split; [reflexivity|]. congruence.
  - apply filter_cb_ok in H as (Hsub & Hmem & _).
    split; [exact Hsub|]. split; [congruence|].
    intros _ r. rewrite Hmem, level_callback_true. reflexivity.
Qed.

Lemma bad_level_in_store (logs : list LogRecord) :
  Exists (fun r => level_upper r = Throw) logs <->
  exists r, r ∈ logs /\ upper_casable (level r) = false.
Proof.
  rewrite Exists_exists. split; intros (r & Hr & Hbad); exists r; split; try exact Hr.
  - apply optional_toUpperCase_throw. exact Hbad.
  - apply optional_toUpperCase_throw in Hbad. exact Hbad.
Qed.

Lemma logLevels_throw (logs : list LogRecord) :
  logLevels logs = Throw <-> exists r, r ∈ logs /\ upper_casable (level r) = false.
Proof.
  rewrite <- bad_level_in_store, <- map_cb_throw. unfold logLevels.
  destruct (map_cb level_upper logs); simpl; split; intros H; try discriminate; reflexivity.
Qed.

Lemma render_throw_bad_level (a : App) :
  (exists r, r ∈ logs a /\ upper_casable (level r) = false) -> render a = Throw.
Proof.
  intros Hbad. apply logLevels_throw in Hbad. unfold render.
  destruct (filteredLogs (logs a) (filterLevel a)); [|reflexivity].
  simpl. rewrite Hbad. reflexivity.
Qed.

Lemma render_row_throw (r : LogRecord) :
  render_row r = Throw <-> upper_casable (level r) = false \/ row_children r = false.
Proof.
  unfold render_row. rewrite <- getLevelColor_throw.
  destruct (getLevelColor (level r)) as [c|]; simpl.
  - destruct (row_children r); split.
    + discriminate.
    + intros [H|H]; discriminate.
    + right. reflexivity.
    + reflexivity.
  - split; [left|]; reflexivity.
Qed.

Lemma render_throw_row (a : App) (shown : list LogRecord) (r : LogRecord) :
  filteredLogs (logs a) (filterLevel a) = Ok shown -> r ∈ shown ->
  row_children r = false -> render a = Throw.
Proof.
  intros Hshown Hr Hbad. unfold render. rewrite Hshown. simpl.
  destruct (logLevels (logs a)); [|reflexivity]. simpl.
  destruct shown as [|r0 shown]; [inversion Hr|]. simpl length. cbn [Nat.eqb].
  assert (Hrows : map_cb render_row (r0 :: shown) = Throw).
  { apply map_cb_throw, Exists_exists. exists r. split; [exact Hr|].
    apply render_row_throw. right. exact Hbad. }
  rewrite Hrows. reflexivity.
Qed.

(** A render fails exactly when some record of the store has a level
    that is neither absent nor a string, or one of the displayed
    records has a child that cannot be shown. *)
Lemma render_throw (a : App) :
  render a = Throw <->
  (exists r, r ∈ logs a /\ upper_casable (level r) = false) \/
  (exists shown r, filteredLogs (logs a) (filterLevel a) = Ok shown /\ r ∈ shown /\
                   row_children r = false).
Proof.
  split.
  - intros H. unfold render in H.
    destruct (filteredLogs (logs a) (filterLevel a)) as [shown|] eqn:Hshown.
    + destruct (logLevels (logs a)) as [menu|] eqn:Hmenu;
        [|left; apply logLevels_throw; exact Hmenu].
      simpl in H. destruct (length shown =? 0)%nat; [discriminate|].
      destruct (map_cb render_row shown) as [rows|] eqn:Hrows; [discriminate|].
      apply map_cb_throw, Exists_exists in Hrows as (r & Hr & Hbad).
      apply render_row_throw in Hbad as [Hbad|Hbad].
      * left. exists r. split; [|exact Hbad].
        apply filteredLogs_ok in Hshown as (Hsub & _).
        eapply sublist_subseteq; eauto.
      * right. exists shown, r. auto.
    + left. unfold filteredLogs in Hshown.
      destruct (String.eqb (filterLevel a) "ALL"); [discriminate|].
      apply filter_cb_throw in Hshown. apply bad_level_in_store.
      eapply Exists_impl; [exact Hshown|].
      intros r Hr. apply level_callback_throw in Hr. exact Hr.
  - intros [Hbad|(shown & r & Hshown & Hr & Hbad)].
    + apply render_throw_bad_level, Hbad.
    + apply (render_throw_row a shown r); assumption.
Qed.

(** X10.  A record whose level is neither absent nor a string, displayed
    or not, makes every render raise: the list of levels raises exactly
    when the store holds such a record.  The message handler stores such
    a level: a live frame whose level is truthy and not a string makes
    every later render raise until the store is replaced or cleared. *)
Theorem render_raises_on_bad_level (host : Host) :
  (forall a, (exists r, r ∈ logs a /\ upper_casable (level r) = false) ->
             render a = Throw) /\
  (forall logs, logLevels logs = Throw <->
                exists r, r ∈ logs /\ upper_casable (level r) = false) /\
  (forall data a,
     is_nullish data = false -> is_history (Some data) = false ->
     appends_record data = true ->
     truthy (peek data "level") = true -> upper_casable (peek data "level") = false ->
     render (onmessage host (Some data) a) = Throw).
Proof.
  split; [apply render_throw_bad_level|]. split; [apply logLevels_throw|].
  intros data a Hnn Hnh Happ Hlv Hbad. apply render_throw_bad_level.
  rewrite (onmessage_live host data a Hnn Hnh), Happ.
  destruct (appends_effect host data a) as [-> _].
  exists (live_record host data (hostCalls a) (logCounterRef a)). split.
  - apply elem_of_app. right. left.
  - simpl. unfold js_or. rewrite Hlv. exact Hbad.
Qed.

Lemma render_raises_on_bad_level_witness :
  render (onmessage demo_host
            (Some (VObj [("level", VNum 5); ("message", VStr "x")])) session_end)
  = Throw.
Proof.
  apply (proj2 (proj2 (render_raises_on_bad_level demo_host))); reflexivity.
Defined.

Lemma history_array_made_from (host : Host) (data : value) (items : list value) (a : App) :
  prop data "type" = Ok (VStr "HISTORY") ->
  prop data "data" = Ok (VArr items) ->
  Forall (fun x => is_nullish x = false) items ->
  Forall2 made_from items (logs (onmessage host (Some data) a)).
Proof.
  intros Hty Hdata Hall.
  rewrite onmessage_some, classify_history by exact Hty.
  unfold history_branch. rewrite (bind_get_ok _ _ _ _ _ Hdata).
  rewrite (bind_ok (mret items : M (list value)) _ a _ a eq_refl).
  destruct (process_history_records host items 0%nat a Hall) as (rs & a' & Hrun & Hmade).
  rewrite (bind_ok _ _ _ _ _ Hrun). simpl. destruct a'; exact Hmade.
Qed.

Lemma onmessage_filterLevel (host : Host) parsed a :
  filterLevel (onmessage host parsed a) = filterLevel a.
Proof. apply (store_update_fields a (onmessage host parsed a)), onmessage_store_update. Qed.

(** X19.  A displayed record whose timestamp or message is an object
    (or an array that holds one) makes the render raise, since such a
    value is no child of an element.  The message handler stores such
    messages: an entry of a history array that is an object without a
    truthy message becomes its own message, and a live frame keeps a
    message that is an object; with the filter at ALL the render that
    follows raises. *)
Theorem render_raises_on_object_child (host : Host) :
  (forall a shown r,
     filteredLogs (logs a) (filterLevel a) = Ok shown -> r ∈ shown ->
     valid_child (timestamp r) = false \/ valid_child (message r) = false ->
     render a = Throw) /\
  (forall data items x a,
     prop data "type" = Ok (VStr "HISTORY") ->
     prop data "data" = Ok (VArr items) ->
     Forall (fun e => is_nullish e = false) items ->
     x ∈ items -> valid_child x = false -> truthy (peek x "message") = false ->
     filterLevel a = "ALL" ->
     render (onmessage host (Some data) a) = Throw) /\
  (forall data a,
     is_nullish data = false -> is_history (Some data) = false ->
     truthy (peek data "message") = true -> valid_child (peek data "message") = false ->
     filterLevel a = "ALL" ->
     render (onmessage host (Some data) a) = Throw).
Proof.
  assert (Hrow : forall a shown r,
     filteredLogs (logs a) (filterLevel a) = Ok shown -> r ∈ shown ->
     valid_child (timestamp r) = false \/ valid_child (message r) = false ->
     render a = Throw).
  { intros a shown r Hshown Hr Hbad. apply (render_throw_row a shown r Hshown Hr).
    unfold row_children. destruct Hbad as [-> | ->]; [reflexivity|].
    apply andb_false_r. }
  split; [exact Hrow|]. split.
  - intros data items x a Hty Hdata Hall Hx Hbad Hms HALL.
    pose proof (history_array_made_from host data items a Hty Hdata Hall) as Hmade.
    apply list_elem_of_lookup in Hx as [i Hi].
    destruct (Forall2_lookup_l _ _ _ _ _ Hmade Hi) as (r & Hr & _ & Hmsg & _).
    apply (Hrow _ (logs (onmessage host (Some data) a)) r).
    + rewrite onmessage_filterLevel, HALL. reflexivity.
    + apply list_elem_of_lookup. exists i. exact Hr.
    + right. rewrite Hmsg. unfold js_or. rewrite Hms. exact Hbad.
  - intros data a Hnn Hnh Hms Hbad HALL.
    apply (Hrow _ (logs (onmessage host (Some data) a))
             (live_record host data (hostCalls a) (logCounterRef a))).
    + rewrite onmessage_filterLevel, HALL. reflexivity.
    + rewrite (onmessage_live host data a Hnn Hnh).
      unfold appends_record. rewrite Hms, orb_true_r.
      destruct (appends_effect host data a) as [-> _].
      apply elem_of_app. right. left.
    + right. simpl. unfold js_or. rewrite Hms. exact Hbad.
Qed.

Lemma render_raises_on_object_child_witness :
  message <$> logs (onmessage demo_host frame_bare_entry empty_app)
    = [VObj [("level", VStr "WARN")]] /\
  render (onmessage demo_host frame_bare_entry empty_app) = Throw.
Proof.
  split; [reflexivity|].
  apply (proj1 (proj2 (render_raises_on_object_child demo_host))
           (VObj [("type", VStr "HISTORY"); ("data", VArr [VObj [("level", VStr "WARN")]])])
           [VObj [("level", VStr "WARN")]] (VObj [("level", VStr "WARN")]) empty_app).
  - reflexivity.
  - reflexivity.
  - repeat constructor.
  - left.
  - reflexivity.
  - reflexivity.
  - reflexivity.
Defined.

(** X11.  What a render that returns shows agrees with the state: the
    total is the size of the store, the displayed count is the number
    of rows and never exceeds the total (they are equal under ALL), the
    menu starts with "ALL", and the placeholder appears exactly when
    nothing is displayed: "Waiting for logs..." for an empty store,
    otherwise "No X logs found" for the selected token X, which then is
    not ALL. *)
Theorem screen_matches_store (a : App) (scr : Screen) :
  render a = Ok scr ->
  status_text scr = connectionStatus a /\
  indicator_connected scr = isConnected a /\
  total_logs scr = length (logs a) /\
  (displayed_logs scr <= total_logs scr)%nat /\
  (filterLevel a = "ALL" -> displayed_logs scr = total_logs scr) /\
  head (filter_options scr) = Some "ALL" /\
  match body scr with
  | LogsList rows =>
      length rows = displayed_logs scr /\ (0 < displayed_logs scr)%nat
  | NoLogs text hint =>
      displayed_logs scr = 0%nat /\
      ((logs a = [] /\ text = "Waiting for logs..." /\
        hint = "Logs will appear here in real-time") \/
       (logs a <> [] /\ filterLevel a <> "ALL" /\
        text = "No " ++ filterLevel a ++ " logs found" /\
        hint = "Try changing the filter"))
  end.
Proof.
  unfold render. intros H.
  destruct (filteredLogs (logs a) (filterLevel a)) as [shown|] eqn:Hshown; [|discriminate].
  destruct (logLevels (logs a)) as [menu|] eqn:Hmenu; [|discriminate].
  destruct (filteredLogs_ok _ _ _ Hshown) as (Hsub & Hall & _).
  assert (Hhead : head menu = Some "ALL").
  { unfold logLevels in Hmenu. destruct (map_cb level_upper (logs a)); [|discriminate].
    injection Hmenu as <-. reflexivity. }
  pose proof (sublist_length _ _ Hsub) as Hle.
  simpl in H. destruct (length shown =? 0)%nat eqn:Hlen.
  - injection H as <-. simpl. apply Nat.eqb_eq in Hlen.
    split; [reflexivity|]. split; [reflexivity|]. split; [reflexivity|].
    split; [exact Hle|]. split; [intros HALL; rewrite <- (Hall HALL); reflexivity|].
    split; [exact Hhead|]. split; [exact Hlen|].
    destruct (logs a) as [|r rest] eqn:Hlogs; simpl.
    + left. auto.
    + right. split; [discriminate|]. split; [|auto].
      intros HALL. specialize (Hall HALL). subst shown. discriminate Hlen.
  - destruct (map_cb render_row shown) as [rows|] eqn:Hrows; [|discriminate].
    injection H as <-. simpl. apply Nat.eqb_neq in Hlen.
    split; [reflexivity|]. split; [reflexivity|]. split; [reflexivity|].
    split; [exact Hle|]. split; [intros HALL; rewrite <- (Hall HALL); reflexivity|].
    split; [exact Hhead|]. split; [|lia].
    apply map_cb_ok, Forall2_length in Hrows. congruence.
Qed.

Lemma screen_matches_store_witness :
  render (set_filterLevel "WARN" session_end) = Ok warn_screen /\
  body warn_screen = NoLogs "No WARN logs found" "Try changing the filter" /\
  total_logs warn_screen = 5%nat /\
  (displayed_logs warn_screen <= total_logs warn_screen)%nat.
Proof.
  assert (Hscr : render (set_filterLevel "WARN" session_end) = Ok warn_screen)
    by (vm_compute; reflexivity).
  destruct (screen_matches_store _ warn_screen Hscr) as (_ & _ & Htotal & Hle & _).
  split; [exact Hscr|]. split; [reflexivity|]. split; [exact Htotal|exact Hle].
Defined.

Lemma level_upper_results (logs : list LogRecord) (ups : list (option string)) :
  map_cb level_upper logs = Ok ups ->
  forall u, u ∈ ups <-> exists r, r ∈ logs /\ level_upper r = Ok u.
Proof.
  intros H. apply map_cb_ok in H.
  induction H as [|r u logs ups Hr _ IH]; intros v.
  - split; [intros Hv; inversion Hv|intros (r & Hr & _); inversion Hr].
  - rewrite elem_of_cons, IH. split.
    + intros [->|(r' & Hr' & Hv)]; [exists r; split; [left|exact Hr]|].
      exists r'. split; [right; exact Hr'|exact Hv].
    + intros (r' & Hr' & Hv). apply elem_of_cons in Hr' as [->|Hr'].
      * left. congruence.
      * right. eauto.
Qed.

(** X12.  The menu and the filter fit together: when the menu can be
    computed, a non-empty token other than ALL is offered exactly when
    some record's level upper-cases to it, that is, exactly when
    selecting it displays at least one record; a token that is not
    offered displays none. *)
Theorem menu_tokens_have_records (logs : list LogRecord) (menu : list string) (X : string) :
  logLevels logs = Ok menu ->
  X <> "ALL" -> X <> "" ->
  exists shown,
    filteredLogs logs X = Ok shown /\
    (X ∈ menu <-> shown <> []) /\
    (forall r, r ∈ shown <-> r ∈ logs /\ level_upper r = Ok (Some X)).
Proof.
  intros Hmenu HALL Hne.
  unfold logLevels in Hmenu.
  destruct (map_cb level_upper logs) as [ups|] eqn:Hups; [|discriminate].
  injection Hmenu as <-.
  pose proof (level_upper_results logs ups Hups) as Hres.
  destruct (filteredLogs logs X) as [shown|] eqn:Hshown.
  - exists shown. split; [reflexivity|].
    destruct (filteredLogs_ok _ _ _ Hshown) as (_ & _ & Hmem).
    specialize (Hmem HALL). split; [|exact Hmem].
    rewrite elem_of_cons, new_Set_first_seen, elem_of_first_seen.
    unfold filter_Boolean. rewrite list_elem_of_omap. split.
    + intros [HX|(u & Hu & Hsome)]; [congruence|].
      destruct u as [s|]; [|discriminate].
      destruct (String.eqb s ""); [discriminate|]. injection Hsome as ->.
      apply Hres in Hu as (r & Hr & Hlv).
      intros Hempty. assert (Hin : r ∈ shown) by (apply Hmem; auto).
      rewrite Hempty in Hin. inversion Hin.
    + intros Hnonempty. right. destruct shown as [|r rest]; [congruence|].
      assert (Hr : r ∈ logs /\ level_upper r = Ok (Some X)) by (apply Hmem; left).
      exists (Some X). split; [apply Hres; exists r; exact Hr|].
      destruct (String.eqb_spec X ""); [contradiction|reflexivity].
  - exfalso. unfold filteredLogs in Hshown.
    destruct (String.eqb X "ALL"); [discriminate|].
    apply filter_cb_throw, Exists_exists in Hshown as (r & Hr & Hbad).
    apply level_callback_throw in Hbad.
    apply map_cb_ok in Hups.
    apply list_elem_of_lookup in Hr as [i Hi].
    destruct (Forall2_lookup_l _ _ _ _ _ Hups Hi) as (u & _ & Hu). congruence.
Qed.

Lemma menu_tokens_have_records_witness :
  logLevels (logs session_end) = Ok ["ALL"; "INFO"; "ERROR"] /\
  exists shown, filteredLogs (logs session_end) "ERROR" = Ok shown /\
                ("ERROR" ∈ ["ALL"; "INFO"; "ERROR"] <-> shown <> []).
Proof.
  split; [reflexivity|].
  destruct (menu_tokens_have_records (logs session_end) ["ALL"; "INFO"; "ERROR"] "ERROR")
    as (shown & Hshown & Hiff & _).
  - reflexivity.
  - discriminate.
  - discriminate.
  - exists shown. split; [exact Hshown|exact Hiff].
Defined.

(** ** The connection, beyond teardown *)

Section ConnectionFacts.
Context (host : Host).

Lemma step_status_inv e a a' :
  own_event e = true -> lifecycle_inv a -> status_inv a ->
  step host e a = Some a' -> status_inv a'.
Proof.
  intros Hown Hinv Hst H. unfold lifecycle_inv in Hinv. destruct e; simpl in H.
  - destruct (sockets a !! ws) as [[]|]; try discriminate. injection H as <-.
    intros j _. destruct a; simpl. auto.
  - destruct (sockets a !! ws) as [[]|]; try discriminate. injection H as <-.
    destruct (store_update_fields _ _ (onmessage_store_update host parsed a))
      as (Hc & Hs & _ & _ & _ & _ & Hss & _).
    intros j Hj. rewrite Hc, Hs. apply (Hst j). rewrite <- Hss. exact Hj.
  - assert (Ha' : a' = onerror a)
      by (destruct (sockets a !! ws) as [[]|]; congruence).
    subst a'. intros j Hj.
    assert (Hj' : sockets a !! j = Some OPEN) by (destruct a; exact Hj).
    destruct (Hst j Hj') as [Hc _]. destruct a; simpl in *. auto.
  - assert (Hlive : exists st, sockets a !! ws = Some st /\ st <> CLOSED /\
              a' = onclose (set_sockets (fun ss => <[ws:=CLOSED]> ss) a)).
    { destruct (sockets a !! ws) as [[]|]; try discriminate;
        injection H as <-; eexists; (split; [reflexivity|]);
        (split; [discriminate|reflexivity]). }
    destruct Hlive as (st & Hws & Hne & ->). intros j Hj. exfalso.
    assert (Hj' : <[ws:=CLOSED]> (sockets a) !! j = Some OPEN).
    { unfold onclose, setTimeout in Hj.
      destruct a as [? ? ? ? ? ? ? [] ? ? ? ? ?]; exact Hj. }
    apply list_lookup_insert_Some in Hj' as [(_ & Hbad & _)|[Hneq Hj']];
      [discriminate|].
    apply Hneq. symmetry.
    eapply (inv_one_live _ _ _ _ _ Hinv); eauto; discriminate.
  - destruct (0 <=? ms)%Z; [|discriminate]. injection H as <-.
    intros j Hj. destruct a; apply (Hst j Hj).
  - destruct (timers a !! t) as [due|] eqn:Ht; [|discriminate].
    destruct (due <=? clock_ms a)%Z; [|discriminate]. injection H as <-.
    destruct (conn_inv_timer _ _ _ _ _ _ _ Hinv Ht) as (Hc & Hclosed & _).
    intros j Hj. exfalso.
    assert (Hj' : (sockets a ++ [CONNECTING])%list !! j = Some OPEN).
    { unfold reconnect, connectWebSocket, clearTimeout, close_socket in Hj.
      destruct a as [? ? ? ? [w|] ? ? ? ? ? ? ? ?]; simpl in *; subst; simpl in Hj;
        rewrite ?Hclosed in Hj; exact Hj. }
    apply lookup_app_Some in Hj' as [Hj'|[_ Hj']].
    + pose proof (inv_timer_closed _ _ _ _ _ Hinv t due j OPEN Ht Hj'). discriminate.
    + apply list_lookup_singleton_Some in Hj' as [_ Hbad]. discriminate.
  - injection H as <-. intros j Hj. rewrite cleanup_fields in Hj. simpl in Hj.
    assert (Hj' : sockets a !! j = Some OPEN).
    { destruct (wsRef a); [|exact Hj].
      apply closing_lookup in Hj as [Hj|(_ & Hbad & _)]; [exact Hj|discriminate]. }
    rewrite cleanup_fields. simpl. apply (Hst j Hj').
  - injection H as <-. intros j Hj. destruct a; apply (Hst j Hj).
  - injection H as <-. intros j Hj. destruct a; apply (Hst j Hj).
  - discriminate Hown.
Qed.

Lemma own_run_status es :
  forall a a', forallb own_event es = true -> lifecycle_inv a -> status_inv a ->
  run host es a = Some a' -> status_inv a'.
Proof.
  induction es as [|e es IH]; intros a a' Hown Hinv Hst H; simpl in H.
  - injection H as <-. exact Hst.
  - simpl in Hown. apply andb_true_iff in Hown as [He Hes].
    destruct (step host e a) as [a1|] eqn:Hstep; [|discriminate].
    apply (IH a1 a' Hes); [| |exact H].
    + apply (own_step_inv host e a a1 He Hinv Hstep).
    + apply (step_status_inv e a a1 He Hinv Hst Hstep).
Qed.

(** Sockets are constructed at mount and by a timer that fires, never
    otherwise. *)
Lemma own_step_sockets e a a' :
  own_event e = true -> lifecycle_inv a -> step host e a = Some a' ->
  length (sockets a') = (length (sockets a) + fired_timers [e])%nat.
Proof.
  intros Hown Hinv H. unfold lifecycle_inv in Hinv.
  destruct e; simpl in H; unfold fired_timers; simpl.
  - destruct (sockets a !! ws) as [[]|]; try discriminate. injection H as <-.
    destruct a; simpl. rewrite length_insert. lia.
  - destruct (sockets a !! ws) as [[]|]; try discriminate. injection H as <-.
    destruct (store_update_fields _ _ (onmessage_store_update host parsed a))
      as (_ & _ & _ & _ & _ & _ & -> & _). lia.
  - destruct (sockets a !! ws) as [[]|]; try discriminate; injection H as <-;
      destruct a; simpl; lia.
  - assert (Ha' : a' = onclose (set_sockets (fun ss => <[ws:=CLOSED]> ss) a))
      by (destruct (sockets a !! ws) as [[]|]; congruence).
    subst a'. unfold onclose, setTimeout.
    destruct a as [? ? ? ? ? ? ? [] ? ? ? ? ?]; simpl; rewrite length_insert; lia.
  - destruct (0 <=? ms)%Z; [|discriminate]. injection H as <-.
    destruct a; simpl; lia.
  - destruct (timers a !! t) as [due|] eqn:Ht; [|discriminate].
    destruct (due <=? clock_ms a)%Z; [|discriminate]. injection H as <-.
    destruct (conn_inv_timer _ _ _ _ _ _ _ Hinv Ht) as (Hc & _ & _).
    unfold reconnect, connectWebSocket, clearTimeout, close_socket.
    destruct a as [? ? ? ? [w|] ? ? ? ? ? ? ? ?]; simpl in *; subst; simpl;
      rewrite length_app, ?closing_length; simpl; lia.
  - injection H as <-. rewrite cleanup_fields. simpl.
    destruct (wsRef a); rewrite ?closing_length; lia.
  - injection H as <-. destruct a; simpl; lia.
  - injection H as <-. destruct a; simpl; lia.
  - discriminate Hown.
Qed.

Lemma own_run_sockets es :
  forall a a', forallb own_event es = true -> lifecycle_inv a ->
  run host es a = Some a' ->
  length (sockets a') = (length (sockets a) + fired_timers es)%nat.
Proof.
  induction es as [|e es IH]; intros a a' Hown Hinv H; simpl in H.
  - injection H as <-. unfold fired_timers. simpl. lia.
  - simpl in Hown. apply andb_true_iff in Hown as [He Hes].
    destruct (step host e a) as [a1|] eqn:Hstep; [|discriminate].
    rewrite (IH a1 a' Hes (own_step_inv host e a a1 He Hinv Hstep) H).
    rewrite (own_step_sockets e a a1 He Hinv Hstep).
    unfold fired_timers. simpl. destruct e; simpl; lia.
Qed.
End ConnectionFacts.

Lemma mounted_status_inv : status_inv mounted.
Proof. intros [|ws] H; discriminate H. Qed.

(** With one run of the effect: while a socket is open it is the one
    the socket ref points to, the indicator is on and the status reads
    "Connected", or "Error" after an error signal. *)
Lemma single_run_open_socket (host : Host) (es : list Event) (a : App) (ws : nat) :
  forallb own_event es = true ->
  run host es mounted = Some a ->
  sockets a !! ws = Some OPEN ->
  wsRef a = Some ws /\ isConnected a = true /\
  (connectionStatus a = "Connected" \/ connectionStatus a = "Error").
Proof.
  intros Hown Hrun Hws. split.
  - apply (run_one_open host (EvConnect :: es) empty_app a empty_app_one_open Hrun).
    right. exact Hws.
  - apply (own_run_status host es mounted a Hown mounted_inv mounted_status_inv Hrun ws Hws).
Qed.

(** While the effect is not run again, the machine of the runs is the
    machine of one run. *)
Lemma effect_run_single (host : Host) (es : list EffectEvent) :
  forall a m,
  forallb not_rerun es = true ->
  effect_run host es (mkEffects a 0 0) = Some m ->
  run host (machine_events es) a = Some (app m).
Proof.
  induction es as [|e es IH]; intros a m Hnr H; simpl in H.
  - injection H as <-. reflexivity.
  - simpl in Hnr. apply andb_true_iff in Hnr as [He Hes].
    destruct e as [e|]; [|discriminate He]. simpl in H.
    assert (Hnow : of_earlier_run e (mkEffects a 0 0) = false) by (destruct e; reflexivity).
    rewrite Hnow in H. cbn [machine_events omap list_omap run].
    destruct (step host e a) as [a1|]; [|discriminate]. simpl in H.
    exact (IH a1 m Hes H).
Qed.

Lemma machine_events_own (es : list EffectEvent) :
  forallb own_effect_event es = true -> forallb own_event (machine_events es) = true.
Proof.
  induction es as [|[e|] es IH]; simpl; intros H; [reflexivity| |exact (IH H)].
  apply andb_true_iff in H as [He Hes]. cbn [machine_events omap list_omap forallb].
  rewrite He. exact (IH Hes).
Qed.

(** X13.  While the effect has run only once (it has not been run
    again): while a socket is open it is the one the socket ref points
    to, the indicator is on and the status reads "Connected", or
    "Error" after an error signal. *)
Theorem open_socket_shows_connected (host : Host) (es : list EffectEvent)
    (m : Effects) (ws : nat) :
  forallb own_effect_event es = true ->
  forallb not_rerun es = true ->
  effect_run host es first_run = Some m ->
  sockets (app m) !! ws = Some OPEN ->
  wsRef (app m) = Some ws /\ isConnected (app m) = true /\
  (connectionStatus (app m) = "Connected" \/ connectionStatus (app m) = "Error").
Proof.
  intros Hown Hnr Hrun Hws.
  apply (single_run_open_socket host (machine_events es) (app m) ws).
  - apply machine_events_own, Hown.
  - apply (effect_run_single host es mounted m Hnr Hrun).
  - exact Hws.
Qed.

Lemma open_socket_shows_connected_witness :
  effect_run demo_host (Ev <$> two_reconnects) first_run
  = Some (mkEffects two_reconnects_end 0 0) /\
  sockets two_reconnects_end = [CLOSED; CLOSED; OPEN] /\
  wsRef two_reconnects_end = Some 2%nat /\ isConnected two_reconnects_end = true /\
  (connectionStatus two_reconnects_end = "Connected" \/
   connectionStatus two_reconnects_end = "Error").
Proof.
  assert (Hrun : effect_run demo_host (Ev <$> two_reconnects) first_run
                 = Some (mkEffects two_reconnects_end 0 0)) by (vm_compute; reflexivity).
  split; [exact Hrun|]. split; [reflexivity|].
  apply (open_socket_shows_connected demo_host (Ev <$> two_reconnects)
           (mkEffects two_reconnects_end 0 0) 2%nat);
    [reflexivity|reflexivity|exact Hrun|reflexivity].
Defined.

(** With one run of the effect: a socket is constructed at mount and
    each time a reconnect timer fires, so the number of sockets ever
    constructed is one more than the number of timers that fired. *)
Lemma sockets_from_mount_and_timers (host : Host) (es : list Event) (a : App) :
  forallb own_event es = true ->
  run host es mounted = Some a ->
  length (sockets a) = S (fired_timers es).
Proof.
  intros Hown Hrun.
  rewrite (own_run_sockets host es mounted a Hown mounted_inv Hrun). reflexivity.
Qed.

Lemma sockets_from_mount_and_timers_witness :
  length (sockets two_reconnects_end) = 3%nat /\ fired_timers two_reconnects = 2%nat.
Proof.
  split; [|reflexivity].
  apply (sockets_from_mount_and_timers demo_host two_reconnects two_reconnects_end);
    [reflexivity|vm_compute; reflexivity].
Defined.

Lemma all_closed_after_close r ss tm nt ws st :
  conn_inv false r ss tm nt -> ss !! ws = Some st -> st <> CLOSED ->
  forall j sj, <[ws := CLOSED]> ss !! j = Some sj -> sj = CLOSED.
Proof.
  intros Hinv Hws Hne j sj Hj.
  pose proof (conn_inv_close r ss tm nt ws st 0 Hinv Hws Hne) as Hinv'.
  eapply (inv_timer_closed _ _ _ _ _ Hinv' nt 0 j sj); [apply lookup_insert_eq|exact Hj].
Qed.

(** X15.  In every run of the mounted component that has not been torn
    down, when a socket's close event arrives the reconnect waits the
    full delay: the timer it arms cannot fire before 3000 ms have
    passed, and once they have, its firing sets the status to
    "Reconnecting...", constructs exactly one new socket, connecting,
    and points the socket ref to it, with no timer left pending. *)
Theorem reconnect_waits_for_delay (host : Host) (pre : list Event) (a : App)
    (ws : nat) (st : ReadyState) (d : Z) :
  forallb own_event pre = true ->
  run host pre mounted = Some a ->
  isCleanedUp a = false ->
  sockets a !! ws = Some st -> st <> CLOSED ->
  0 <= d ->
  (d < 3000 -> run host [EvClose ws; EvElapse d; EvTimer (nextTimer a)] a = None) /\
  (3000 <= d ->
   exists a', run host [EvClose ws; EvElapse d; EvTimer (nextTimer a)] a = Some a' /\
              sockets a' = (<[ws := CLOSED]> (sockets a) ++ [CONNECTING])%list /\
              wsRef a' = Some (length (sockets a)) /\
              connectionStatus a' = "Reconnecting..." /\
              isConnected a' = false /\
              timers a' = ∅).
Proof.
  intros Hown Hrun Hc Hws Hne Hd.
  pose proof (own_run_inv host pre mounted a Hown mounted_inv Hrun) as Hinv.
  unfold lifecycle_inv in Hinv. rewrite Hc in Hinv.
  pose proof (conn_inv_no_timers _ _ _ _ _ Hinv ws st Hws Hne) as Htm.
  pose proof (all_closed_after_close _ _ _ _ ws st Hinv Hws Hne) as Hall.
  assert (Hstep : step host (EvClose ws) a
                  = Some (onclose (set_sockets (fun ss => <[ws:=CLOSED]> ss) a))).
  { simpl. rewrite Hws. destruct st; try reflexivity. congruence. }
  simpl run. simpl step in Hstep. rewrite Hstep. clear Hstep.
  unfold onclose, setTimeout.
  destruct a as [lg ic cs fl wr rr lc cl ss tm nt ck hc]; simpl in *. subst cl tm.
  simpl. assert (H0 : (0 <=? d)%Z = true) by (apply Z.leb_le; exact Hd).
  rewrite H0. simpl. rewrite lookup_insert_eq. split.
  - intros Hlt. assert (Hdue : (ck + 3000 <=? ck + d)%Z = false)
      by (apply Z.leb_gt; lia).
    rewrite Hdue. reflexivity.
  - intros Hge. assert (Hdue : (ck + 3000 <=? ck + d)%Z = true)
      by (apply Z.leb_le; lia).
    rewrite Hdue. unfold reconnect, connectWebSocket, clearTimeout, close_socket.
    destruct wr as [w|]; simpl; (eexists; split; [reflexivity|]); cbn;
      rewrite ?(closing_closed_all _ w Hall), ?closing_length, length_insert,
        delete_insert_eq, delete_empty; auto.
Qed.

Lemma reconnect_waits_for_delay_witness :
  run demo_host [EvClose 2; EvElapse 2999; EvTimer 3] two_reconnects_end = None /\
  exists a', run demo_host [EvClose 2; EvElapse 3000; EvTimer 3] two_reconnects_end
             = Some a' /\
             sockets a' = [CLOSED; CLOSED; CLOSED; CONNECTING] /\
             wsRef a' = Some 3%nat.
Proof.
  assert (Hrun : run demo_host two_reconnects mounted = Some two_reconnects_end)
    by (vm_compute; reflexivity).
  split.
  - apply (proj1 (reconnect_waits_for_delay demo_host two_reconnects two_reconnects_end
                    2%nat OPEN 2999 eq_refl Hrun eq_refl eq_refl
                    ltac:(discriminate) ltac:(lia))).
    lia.
  - destruct (proj2 (reconnect_waits_for_delay demo_host two_reconnects
                       two_reconnects_end 2%nat OPEN 3000 eq_refl Hrun eq_refl eq_refl
                       ltac:(discriminate) ltac:(lia)) ltac:(lia))
      as (a' & Ha' & Hs & Hw & _).
    exists a'. split; [exact Ha'|]. split; [exact Hs|exact Hw].
Defined.

(** ** The first variant's message handler *)

Lemma plain_bind_ok {A B : Type} (m : Plain.P A) (f : A -> Plain.P B) s x s1 :
  m s = (Ok x, s1) -> (m ≫= f) s = f x s1.
Proof. intros H. unfold mbind, Plain.P_bind. rewrite H. reflexivity. Qed.

Lemma plain_history_lines (host : Host) (lines : list string) :
  forall index s,
  exists rs, Plain.map_index (Plain.history_line host) lines index s
             = (Ok rs, Plain.mkStore (Plain.logs s)
                         (2 * length lines + Plain.hostCalls s)) /\
             Plain.message <$> rs = VStr <$> lines /\
             Forall (fun r => Plain.isHistory r = true) rs.
Proof.
  induction lines as [|line lines IH]; intros index s; simpl Plain.map_index.
  - exists []. split; [destruct s; reflexivity|]. split; [reflexivity|constructor].
  - set (s1 := Plain.mkStore (Plain.logs s) (S (S (Plain.hostCalls s)))).
    destruct (IH (S index) s1) as (rs & Hrun & Hmsg & Hhist).
    eexists (_ :: rs). split; [|split].
    + erewrite plain_bind_ok by reflexivity.
      simpl. fold s1. erewrite plain_bind_ok by exact Hrun.
      unfold mret, Plain.P_ret. f_equal. subst s1. simpl. f_equal. lia.
    + rewrite !fmap_cons. f_equal. exact Hmsg.
    + constructor; [reflexivity|exact Hhist].
Qed.

(** X16.  In the first variant a frame the [try] block cannot handle is
    never lost: text that does not decode, a decoded [null], and a
    history frame whose [data] is truthy but not a string (an array,
    say) each append one live record whose message is the frame's raw
    text. *)
Theorem plain_unreadable_frame_shown_verbatim (host : Host) (raw : string)
    (parsed : option value) (s : Plain.Store) :
  Plain.unreadable parsed = true ->
  Plain.onmessage host raw parsed s =
  Plain.mkStore (Plain.logs s ++ [Plain.raw_record host raw s])
                (3 + Plain.hostCalls s).
Proof.
  intros Hun. destruct s as [lg hc].
  destruct parsed as [data|]; [|reflexivity].
  destruct data as [| |b|q|t|items|fields]; try discriminate; try reflexivity.
  unfold Plain.unreadable in Hun. rewrite !peek_obj in Hun. simpl in Hun.
  unfold Plain.onmessage, Plain.try_block, Plain.and_then, Plain.get, Plain.call_split,
    mbind, Plain.P_bind, mret, Plain.P_ret.
  cbn [prop fst snd].
  destruct (strict_eq_str (field "type" fields) "HISTORY"); [|discriminate].
  destruct (truthy (field "data" fields)) eqn:Htr; [|discriminate].
  simpl in Hun. cbn. rewrite ?Htr.
  destruct (field "data" fields); try discriminate; reflexivity.
Qed.

Lemma plain_unreadable_frame_shown_verbatim_witness :
  Plain.message <$> Plain.logs
    (Plain.onmessage demo_host "null" (Some VNull)
       (Plain.onmessage demo_host "plain text" None Plain.empty_store))
  = [VStr "plain text"; VStr "null"].
Proof.
  rewrite (plain_unreadable_frame_shown_verbatim demo_host "null" (Some VNull))
    by reflexivity.
  rewrite (plain_unreadable_frame_shown_verbatim demo_host "plain text" None)
    by reflexivity.
  reflexivity.
Defined.

(** X17.  In the first variant a decoded frame that is not a history
    batch with a truthy payload appends a record, carrying the frame's
    message, exactly when its [type] is "log" and its [message] is
    truthy; otherwise it changes nothing.  In particular a history
    frame whose [data] is empty or absent is ignored: the store is not
    cleared. *)
Theorem plain_live_frames (host : Host) (raw : string) (data : value) (s : Plain.Store) :
  is_nullish data = false ->
  strict_eq_str (peek data "type") "HISTORY" && truthy (peek data "data") = false ->
  Plain.onmessage host raw (Some data) s =
  if strict_eq_str (peek data "type") "log" && truthy (peek data "message") then
    Plain.mkStore
      (Plain.logs s ++
       [Plain.mkLog (Plain.LiveId (Date_now host (Plain.hostCalls s))
                                  (Math_random host (S (Plain.hostCalls s))))
                    (peek data "message")
                    (toLocaleTimeString host (S (S (Plain.hostCalls s)))) false])
      (3 + Plain.hostCalls s)
  else s.
Proof.
  intros Hnn Hnh. destruct s as [lg hc].
  destruct data as [| |b|q|t|items|fields]; try discriminate; try reflexivity.
  rewrite !peek_obj in *.
  unfold Plain.onmessage, Plain.try_block, Plain.and_then, Plain.get, Plain.call_split,
    Plain.append_message, Plain.live_record, Plain.host_call, Plain.setLogs,
    mbind, Plain.P_bind, mret, Plain.P_ret.
  cbn [prop fst snd].
  destruct (strict_eq_str (field "type" fields) "HISTORY") eqn:Hh;
    destruct (truthy (field "data" fields)) eqn:Hd; try discriminate;
    destruct (strict_eq_str (field "type" fields) "log") eqn:Hl;
    destruct (truthy (field "message" fields)) eqn:Hm;
    cbn; rewrite ?Hd, ?Hm; try reflexivity.
Qed.

Lemma plain_live_frames_witness :
  Plain.message <$> Plain.logs
    (Plain.onmessage demo_host "ignored"
       (Some (VObj [("type", VStr "HISTORY"); ("data", VStr "")]))
       (Plain.onmessage demo_host "ignored"
          (Some (VObj [("type", VStr "log"); ("message", VStr "hi")]))
          Plain.empty_store))
  = [VStr "hi"].
Proof.
  rewrite (plain_live_frames demo_host "ignored"
             (VObj [("type", VStr "HISTORY"); ("data", VStr "")]))
    by reflexivity.
  rewrite (plain_live_frames demo_host "ignored"
             (VObj [("type", VStr "log"); ("message", VStr "hi")]))
    by reflexivity.
  reflexivity.
Defined.

(** X18.  In the first variant a history frame whose [data] is a
    non-empty string replaces the store by one history record per
    non-blank line, in the order of the lines, each with the line as
    message. *)
Theorem plain_history_replaces (host : Host) (raw : string) (data : value)
    (text : string) (s : Plain.Store) :
  prop data "type" = Ok (VStr "HISTORY") ->
  prop data "data" = Ok (VStr text) ->
  text <> "" ->
  let s' := Plain.onmessage host raw (Some data) s in
  Plain.message <$> Plain.logs s' = VStr <$> List.filter nonblank (split nl text) /\
  Forall (fun r => Plain.isHistory r = true) (Plain.logs s') /\
  Plain.hostCalls s'
  = (2 * length (List.filter nonblank (split nl text)) + Plain.hostCalls s)%nat.
Proof.
  intros Hty Hdata Hne s'. subst s'.
  destruct (plain_history_lines host (List.filter nonblank (split nl text)) 0%nat s)
    as (rs & Hrun & Hmsg & Hhist).
  assert (Htr : truthy (VStr text) = true) by (destruct text; [congruence|reflexivity]).
  assert (Heq : Plain.onmessage host raw (Some data) s =
                Plain.mkStore rs (2 * length (List.filter nonblank (split nl text))
                                  + Plain.hostCalls s)).
  { destruct data as [| |b|q|t|items|fields]; try discriminate.
    simpl in Hty, Hdata. injection Hty as Hty. injection Hdata as Hdata.
    unfold Plain.onmessage, Plain.try_block, Plain.and_then, Plain.get,
      Plain.call_split, Plain.setLogs, mbind, Plain.P_bind, mret, Plain.P_ret.
    cbn [prop fst snd]. rewrite Hty.
    change (strict_eq_str (VStr "HISTORY") "HISTORY") with true.
    cbv iota. rewrite Hdata, Htr. rewrite Hrun. reflexivity. }
  rewrite Heq. simpl. auto.
Qed.

Lemma plain_history_replaces_witness :
  Plain.message <$> Plain.logs
    (Plain.onmessage demo_host "ignored" (Some frame_indented)
       (Plain.onmessage demo_host "plain text" None Plain.empty_store))
  = [VStr " a"; VStr "b"].
Proof.
  destruct (plain_history_replaces demo_host "ignored" frame_indented indented_text
              (Plain.onmessage demo_host "plain text" None Plain.empty_store))
    as (H & _).
  - reflexivity.
  - reflexivity.
  - discriminate.
  - rewrite H. reflexivity.
Defined.

(** ** Runs of the effect *)

Section RunsOfTheEffect.
Context (host : Host).

Lemma step_flag e a a' :
  step host e a = Some a' ->
  isCleanedUp a' = match e with
                   | EvUnmount => true
                   | _ => isCleanedUp a
                   end.
Proof.
  intros H. destruct e; simpl in H.
  - destruct (sockets a !! ws) as [[]|]; try discriminate. injection H as <-.
    destruct a; reflexivity.
  - destruct (sockets a !! ws) as [[]|]; try discriminate. injection H as <-.
    apply (store_update_fields a (onmessage host parsed a)), onmessage_store_update.
  - destruct (sockets a !! ws) as [[]|]; try discriminate; injection H as <-;
      destruct a; reflexivity.
  - assert (Ha' : a' = onclose (set_sockets (fun ss => <[ws:=CLOSED]> ss) a))
      by (destruct (sockets a !! ws) as [[]|]; congruence).
    subst a'. unfold onclose, setTimeout.
    destruct a as [? ? ? ? ? ? ? [] ? ? ? ? ?]; reflexivity.
  - destruct (0 <=? ms)%Z; [|discriminate]. injection H as <-.
    destruct a; reflexivity.
  - destruct (timers a !! t) as [due|]; [|discriminate].
    destruct (due <=? clock_ms a)%Z; [|discriminate]. injection H as <-.
    unfold reconnect, connectWebSocket, clearTimeout, close_socket.
    destruct a as [? ? ? ? [w|] ? ? [] ? ? ? ? ?]; reflexivity.
  - injection H as <-. rewrite cleanup_fields. reflexivity.
  - injection H as <-. destruct a; reflexivity.
  - injection H as <-. destruct a; reflexivity.
  - injection H as <-. unfold connectWebSocket, close_socket.
    destruct a as [? ? ? ? [w|] ? ? [] ? ? ? ? ?]; reflexivity.
Qed.

(** A run that has been torn down never fills the socket ref. *)
Lemma step_wsRef_none e a a' :
  step host e a = Some a' ->
  isCleanedUp a = true -> wsRef a = None -> wsRef a' = None.
Proof.
  intros H Hflag Hw. destruct e; simpl in H.
  - destruct (sockets a !! ws) as [[]|]; try discriminate. injection H as <-.
    destruct a; exact Hw.
  - destruct (sockets a !! ws) as [[]|]; try discriminate. injection H as <-.
    destruct (store_update_fields _ _ (onmessage_store_update host parsed a))
      as (_ & _ & _ & -> & _). exact Hw.
  - destruct (sockets a !! ws) as [[]|]; try discriminate; injection H as <-;
      destruct a; exact Hw.
  - assert (Ha' : a' = onclose (set_sockets (fun ss => <[ws:=CLOSED]> ss) a))
      by (destruct (sockets a !! ws) as [[]|]; congruence).
    subst a'. unfold onclose, setTimeout.
    destruct a as [? ? ? ? ? ? ? [] ? ? ? ? ?]; exact Hw.
  - destruct (0 <=? ms)%Z; [|discriminate]. injection H as <-.
    destruct a; exact Hw.
  - destruct (timers a !! t) as [due|]; [|discriminate].
    destruct (due <=? clock_ms a)%Z; [|discriminate]. injection H as <-.
    unfold reconnect, connectWebSocket, clearTimeout, close_socket.
    destruct a as [? ? ? ? [w|] ? ? [] ? ? ? ? ?]; simpl in *; congruence.
  - injection H as <-. rewrite cleanup_fields. reflexivity.
  - injection H as <-. destruct a; exact Hw.
  - injection H as <-. destruct a; exact Hw.
  - injection H as <-. unfold connectWebSocket, close_socket.
    destruct a as [? ? ? ? [w|] ? ? [] ? ? ? ? ?]; simpl in *; congruence.
Qed.

Lemma connectWebSocket_length a :
  (length (sockets a) <= length (sockets (connectWebSocket a)))%nat.
Proof.
  unfold connectWebSocket, close_socket.
  destruct a as [? ? ? ? [w|] ? ? [] ? ? ? ? ?]; simpl;
    rewrite ?length_app, ?closing_length; simpl; lia.
Qed.

Lemma step_sockets_grow e a a' :
  step host e a = Some a' -> (length (sockets a) <= length (sockets a'))%nat.
Proof.
  intros H. destruct e; simpl in H.
  - destruct (sockets a !! ws) as [[]|]; try discriminate. injection H as <-.
    destruct a; simpl. rewrite length_insert. lia.
  - destruct (sockets a !! ws) as [[]|]; try discriminate. injection H as <-.
    destruct (store_update_fields _ _ (onmessage_store_update host parsed a))
      as (_ & _ & _ & _ & _ & _ & -> & _). lia.
  - destruct (sockets a !! ws) as [[]|]; try discriminate; injection H as <-;
      destruct a; simpl; lia.
  - assert (Ha' : a' = onclose (set_sockets (fun ss => <[ws:=CLOSED]> ss) a))
      by (destruct (sockets a !! ws) as [[]|]; congruence).
    subst a'. unfold onclose, setTimeout.
    destruct a as [? ? ? ? ? ? ? [] ? ? ? ? ?]; simpl; rewrite length_insert; lia.
  - destruct (0 <=? ms)%Z; [|discriminate]. injection H as <-.
    destruct a; simpl; lia.
  - destruct (timers a !! t) as [due|]; [|discriminate].
    destruct (due <=? clock_ms a)%Z; [|discriminate]. injection H as <-.
    unfold reconnect.
    etransitivity; [|apply connectWebSocket_length]. destruct a; simpl; lia.
  - injection H as <-. rewrite cleanup_fields. simpl.
    destruct (wsRef a); rewrite ?closing_length; lia.
  - injection H as <-. destruct a; simpl; lia.
  - injection H as <-. destruct a; simpl; lia.
  - injection H as <-. apply connectWebSocket_length.
Qed.

(** A socket that is open after an event was open before it, or is
    new. *)
Lemma step_opened e a a' i :
  one_open a -> step host e a = Some a' -> open_transport a' i ->
  open_transport a i \/ (length (sockets a) <= i)%nat.
Proof.
  intros Hinv H Hopen. destruct e; simpl in H.
  - destruct (sockets a !! ws) as [[]|] eqn:Hws; try discriminate.
    injection H as <-. left. unfold open_transport in *.
    destruct a; simpl in *. eapply insert_open; [|exact Hopen]. auto.
  - destruct (sockets a !! ws) as [[]|]; try discriminate. injection H as <-.
    destruct (store_update_fields _ _ (onmessage_store_update host parsed a))
      as (_ & _ & _ & _ & _ & _ & Hs & _).
    left. unfold open_transport in *. rewrite Hs in Hopen. exact Hopen.
  - destruct (sockets a !! ws) as [[]|]; try discriminate; injection H as <-;
      left; destruct a; exact Hopen.
  - assert (Ha' : a' = onclose (set_sockets (fun ss => <[ws:=CLOSED]> ss) a))
      by (destruct (sockets a !! ws) as [[]|]; congruence).
    subst a'. left. unfold open_transport, onclose, setTimeout in *.
    destruct a as [? ? ? ? ? ? ? [] ? ? ? ? ?]; simpl in *;
      (eapply insert_open; [|exact Hopen]); auto.
  - destruct (0 <=? ms)%Z; [|discriminate]. injection H as <-.
    left. destruct a; exact Hopen.
  - destruct (timers a !! t) as [due|]; [|discriminate].
    destruct (due <=? clock_ms a)%Z; [|discriminate]. injection H as <-.
    right. unfold reconnect in Hopen.
    set (a0 := set_connectionStatus "Reconnecting..." (clearTimeout t a)) in *.
    assert (Hinv0 : one_open a0) by (intros j Hj; destruct a; apply (Hinv j Hj)).
    destruct (connectWebSocket_one_open a0 Hinv0) as [_ Hold].
    destruct (decide (i < length (sockets a0))%nat) as [Hlt|Hge];
      [destruct (Hold i Hlt Hopen)|].
    subst a0. destruct a; simpl in *; lia.
  - injection H as <-. left. rewrite cleanup_fields in Hopen.
    unfold open_transport in *. simpl in Hopen.
    destruct (wsRef a); [|exact Hopen].
    apply closing_open in Hopen as [_ Hopen]. exact Hopen.
  - injection H as <-. left. destruct a; exact Hopen.
  - injection H as <-. left. destruct a; exact Hopen.
  - injection H as <-. right.
    destruct (connectWebSocket_one_open a Hinv) as [_ Hold].
    destruct (decide (i < length (sockets a))%nat) as [Hlt|Hge];
      [destruct (Hold i Hlt Hopen)|lia].
Qed.

(** One event keeps what holds across runs; the flag does not enter. *)
Lemma step_runs_parts e a a' k :
  step host e a = Some a' ->
  one_open a ->
  (k <= length (sockets a))%nat ->
  (forall ws, (ws < k)%nat -> ~ open_transport a ws) ->
  one_open a' /\
  (k <= length (sockets a'))%nat /\
  (forall ws, (ws < k)%nat -> ~ open_transport a' ws).
Proof.
  intros H Hone Hlen Hold.
  split; [exact (step_one_open host e a a' Hone H)|]. split.
  - pose proof (step_sockets_grow e a a' H). lia.
  - intros ws Hws Hopen.
    destruct (step_opened e a a' ws Hone H Hopen) as [Hbefore|Hnew].
    + exact (Hold ws Hws Hbefore).
    + lia.
Qed.

Lemma step_torn_down e a a' :
  step host e a = Some a' ->
  (isCleanedUp a = true -> wsRef a = None) ->
  isCleanedUp a' = true -> wsRef a' = None.
Proof.
  intros H Hnone Hflag. rewrite (step_flag e a a' H) in Hflag.
  destruct e;
    try exact (step_wsRef_none _ a a' H Hflag (Hnone Hflag)).
  simpl in H. injection H as <-. rewrite cleanup_fields. reflexivity.
Qed.

Lemma effect_step_inv e m m' :
  runs_inv m -> effect_step host e m = Some m' -> runs_inv m'.
Proof.
  intros (Hone & Hnone & Hlen & Hold) H. destruct e as [e|]; simpl in H.
  - destruct (of_earlier_run e m).
    + unfold stale_step in H.
      destruct (step host e (set_isCleanedUp true (app m))) as [b|] eqn:Hstep;
        [|discriminate].
      simpl in H. injection H as <-.
      destruct (step_runs_parts e (set_isCleanedUp true (app m)) b (old_sockets m) Hstep)
        as (Hone' & Hlen' & Hold').
      * intros ws Hws. destruct (app m); exact (Hone ws Hws).
      * destruct (app m); exact Hlen.
      * intros ws Hws Hopen. apply (Hold ws Hws). destruct (app m); exact Hopen.
      * unfold runs_inv. simpl. split; [|split; [|split]].
        -- intros ws Hws. destruct b; exact (Hone' ws Hws).
        -- intros Hflag.
           assert (Hf : isCleanedUp (app m) = true) by (destruct b; exact Hflag).
           assert (Hb : wsRef b = None).
           { apply (step_wsRef_none e (set_isCleanedUp true (app m)) b Hstep).
             - destruct (app m); reflexivity.
             - specialize (Hnone Hf). destruct (app m); exact Hnone. }
           destruct b; exact Hb.
        -- destruct b; exact Hlen'.
        -- intros ws Hws Hopen. apply (Hold' ws Hws). destruct b; exact Hopen.
    + destruct (step host e (app m)) as [a'|] eqn:Hstep; [|discriminate].
      simpl in H. injection H as <-.
      destruct (step_runs_parts e (app m) a' (old_sockets m) Hstep Hone Hlen Hold)
        as (Hone' & Hlen' & Hold').
      split; [exact Hone'|]. split; [|split; [exact Hlen'|exact Hold']].
      exact (step_torn_down e (app m) a' Hstep Hnone).
  - destruct (isCleanedUp (app m)) eqn:Hflag; [|discriminate]. injection H as <-.
    specialize (Hnone eq_refl).
    set (a0 := set_isCleanedUp false (app m)).
    assert (Hone0 : one_open a0) by (intros ws Hws; subst a0; destruct (app m); exact (Hone ws Hws)).
    assert (Hs0 : sockets a0 = sockets (app m)) by (subst a0; destruct (app m); reflexivity).
    destruct (connectWebSocket_one_open a0 Hone0) as [Hone' Hold'].
    unfold runs_inv, rerun. simpl. fold a0. split; [exact Hone'|]. split; [|split].
    + intros Hf. exfalso.
      assert (Hf0 : isCleanedUp (connectWebSocket a0) = false).
      { subst a0. unfold connectWebSocket, close_socket.
        destruct (app m) as [? ? ? ? [w|] ? ? ? ? ? ? ? ?]; reflexivity. }
      congruence.
    + rewrite <- Hs0. apply connectWebSocket_length.
    + intros ws Hws. apply Hold'. rewrite Hs0. exact Hws.
Qed.

Lemma effect_run_inv es :
  forall m m', runs_inv m -> effect_run host es m = Some m' -> runs_inv m'.
Proof.
  induction es as [|e es IH]; intros m m' Hinv H; simpl in H.
  - injection H as <-. exact Hinv.
  - destruct (effect_step host e m) as [m1|] eqn:Hstep; [|discriminate].
    apply (IH m1 m'); [|exact H]. exact (effect_step_inv e m m1 Hinv Hstep).
Qed.
End RunsOfTheEffect.

Lemma first_run_inv : runs_inv first_run.
Proof.
  split; [|split; [discriminate|split; [simpl; lia|intros ws Hws; simpl in Hws; lia]]].
  apply (connectWebSocket_one_open empty_app empty_app_one_open).
Qed.

Lemma drop_closing (k w : nat) (ss : list ReadyState) :
  (k <= w)%nat -> drop k (closing w ss) = closing (w - k) (drop k ss).
Proof.
  intros Hle. unfold closing. rewrite lookup_drop.
  replace (k + (w - k))%nat with w by lia.
  destruct (ss !! w) as [[]|]; try reflexivity; apply drop_insert_ge, Hle.
Qed.

Section RunsLifecycle.
Context (host : Host).

Lemma effect_step_lifecycle e m m' :
  own_effect_event e = true -> runs_inv m -> runs_lifecycle m ->
  effect_step host e m = Some m' ->
  runs_lifecycle m' /\
  length (sockets (app m')) =
    (length (sockets (app m)) + if constructs e then 1 else 0)%nat.
Proof.
  intros Hown (Hone & Hnone & Hlen & Hold) (Hinv & Hw & Hnt & Htm) H.
  destruct m as [a k kt]. simpl in *.
  destruct e as [e|]; simpl in H.
  - destruct e; simpl in H, Hown.
    + (* open *)
      destruct (ws <? k)%nat eqn:Hst.
      * apply Nat.ltb_lt in Hst. exfalso. unfold stale_step in H.
        destruct a as [? ? ? ? ? ? ? ? ss ? ? ? ?]; simpl in *.
        destruct (ss !! ws) as [[]|] eqn:Hws; try discriminate.
        apply (Hold ws Hst). left. exact Hws.
      * apply Nat.ltb_ge in Hst.
        destruct (sockets a !! ws) as [[]|] eqn:Hws; try discriminate.
        simpl in H. injection H as <-. unfold runs_lifecycle.
        destruct a as [? ? ? ? ? ? ? ? ss ? ? ? ?]; simpl in *. rewrite length_insert.
        split; [|lia]. split; [|auto].
        rewrite drop_insert_ge by exact Hst.
        eapply conn_inv_sockets; [exact Hinv|].
        eapply (no_new_live_insert _ _ CONNECTING); [|discriminate].
        rewrite lookup_drop. replace (k + (ws - k))%nat with ws by lia. exact Hws.
    + (* message *)
      destruct (ws <? k)%nat eqn:Hst.
      * apply Nat.ltb_lt in Hst. exfalso. unfold stale_step in H.
        destruct a as [? ? ? ? ? ? ? ? ss ? ? ? ?]; simpl in *.
        destruct (ss !! ws) as [[]|] eqn:Hws; try discriminate.
        apply (Hold ws Hst). right. exact Hws.
      * destruct (sockets a !! ws) as [[]|] eqn:Hws; try discriminate.
        simpl in H. injection H as <-. unfold runs_lifecycle. simpl.
        destruct (store_update_fields _ _ (onmessage_store_update host parsed a))
          as (_ & _ & _ & -> & -> & -> & -> & -> & -> & _).
        split; [|lia]. auto.
    + (* error *)
      assert (Hm' : m' = mkEffects (onerror a) k kt).
      { destruct (ws <? k)%nat; unfold stale_step in H;
          destruct a as [? ? ? ? ? ? ? ? ss ? ? ? ?]; simpl in *;
          destruct (ss !! ws) as [[]|]; simpl in H; try discriminate;
          injection H as <-; reflexivity. }
      subst m'. unfold runs_lifecycle. destruct a; simpl in *. split; [|lia]. auto.
    + (* close *)
      destruct (ws <? k)%nat eqn:Hst.
      * apply Nat.ltb_lt in Hst. unfold stale_step in H.
        assert (Hm' : m' = mkEffects
                  (set_isCleanedUp (isCleanedUp a)
                     (onclose (set_sockets (fun ss => <[ws:=CLOSED]> ss)
                                 (set_isCleanedUp true a)))) k kt).
        { destruct a as [? ? ? ? ? ? ? ? ss ? ? ? ?]; simpl in *.
          destruct (ss !! ws) as [[]|]; simpl in H; congruence. }
        subst m'. unfold runs_lifecycle.
        destruct a as [? ? ? ? ? ? ? ? ss ? ? ? ?]; simpl in *.
        rewrite length_insert, drop_insert_lt by exact Hst. split; [|lia]. auto.
      * apply Nat.ltb_ge in Hst.
        assert (Hlive : exists st, sockets a !! ws = Some st /\ st <> CLOSED /\
                  m' = mkEffects (onclose (set_sockets (fun ss => <[ws:=CLOSED]> ss) a))
                                 k kt).
        { destruct (sockets a !! ws) as [[]|]; try discriminate; simpl in H;
            injection H as <-; eexists; (split; [reflexivity|]);
            (split; [discriminate|reflexivity]). }
        destruct Hlive as (st & Hws & Hne & ->). unfold runs_lifecycle, onclose, setTimeout.
        assert (Hws' : drop k (sockets a) !! (ws - k)%nat = Some st).
        { rewrite lookup_drop. replace (k + (ws - k))%nat with ws by lia. exact Hws. }
        destruct a as [? ? ? ? ? ? ? [] ss tm nt ? ?]; simpl in *;
          rewrite length_insert, drop_insert_ge by exact Hst; (split; [|lia]).
        -- split; [|auto].
           eapply conn_inv_sockets; [exact Hinv|].
           eapply no_new_live_insert; [exact Hws'|exact Hne].
        -- split; [eapply conn_inv_close; [exact Hinv|exact Hws'|exact Hne]|].
           split; [exact Hw|]. split; [lia|].
           intros t due Ht. apply lookup_insert_Some in Ht as [[<- _]|[_ Ht]];
             [lia|exact (Htm t due Ht)].
    + (* elapse *)
      destruct (0 <=? ms)%Z; [|discriminate]. simpl in H. injection H as <-.
      unfold runs_lifecycle. destruct a; simpl in *. split; [|lia]. auto.
    + (* timer *)
      destruct (t <? kt)%nat eqn:Hst.
      * apply Nat.ltb_lt in Hst. exfalso. unfold stale_step in H.
        destruct a as [? ? ? ? ? ? ? ? ss tm ? ? ?]; simpl in *.
        destruct (tm !! t) as [due|] eqn:Ht; [|discriminate].
        specialize (Htm t due Ht). lia.
      * destruct (timers a !! t) as [due|] eqn:Ht; [|discriminate].
        destruct (due <=? clock_ms a)%Z; [|discriminate]. simpl in H. injection H as <-.
        destruct (conn_inv_timer _ _ _ _ _ _ _ Hinv Ht) as (Hc & Hclosed & Hinv').
        unfold runs_lifecycle, reconnect, connectWebSocket, clearTimeout, close_socket.
        destruct a as [? ? ? ? [w|] ? ? ? ss tm nt ? ?]; simpl in *; subst; simpl.
        -- rewrite length_app, closing_length. split; [|simpl; lia].
           rewrite drop_app_le; [|rewrite closing_length; exact Hlen].
           rewrite drop_closing by (apply Hw; reflexivity). rewrite Hclosed.
           split; [exact Hinv'|]. split; [|split; [exact Hnt|]].
           ++ intros w' Hw'. injection Hw' as <-. exact Hlen.
           ++ intros t' d Ht'. apply lookup_delete_Some in Ht' as [_ Ht'].
              exact (Htm t' d Ht').
        -- rewrite length_app. split; [|simpl; lia].
           rewrite drop_app_le by exact Hlen.
           split; [exact Hinv'|]. split; [|split; [exact Hnt|]].
           ++ intros w' Hw'. injection Hw' as <-. exact Hlen.
           ++ intros t' d Ht'. apply lookup_delete_Some in Ht' as [_ Ht'].
              exact (Htm t' d Ht').
    + (* unmount *)
      simpl in H. injection H as <-. unfold runs_lifecycle. simpl.
      rewrite cleanup_fields. simpl.
      rewrite (conn_inv_cancel _ _ _ _ _ Hinv).
      split.
      * split; [|split; [discriminate|split; [exact Hnt|]]].
        -- apply conn_inv_torn_down in Hinv.
           eapply conn_inv_sockets; [exact Hinv|].
           destruct (wsRef a) as [w|] eqn:Hwr; [|apply no_new_live_refl].
           rewrite drop_closing by (apply Hw; reflexivity). apply no_new_live_closing.
        -- intros t due Ht. rewrite lookup_empty in Ht. discriminate.
      * destruct (wsRef a); rewrite ?closing_length; lia.
    + (* clear *)
      simpl in H. injection H as <-. unfold runs_lifecycle.
      destruct a; simpl in *. split; [|lia]. auto.
    + (* filter *)
      simpl in H. injection H as <-. unfold runs_lifecycle.
      destruct a; simpl in *. split; [|lia]. auto.
    + discriminate Hown.
  - (* the effect runs again *)
    destruct (isCleanedUp a) eqn:Hflag; [|discriminate]. injection H as <-.
    specialize (Hnone eq_refl).
    pose proof (inv_cleaned _ _ _ _ _ Hinv eq_refl) as Hempty.
    pose proof (inv_next _ _ _ _ _ Hinv) as Hnext.
    unfold runs_lifecycle, rerun, connectWebSocket, close_socket.
    destruct a as [? ? ? ? wr ? ? ? ss tm nt ? ?]; simpl in *; subst; simpl.
    rewrite length_app, drop_app_length. simpl. split; [|lia].
    split; [|split; [|split; [lia|]]].
    + constructor.
      * discriminate.
      * intros t due Ht. rewrite lookup_empty in Ht. discriminate.
      * intros t due ws st Ht. rewrite lookup_empty in Ht. discriminate.
      * intros [|i] [|j] si sj Hi _ Hj _; try reflexivity; discriminate.
      * exact Hnext.
    + intros w Hw'. injection Hw' as <-. lia.
    + intros t due Ht. rewrite lookup_empty in Ht. discriminate.
Qed.

Lemma effect_run_lifecycle es :
  forall m m',
  forallb own_effect_event es = true -> runs_inv m -> runs_lifecycle m ->
  effect_run host es m = Some m' ->
  runs_inv m' /\ runs_lifecycle m' /\
  length (sockets (app m')) =
    (length (sockets (app m)) + effect_reruns es + timers_fired es)%nat.
Proof.
  induction es as [|e es IH]; intros m m' Hown Hinv Hlife H; simpl in H.
  - injection H as <-. unfold effect_reruns, timers_fired. simpl.
    split; [exact Hinv|]. split; [exact Hlife|lia].
  - simpl in Hown. apply andb_true_iff in Hown as [He Hes].
    destruct (effect_step host e m) as [m1|] eqn:Hstep; [|discriminate].
    destruct (effect_step_lifecycle e m m1 He Hinv Hlife Hstep) as [Hlife1 Hlen1].
    pose proof (effect_step_inv host e m m1 Hinv Hstep) as Hinv1.
    destruct (IH m1 m' Hes Hinv1 Hlife1 H) as (Hinv' & Hlife' & Hlen').
    split; [exact Hinv'|]. split; [exact Hlife'|].
    rewrite Hlen', Hlen1. unfold effect_reruns, timers_fired.
    destruct e as [[]|]; simpl; lia.
Qed.

Lemma effect_step_flag e m m' :
  effect_step host (Ev e) m = Some m' ->
  isCleanedUp (app m) = true -> isCleanedUp (app m') = true.
Proof.
  intros H Hflag. simpl in H. destruct (of_earlier_run e m).
  - unfold stale_step in H.
    destruct (step host e (set_isCleanedUp true (app m))) as [b|]; [|discriminate].
    simpl in H. injection H as <-. simpl. destruct b; exact Hflag.
  - destruct (step host e (app m)) as [a'|] eqn:Hstep; [|discriminate].
    simpl in H. injection H as <-. simpl. rewrite (step_flag host e (app m) a' Hstep).
    destruct e; auto.
Qed.

(** While the latest run stays torn down no timer fires, so nothing is
    constructed. *)
Lemma torn_down_effect_run es :
  forall m m',
  forallb own_effect_event es = true -> forallb not_rerun es = true ->
  runs_inv m -> runs_lifecycle m -> isCleanedUp (app m) = true ->
  effect_run host es m = Some m' ->
  isCleanedUp (app m') = true /\ timers (app m') = ∅ /\
  length (sockets (app m')) = length (sockets (app m)) /\
  timers_fired es = 0%nat.
Proof.
  induction es as [|e es IH]; intros m m' Hown Hnr Hinv Hlife Hflag H; simpl in H.
  - injection H as <-. split; [exact Hflag|]. split; [|split; reflexivity].
    destruct Hlife as [Hc _]. rewrite Hflag in Hc. exact (inv_cleaned _ _ _ _ _ Hc eq_refl).
  - simpl in Hown, Hnr. apply andb_true_iff in Hown as [He Hes].
    apply andb_true_iff in Hnr as [Hne Hnes].
    destruct (effect_step host e m) as [m1|] eqn:Hstep; [|discriminate].
    destruct (effect_step_lifecycle e m m1 He Hinv Hlife Hstep) as [Hlife1 Hlen1].
    pose proof (effect_step_inv host e m m1 Hinv Hstep) as Hinv1.
    destruct e as [e|]; [|discriminate Hne].
    pose proof (effect_step_flag e m m1 Hstep Hflag) as Hflag1.
    destruct (IH m1 m' Hes Hnes Hinv1 Hlife1 Hflag1 H) as (Hf' & Ht' & Hl' & Hn').
    split; [exact Hf'|]. split; [exact Ht'|]. rewrite Hl', Hlen1.
    unfold timers_fired in *.
    destruct e; simpl; try (split; [lia|exact Hn']).
    exfalso. destruct Hlife as [Hc _]. rewrite Hflag in Hc.
    pose proof (inv_cleaned _ _ _ _ _ Hc eq_refl) as Hempty.
    simpl in Hstep. unfold stale_step in Hstep. simpl in Hstep.
    destruct (app m) as [? ? ? ? ? ? ? ? ss tm ? ? ?]; simpl in *. subst tm.
    rewrite lookup_empty in Hstep. destruct (t <? old_timers m)%nat; discriminate.
Qed.
End RunsLifecycle.

Lemma first_run_lifecycle : runs_lifecycle first_run.
Proof.
  split; [exact mounted_inv|]. split; [|split].
  - intros w _. simpl. lia.
  - simpl. lia.
  - intros t due Ht. simpl in Ht. rewrite lookup_empty in Ht. discriminate.
Qed.

(** X14.  A socket is constructed each time the effect runs and each
    time a reconnect timer fires, and at no other moment: however often
    the effect is run again, the number of sockets ever constructed is
    the number of runs of the effect (one more than the re-runs) plus
    the number of timers that fired. *)
Theorem sockets_from_runs_and_timers (host : Host) (es : list EffectEvent) (m : Effects) :
  forallb own_effect_event es = true ->
  effect_run host es first_run = Some m ->
  length (sockets (app m)) = (1 + effect_reruns es + timers_fired es)%nat.
Proof.
  intros Hown Hrun.
  destruct (effect_run_lifecycle host es first_run m Hown first_run_inv
              first_run_lifecycle Hrun) as (_ & _ & ->).
  reflexivity.
Qed.

Lemma sockets_from_runs_and_timers_witness :
  effect_run demo_host strict_reconnect first_run = Some strict_reconnect_end /\
  sockets (app strict_reconnect_end) = [CLOSED; CLOSED; OPEN] /\
  effect_reruns strict_reconnect = 1%nat /\ timers_fired strict_reconnect = 1%nat /\
  length (sockets (app strict_reconnect_end))
  = (1 + effect_reruns strict_reconnect + timers_fired strict_reconnect)%nat.
Proof.
  assert (Hrun : effect_run demo_host strict_reconnect first_run
                 = Some strict_reconnect_end) by (vm_compute; reflexivity).
  split; [exact Hrun|]. split; [reflexivity|]. split; [reflexivity|].
  split; [reflexivity|].
  apply (sockets_from_runs_and_timers demo_host strict_reconnect strict_reconnect_end);
    [reflexivity|exact Hrun].
Defined.

(** X22.  However often the effect has been run, once its latest run is
    torn down and until the effect runs again: no timer is pending and
    none fires, no socket is constructed, the socket ref stays empty
    and no transport is open, whatever events still arrive for the
    sockets of any of the runs. *)
Theorem torn_down_until_next_run (host : Host) (pre post : list EffectEvent)
    (m m' : Effects) :
  forallb own_effect_event pre = true ->
  effect_run host pre first_run = Some m ->
  isCleanedUp (app m) = true ->
  forallb own_effect_event post = true -> forallb not_rerun post = true ->
  effect_run host post m = Some m' ->
  isCleanedUp (app m') = true /\
  timers (app m') = ∅ /\
  timers_fired post = 0%nat /\
  length (sockets (app m')) = length (sockets (app m)) /\
  wsRef (app m') = None /\
  (forall ws, ~ open_transport (app m') ws).
Proof.
  intros Hpre Hrun Hflag Hpost Hnr Hrun'.
  destruct (effect_run_lifecycle host pre first_run m Hpre first_run_inv
              first_run_lifecycle Hrun) as (Hinv & Hlife & _).
  destruct (torn_down_effect_run host post m m' Hpost Hnr Hinv Hlife Hflag Hrun')
    as (Hflag' & Hempty & Hlen & Hfired).
  destruct (effect_run_lifecycle host post m m' Hpost Hinv Hlife Hrun')
    as ((Hone & Hnone & _) & _).
  split; [exact Hflag'|]. split; [exact Hempty|]. split; [exact Hfired|].
  split; [exact Hlen|]. split; [exact (Hnone Hflag')|].
  intros ws Hopen. specialize (Hone ws Hopen). rewrite (Hnone Hflag') in Hone.
  discriminate.
Qed.

Lemma torn_down_until_next_run_witness :
  effect_run demo_host strict_torn_down first_run = Some strict_torn_down_end /\
  effect_run demo_host after_strict_teardown strict_torn_down_end
  = Some after_strict_teardown_end /\
  sockets (app after_strict_teardown_end) = [CLOSED; CLOSED] /\
  isCleanedUp (app after_strict_teardown_end) = true /\
  timers (app after_strict_teardown_end) = ∅ /\
  timers_fired after_strict_teardown = 0%nat.
Proof.
  assert (Hpre : effect_run demo_host strict_torn_down first_run
                 = Some strict_torn_down_end) by (vm_compute; reflexivity).
  assert (Hpost : effect_run demo_host after_strict_teardown strict_torn_down_end
                  = Some after_strict_teardown_end) by (vm_compute; reflexivity).
  destruct (torn_down_until_next_run demo_host strict_torn_down after_strict_teardown
              strict_torn_down_end after_strict_teardown_end)
    as (Hflag & Hempty & Hfired & _); try reflexivity; try assumption.
  split; [exact Hpre|]. split; [exact Hpost|]. split; [reflexivity|].
  split; [exact Hflag|]. split; [exact Hempty|exact Hfired].
Defined.

(** X20.  However often the effect is run again, each time after the
    cleanup of the run before (as under StrictMode), and whatever
    events arrive for the sockets and timers of any of the runs: a
    socket that is connecting or open is the one the socket ref points
    to, it was made by the latest run of the effect, and that run has
    not been torn down.  So at most one transport is open, and none of
    an earlier run. *)
Theorem one_transport_across_reruns (host : Host) (es : list EffectEvent)
    (m : Effects) (ws : nat) :
  effect_run host es first_run = Some m ->
  open_transport (app m) ws ->
  wsRef (app m) = Some ws /\ (old_sockets m <= ws)%nat /\ isCleanedUp (app m) = false.
Proof.
  intros Hrun Hopen.
  destruct (effect_run_inv host es first_run m first_run_inv Hrun)
    as (Hone & Hnone & _ & Hold).
  pose proof (Hone ws Hopen) as Hw. split; [exact Hw|]. split.
  - destruct (decide (ws < old_sockets m)%nat) as [Hlt|Hge]; [|lia].
    destruct (Hold ws Hlt Hopen).
  - destruct (isCleanedUp (app m)); [|reflexivity].
    specialize (Hnone eq_refl). congruence.
Qed.

Lemma one_transport_across_reruns_witness :
  effect_run demo_host strict_mode first_run = Some strict_mode_end /\
  sockets (app strict_mode_end) = [CLOSING; OPEN] /\
  wsRef (app strict_mode_end) = Some 1%nat /\ (old_sockets strict_mode_end <= 1)%nat /\
  isCleanedUp (app strict_mode_end) = false.
Proof.
  assert (Hrun : effect_run demo_host strict_mode first_run = Some strict_mode_end)
    by (vm_compute; reflexivity).
  split; [exact Hrun|]. split; [reflexivity|].
  apply (one_transport_across_reruns demo_host strict_mode strict_mode_end 1%nat Hrun).
  right. reflexivity.
Defined.

(** X21.  The close event of a socket made by an earlier run of the
    effect schedules no reconnect and touches neither the refs nor the
    store, but it does mark the component disconnected, whatever the
    socket of the current run is doing: under the double run of
    StrictMode the second socket can be open while the indicator is off
    and the status reads "Disconnected". *)
Theorem earlier_run_close_event (host : Host) (m m' : Effects) (ws : nat) :
  (ws < old_sockets m)%nat ->
  effect_step host (Ev (EvClose ws)) m = Some m' ->
  isConnected (app m') = false /\
  connectionStatus (app m') = "Disconnected" /\
  sockets (app m') = <[ws := CLOSED]> (sockets (app m)) /\
  timers (app m') = timers (app m) /\
  reconnectTimeoutRef (app m') = reconnectTimeoutRef (app m) /\
  wsRef (app m') = wsRef (app m) /\
  isCleanedUp (app m') = isCleanedUp (app m) /\
  logs (app m') = logs (app m).
Proof.
  intros Hws H. simpl in H.
  apply Nat.ltb_lt in Hws. rewrite Hws in H. unfold stale_step in H. simpl in H.
  assert (Hm' : m' = mkEffects
                       (set_isCleanedUp (isCleanedUp (app m))
                          (onclose (set_sockets (fun ss => <[ws:=CLOSED]> ss)
                                      (set_isCleanedUp true (app m)))))
                       (old_sockets m) (old_timers m)).
  { destruct (app m) as [? ? ? ? ? ? ? ? ss ? ? ? ?]; simpl in *.
    destruct (ss !! ws) as [[]|]; simpl in H; congruence. }
  subst m'. simpl. destruct (app m); repeat split.
Qed.

Lemma earlier_run_close_event_witness :
  effect_step demo_host (Ev (EvClose 0)) strict_mode_end = Some strict_mode_closed /\
  sockets (app strict_mode_closed) = [CLOSED; OPEN] /\
  isConnected (app strict_mode_closed) = false /\
  connectionStatus (app strict_mode_closed) = "Disconnected" /\
  timers (app strict_mode_closed) = timers (app strict_mode_end).
Proof.
  assert (Hstep : effect_step demo_host (Ev (EvClose 0)) strict_mode_end
                  = Some strict_mode_closed) by (vm_compute; reflexivity).
  destruct (earlier_run_close_event demo_host strict_mode_end strict_mode_closed 0%nat)
    as (Hc & Hs & _ & Ht & _); [vm_compute; lia|exact Hstep|].
  split; [exact Hstep|]. split; [reflexivity|]. split; [exact Hc|]. split; [exact Hs|exact Ht].
Defined.
